(** * composite-service: the service-lifecycle orchestration engine

    A shallow embedding of [src/core/CompositeService.ts] (the orchestrator)
    and of [ComposedService] (the per-service supervisor), together with
    the part of the JavaScript run time the two classes rely on: promises,
    [async] functions suspended at an [await], and callbacks delivered by
    the environment (process events, timers, signals).

    Every promise is a cell of a heap.  A pending cell carries the
    continuation that will settle it: the rest of the [async] function
    whose result it is, or the [then]/[catch] reaction that produces it.
    The event loop is a step function over actions: [Run p] resumes the
    continuation of promise [p] once what it awaits is settled, the other
    actions are the environment's.  Theorems quantify over every list of
    actions, hence over every interleaving the event loop can produce. *)

From stdpp Require Import strings functions option list relations.

Set Default Proof Using "Type".

(** ** Configuration (read-only for the core) *)

(** A crash record, [ComposedServiceCrash]: [date] is the clock reading. *)
Record ComposedServiceCrash := {
  date : nat;
  crash_logTail : list string;
}.

(** [OnCrashConfigContext]. *)
Record OnCrashConfigContext := {
  isServiceReady : bool;
  crash : ComposedServiceCrash;
  crashes_ctx : list ComposedServiceCrash;
}.

(** What a call [config.onCrash(ctx)] does inside [try { await ... }]:
    it returns (a value or a resolved promise), it throws (or returns a
    rejected promise), or it returns a promise the hook settles later. *)
Inductive hook_result := HookReturns | HookThrows | HookLater.

(** [NormalizedComposedServiceConfig], the fields the core reads.  The
    [ready] function is user code whose promise the environment settles;
    it has no field here. *)
Record ServiceConfig := {
  dependencies : list string;
  minimumRestartDelay : nat;
  onCrash : OnCrashConfigContext → hook_result;
}.

(** Modelled from the spec: the default crash-decision hook, which lives
    in [validateAndNormalizeConfig] (not among the sources).  Policy
    restart-if-started: a crash after readiness lets crash handling go on
    to the restart, a crash before readiness is escalated as fatal. *)
Definition default_onCrash (ctx : OnCrashConfigContext) : hook_result :=
  if isServiceReady ctx then HookReturns else HookThrows.

(** ** Promises, processes, supervisors *)

(** A promise is its index in the heap, a [ServiceProcess] its index in
    [procs]. *)
Abbreviation pid := nat.
Abbreviation procid := nat.

Inductive status := Pending | Fulfilled | Rejected.

Inductive signal := SIGINT | SIGTERM.

Inductive cause :=
| FromReady            (* Error from ready function: ... *)
| StartingProcess      (* Error starting process: ... *)
| FromOnCrash.         (* Error from onCrash function: ... *)

Inductive message :=
| ConfigDump                     (* config = ... *)
| ConfigValidationError
| StartingComposite              (* Starting composite service... *)
| StartedComposite               (* Started composite service *)
| StoppingComposite              (* Stopping composite service... *)
| StoppedComposite               (* Stopped composite service *)
| ShutdownSignal (sig : signal)  (* Received shutdown signal '...' *)
| ErrorIn (id : string) (c : cause)  (* Error in '<id>': ... *)
| StartingService (id : string)  (* Starting service '<id>'... *)
| StartedService (id : string)   (* Started service '<id>' *)
| ServiceCrashed (id : string)   (* Service '<id>' crashed *)
| RestartingService (id : string)(* Restarting service '<id>' *)
| StoppingService (id : string)  (* Stopping service '<id>'... *)
| StoppedService (id : string)   (* Stopped service '<id>' *)
| CannotStartAfterStopping       (* InternalError *)
| NotExpectingHandleCrash.       (* InternalError *)

Inductive level := LoggerDebug | LoggerInfo | LoggerError | ConsoleLog | ConsoleError.

(** Who called [startProcess]: [start], or [handleCrash] for the process
    that crashed. *)
Inductive via := ViaStart | ViaRestart (crashed : procid).

(** The operations whose beginning, result and completion the trace
    records. *)
Inductive op :=
| OpStartService (id : string)
| OpStopService (id : string)
| OpStart (id : string)
| OpStop (id : string).

Inductive event :=
| Log (l : level) (m : message)
| Spawn (id : string) (proc : procid) (v : via) (time : nat)
                                   (* new ServiceProcess(config, onCrash) *)
| CrashNotified (id : string) (proc : procid) (time : nat)
                                   (* the process called back: it exited unasked *)
| EndRequested (id : string) (proc : procid)      (* proc.end() *)
| Exit (code : nat)                               (* process.exit(code) *)
| Begin (o : op)                   (* the operation is invoked *)
| Return (o : op) (r : option pid) (* what the invocation hands to its caller *)
| End (o : op).                    (* the operation's outcome is fulfilled *)

(** Continuations.  [cs] is the list handed to [Promise.all]. *)
Inductive cont :=
(* run time *)
| KExternal                 (* settled by the environment: proc.started,
                               the promise of config.ready(ctx), of
                               config.onCrash(ctx) *)
| KProcEnd (proc : procid)  (* proc.end(): settled when the process has exited *)
| KTimer (deadline : nat)   (* new Promise(resolve => setTimeout(resolve, ms)) *)
| KNever                    (* new Promise(() => {}) *)
| KResolved                 (* a promise settled when it is made: what onCrash
                               returned or threw, an async function that
                               returned or threw before its first await *)
| KFollow (p : pid)         (* resolved with promise p, or: await p; return *)
(* CompositeService *)
| KStartedAll (cs : list pid)                  (* ctor: Promise.all(..).then(info 'Started ..') *)
| KStartService0 (id : string)                 (* service is undefined: TypeError *)
| KStartService1 (id : string) (cs : list pid) (* await Promise.all(..)      line 78 *)
| KStartService2 (id : string) (n : pid)       (* await never()              line 80 *)
| KStartService3 (id : string) (r : option pid)(* await service.start()      line 82 *)
| KStoppedAll (cs : list pid)                  (* die: Promise.all(..).then(info 'Stopped ..') *)
| KExit (p : pid)                              (* die: .then(() => process.exit(1)) *)
| KStopService1 (id : string) (cs : list pid)  (* await Promise.all(..)      line 103 *)
| KStopService2 (id : string) (r : pid)        (* await service.stop()       line 104 *)
(* ComposedService *)
| KReadyCatch (id : string) (u : pid)          (* promiseTry(..).catch(..)   defineReady *)
| KStartProcess (id : string) (st : pid)       (* await this.process.started *)
| KThenReady (id : string) (p : pid)           (* .then(() => this.ready)    start *)
| KThenStarted (id : string) (p : pid)         (* .then(() => log 'Started') start *)
| KCrash1 (id : string) (proc : procid) (c : ComposedServiceCrash) (isReady : bool)
          (delay : pid)                        (* await isResolved(this.ready!) *)
| KCrash2 (id : string) (proc : procid) (h : pid) (caught : bool) (delay : pid)
                                               (* await this.config.onCrash(ctx), or
                                                  await this.die(..) in the catch *)
| KCrash3 (id : string) (proc : procid) (delay : pid)   (* await delay *)
| KCrash4 (id : string) (proc : procid) (q : pid)       (* await this.startProcess() *)
| KStopResolved (id : string)                  (* Promise.resolve()          stop *)
| KThenStopped (id : string) (e : pid).        (* .end().then(() => log 'Stopped') stop *)

Record cell := Cell { cell_cont : cont; cell_status : status }.

Global Instance status_eq_dec : EqDecision status.
Proof. solve_decision. Defined.
Global Instance signal_eq_dec : EqDecision signal.
Proof. solve_decision. Defined.
Global Instance cause_eq_dec : EqDecision cause.
Proof. solve_decision. Defined.
Global Instance message_eq_dec : EqDecision message.
Proof. solve_decision. Defined.
Global Instance level_eq_dec : EqDecision level.
Proof. solve_decision. Defined.
Global Instance via_eq_dec : EqDecision via.
Proof. solve_decision. Defined.
Global Instance op_eq_dec : EqDecision op.
Proof. solve_decision. Defined.
Global Instance event_eq_dec : EqDecision event.
Proof. solve_decision. Defined.

(** Modelled from the spec: [ServiceProcess], which is not among the
    sources, after the ProcessHandle of section 4.1: a [started] outcome,
    [isEnded], an idempotent [end()] whose outcome resolves once the
    process has exited, a crash notification delivered when the process
    exits without [end()] having been called, and the tail of its
    output. *)
Record ServiceProcess := {
  owner : string;
  started : pid;
  isEnded : bool;
  ending : option pid;
  logTail : list string;
}.

(** The mutable fields of a [ComposedService].  [id], [config], [output]
    and [die] are fixed by the constructor; [config] is read from the
    configuration below. *)
Record ComposedService := {
  ready : option pid;
  process : option procid;
  startResult : option pid;
  stopResult : option pid;
  crashes : list ComposedServiceCrash;
}.

Definition new_ComposedService : ComposedService :=
  {| ready := None; process := None; startResult := None; stopResult := None;
     crashes := [] |}.

Record state := {
  stopping : bool;                       (* CompositeService.stopping *)
  svc : string → ComposedService;        (* the Service objects, by id *)
  heap : list cell;
  procs : list ServiceProcess;
  now : nat;                             (* the clock, in milliseconds *)
  exited : bool;                         (* process.exit was called *)
  trace : list event;                    (* newest first *)
}.

Definition initial : state :=
  {| stopping := false; svc := λ _, new_ComposedService; heap := []; procs := [];
     now := 0; exited := false; trace := [] |}.

(** ** The monad of the embedding: state, and [None] when the model gives up
    (call stack exhausted, a reference that does not exist). *)

Definition M (A : Type) : Type := state → option (A * state).

Definition ret {A} (a : A) : M A := λ σ, Some (a, σ).
Definition bind {A B} (m : M A) (f : A → M B) : M B := λ σ,
  match m σ with
  | Some (a, σ') => f a σ'
  | None => None
  end.

Declare Scope M_scope.
Delimit Scope M_scope with M.
Bind Scope M_scope with M.
Notation "x ← y ; z" := (bind y (λ x, z))
  (at level 20, y at level 100, z at level 200, only parsing) : M_scope.
Notation "x ;; z" := (bind x (λ _, z))
  (at level 100, z at level 200, only parsing, right associativity) : M_scope.
Open Scope M_scope.

Definition fail {A} : M A := λ _, None.
Definition get : M state := λ σ, Some (σ, σ).
Definition put (σ : state) : M unit := λ _, Some (tt, σ).
Definition modify (f : state → state) : M unit := λ σ, Some (tt, f σ).
Definition lift {A} (o : option A) : M A := λ σ, match o with Some a => Some (a, σ) | None => None end.

Fixpoint mapM {A B} (f : A → M B) (l : list A) : M (list B) :=
  match l with
  | [] => ret []
  | a :: l => b ← f a; bs ← mapM f l; ret (b :: bs)
  end.

Definition set_trace (f : list event → list event) (σ : state) : state :=
  {| stopping := stopping σ; svc := svc σ; heap := heap σ; procs := procs σ;
     now := now σ; exited := exited σ; trace := f (trace σ) |}.
Definition set_heap (f : list cell → list cell) (σ : state) : state :=
  {| stopping := stopping σ; svc := svc σ; heap := f (heap σ); procs := procs σ;
     now := now σ; exited := exited σ; trace := trace σ |}.
Definition set_procs (f : list ServiceProcess → list ServiceProcess) (σ : state) : state :=
  {| stopping := stopping σ; svc := svc σ; heap := heap σ; procs := f (procs σ);
     now := now σ; exited := exited σ; trace := trace σ |}.
Definition set_svc (f : (string → ComposedService) → string → ComposedService) (σ : state) : state :=
  {| stopping := stopping σ; svc := f (svc σ); heap := heap σ; procs := procs σ;
     now := now σ; exited := exited σ; trace := trace σ |}.
Definition set_stopping (b : bool) (σ : state) : state :=
  {| stopping := b; svc := svc σ; heap := heap σ; procs := procs σ;
     now := now σ; exited := exited σ; trace := trace σ |}.
Definition set_now (f : nat → nat) (σ : state) : state :=
  {| stopping := stopping σ; svc := svc σ; heap := heap σ; procs := procs σ;
     now := f (now σ); exited := exited σ; trace := trace σ |}.
Definition set_exited (b : bool) (σ : state) : state :=
  {| stopping := stopping σ; svc := svc σ; heap := heap σ; procs := procs σ;
     now := now σ; exited := b; trace := trace σ |}.

Definition emit (e : event) : M unit := modify (set_trace (cons e)).

(** A new promise; its reference is the next free index. *)
Definition alloc (k : cont) (st : status) : M pid := λ σ,
  Some (length (heap σ), set_heap (λ h, h ++ [Cell k st]) σ).

Definition set_cell (p : pid) (c : cell) : M unit := modify (set_heap (<[p := c]>)).

Definition status_of (σ : state) (p : pid) : option status :=
  cell_status <$> heap σ !! p.

Definition set_ready (v : option pid) (x : ComposedService) :=
  {| ready := v; process := process x; startResult := startResult x;
     stopResult := stopResult x; crashes := crashes x |}.
Definition set_process (v : option procid) (x : ComposedService) :=
  {| ready := ready x; process := v; startResult := startResult x;
     stopResult := stopResult x; crashes := crashes x |}.
Definition set_startResult (v : option pid) (x : ComposedService) :=
  {| ready := ready x; process := process x; startResult := v;
     stopResult := stopResult x; crashes := crashes x |}.
Definition set_stopResult (v : option pid) (x : ComposedService) :=
  {| ready := ready x; process := process x; startResult := startResult x;
     stopResult := v; crashes := crashes x |}.
Definition push_crash (c : ComposedServiceCrash) (x : ComposedService) :=
  {| ready := ready x; process := process x; startResult := startResult x;
     stopResult := stopResult x; crashes := crashes x ++ [c] |}.

(** [this.<field> = ...] on the service [s]. *)
Definition update (s : string) (f : ComposedService → ComposedService) : M unit :=
  modify (set_svc (λ m, <[s := f (m s)]> m)).

(** [setTimeout(callback, ms)] as Node arms it: a delay below 1 or above
    2147483647 milliseconds (the largest the timers take) is set to 1. *)
Definition setTimeout_delay (ms : nat) : nat :=
  if (0 <? ms) && (N.of_nat ms <=? 2147483647)%N then ms else 1.

(** ** The helpers of [CompositeService.ts]: the labels of the output lines *)










(** Membership in a list that is written out. *)
Ltac in_list :=
  simpl; repeat first [apply list_elem_of_here | apply list_elem_of_further]; fail.

(** ** What the event loop and the environment do *)

Inductive action :=
| Run (p : pid)                  (* the event loop resumes the continuation of p *)
| Settle (p : pid) (ok : bool)   (* the environment settles an outcome of its own *)
| Fire (p : pid)                 (* a timer expires *)
| Tick (dt : nat)                (* time passes *)
| Crash (proc : procid) (tail : list string)   (* a process exits unasked *)
| Signal (sig : signal).         (* SIGINT or SIGTERM is delivered *)

(** ** A configuration to run: [web] depends on [api] *)

Definition api_web : list (string * ServiceConfig) :=
  [ ("api"%string, {| dependencies := []; minimumRestartDelay := 1000;
               onCrash := default_onCrash |});
    ("web"%string, {| dependencies := ["api"%string]; minimumRestartDelay := 1000;
               onCrash := default_onCrash |}) ].

(** Runs of [api_web], as the list of what the event loop and the
    environment do.  Promises are numbered in the order of their
    creation: the constructor makes 0 to 3, [start()] of [api] makes 4
    to 9 and [start()] of [web] makes 10 to 15. *)

(** Both services start, [api] first: its process is spawned and its
    readiness is reported, then [web] follows. *)
Definition startup : list action :=
  [Run 0; Run 1; Settle 4 true; Settle 6 true; Run 5; Run 7; Run 8; Run 8; Run 9;
   Run 0; Run 1; Run 2; Settle 10 true; Settle 12 true; Run 11; Run 13; Run 14;
   Run 14; Run 15; Run 2; Run 3].

(** After [startup]: two seconds later the process of [api] exits
    unasked; the hook returns, the timer of the restart delay (promise
    16) expires one second later and [handleCrash] (promise 17) spawns
    the replacement. *)
Definition crash_and_restart : list action :=
  [Tick 2000; Crash 0 []; Run 17; Run 17; Tick 1000; Fire 16; Run 17].

(** After [startup]: SIGINT arrives; [web] is stopped, then [api], and
    the program exits. *)
Definition shutdown : list action :=
  [Signal SIGINT; Run 16; Run 18; Settle 22 true; Run 23; Run 16; Run 18; Run 17;
   Settle 24 true; Run 25; Run 17; Run 19; Run 20].

(** The ready function of [api] fails: its promise (promise 4) is
    rejected, and the reaction to that (promise 5) is due. *)
Definition ready_fails : list action := [Run 0; Run 1; Settle 4 false].

(** After [ready_fails] and the reaction to it: [web], which never
    started, is stopped at once; the process of [api] is asked to end
    (promise 17) and does. *)
Definition stops_after_failure : list action :=
  [Run 10; Run 10; Run 12; Run 12; Run 11; Settle 17 true; Run 18; Run 11].

(** ** The program *)

Section Program.

(** [Object.entries(this.config.services)]: the validated, normalized
    configuration.  [depth] bounds the call stack: [startService] and
    [stopService] recurse synchronously along the dependency graph. *)
Variable services : list (string * ServiceConfig).
Variable depth : nat.


Fixpoint assoc (l : list (string * ServiceConfig)) (s : string) : option ServiceConfig :=
  match l with
  | [] => None
  | (t, c) :: l => if decide (t = s) then Some c else assoc l s
  end.

(** [this.serviceMap.get(id)], as far as the configuration goes. *)
Definition config (s : string) : option ServiceConfig := assoc services s.

(** [function never()]. *)
Definition never : M pid := alloc KNever Pending.

(** *** CompositeService.stopService, die *)

(** The synchronous part of [stopService]: up to its first [await]. *)
Fixpoint stopService (fuel : nat) (s : string) : M pid :=
  match fuel with
  | 0 => fail
  | S fuel =>
      let dependents :=
        filter (λ t : string * ServiceConfig, s ∈ dependencies t.2) services in
      cs ← mapM (λ t, stopService fuel t.1) dependents;
      alloc (KStopService1 s cs) Pending
  end.

Definition die (m : message) : M pid :=
  σ ← get;
  (if stopping σ then ret tt else
     modify (set_stopping true);;
     emit (Log LoggerError m);;
     emit (Log LoggerInfo StoppingComposite);;
     cs ← mapM (λ t, stopService depth t.1) services;
     p ← alloc (KStoppedAll cs) Pending;
     _ ← alloc (KExit p) Pending;
     ret tt);;
  never.

(** *** ComposedService *)

(** [this.die = message => die(`Error in '${id}': ${message}`)]. *)
Definition service_die (s : string) (c : cause) : M pid := die (ErrorIn s c).

Definition defineReady (s : string) : M unit :=
  u ← alloc KExternal Pending;
  r ← alloc (KReadyCatch s u) Pending;
  update s (set_ready (Some r)).

(** The synchronous part of [startProcess].  [v] tells the trace who
    called. *)
Definition startProcess (s : string) (v : via) : M pid :=
  st ← alloc KExternal Pending;
  σ ← get;
  let proc := length (procs σ) in
  modify (set_procs (λ ps, ps ++ [{| owner := s; started := st; isEnded := false;
                                      ending := None; logTail := [] |}]));;
  emit (Spawn s proc v (now σ));;
  update s (set_process (Some proc));;
  alloc (KStartProcess s st) Pending.

Definition start (s : string) : M (option pid) :=
  emit (Begin (OpStart s));;
  σ ← get;
  r ← match stopResult (svc σ s) with
      | Some _ =>
          emit (Log ConsoleError CannotStartAfterStopping);;
          ret (startResult (svc σ s))
      | None =>
          match startResult (svc σ s) with
          | Some r => ret (Some r)
          | None =>
              emit (Log ConsoleLog (StartingService s));;
              defineReady s;;
              p1 ← startProcess s ViaStart;
              p2 ← alloc (KThenReady s p1) Pending;
              p3 ← alloc (KThenStarted s p2) Pending;
              update s (set_startResult (Some p3));;
              ret (Some p3)
          end
      end;
  emit (Return (OpStart s) r);;
  ret r.

(** [isResolved(promise)]: the race is won by [promise] exactly when it is
    already fulfilled at the call. *)
Definition isResolved (p : pid) : M bool :=
  σ ← get;
  ret (bool_decide (status_of σ p = Some Fulfilled)).

(** The synchronous part of [handleCrash]. *)
Definition handleCrash (s : string) (proc : procid) : M pid :=
  σ ← get;
  match stopResult (svc σ s) with
  | Some _ =>
      emit (Log ConsoleError NotExpectingHandleCrash);;
      alloc KResolved Fulfilled
  | None =>
      emit (Log ConsoleLog (ServiceCrashed s));;
      c ← lift (config s);
      delay ← alloc (KTimer (now σ + setTimeout_delay (minimumRestartDelay c))) Pending;
      pr ← lift (procs σ !! proc);
      let crash := {| date := now σ; crash_logTail := logTail pr |} in
      update s (push_crash crash);;
      match ready (svc σ s) with
      | None => alloc KResolved Rejected     (* undefined.then: TypeError *)
      | Some r =>
          b ← isResolved r;
          alloc (KCrash1 s proc crash b delay) Pending
      end
  end.

(** [ServiceProcess.end()]. *)
Definition proc_end (s : string) (proc : procid) : M pid :=
  σ ← get;
  pr ← lift (procs σ !! proc);
  match ending pr with
  | Some e => ret e
  | None =>
      e ← alloc (KProcEnd proc) Pending;
      modify (set_procs (<[proc := {| owner := owner pr; started := started pr;
                                      isEnded := isEnded pr; ending := Some e;
                                      logTail := logTail pr |}]>));;
      emit (EndRequested s proc);;
      ret e
  end.

Definition live_process (σ : state) (s : string) : option procid :=
  match process (svc σ s) with
  | None => None
  | Some proc =>
      match procs σ !! proc with
      | Some pr => if isEnded pr then None else Some proc
      | None => None
      end
  end.

Definition stop (s : string) : M pid :=
  emit (Begin (OpStop s));;
  σ ← get;
  r ← match stopResult (svc σ s) with
      | Some r => ret r
      | None =>
          match live_process σ s with
          | None =>
              r ← alloc (KStopResolved s) Fulfilled;
              emit (End (OpStop s));;
              update s (set_stopResult (Some r));;
              ret r
          | Some proc =>
              emit (Log ConsoleLog (StoppingService s));;
              e ← proc_end s proc;
              r ← alloc (KThenStopped s e) Pending;
              update s (set_stopResult (Some r));;
              ret r
          end
      end;
  emit (Return (OpStop s) (Some r));;
  ret r.

(** *** CompositeService.startService, constructor *)

(** The synchronous part of [startService]: up to its first [await]. *)
Fixpoint startService (fuel : nat) (s : string) : M pid :=
  match fuel with
  | 0 => fail
  | S fuel =>
      match config s with
      | None => alloc (KStartService0 s) Rejected
      | Some c =>
          cs ← mapM (startService fuel) (dependencies c);
          alloc (KStartService1 s cs) Pending
      end
  end.

(** [new CompositeService(config)]; [valid] tells whether
    [validateAndNormalizeConfig] returned or threw. *)
Definition CompositeService (valid : bool) : M unit :=
  emit (Log LoggerDebug ConfigDump);;
  if valid then
    emit (Log LoggerInfo StartingComposite);;
    cs ← mapM (λ t, startService depth t.1) services;
    _ ← alloc (KStartedAll cs) Pending;
    ret tt
  else
    emit (Log LoggerError ConfigValidationError);;
    emit (Exit 1);;
    modify (set_exited true).

(** *** The event loop *)

(** [await p]: the continuation runs once [p] is settled; [true] when it
    is fulfilled, [false] when the [await] throws. *)
Definition await (p : pid) : M bool :=
  σ ← get;
  match status_of σ p with
  | Some Fulfilled => ret true
  | Some Rejected => ret false
  | _ => fail
  end.

(** [await Promise.all(cs)]: rejected as soon as one of [cs] is, fulfilled
    once all are. *)
Definition await_all (cs : list pid) : M bool :=
  σ ← get;
  if decide (Exists (λ c, status_of σ c = Some Rejected) cs) then ret false
  else if decide (Forall (λ c, status_of σ c = Some Fulfilled) cs) then ret true
  else fail.

Definition settle (k : cont) (ok : bool) : cell :=
  Cell k (if ok then Fulfilled else Rejected).

(** Resume the continuation [k]; the result is the new content of its
    promise. *)
Definition resume (k : cont) : M cell :=
  match k with
  | KExternal | KProcEnd _ | KTimer _ | KNever | KResolved | KStartService0 _
  | KStopResolved _ => fail
  | KFollow q => ok ← await q; ret (settle k ok)
  | KStartedAll cs =>
      ok ← await_all cs;
      (if ok then emit (Log LoggerInfo StartedComposite) else ret tt);;
      ret (settle k ok)
  | KStartService1 s cs =>
      ok ← await_all cs;
      if ok then
        σ ← get;
        if stopping σ then n ← never; ret (Cell (KStartService2 s n) Pending)
        else r ← start s; ret (Cell (KStartService3 s r) Pending)
      else ret (settle k false)
  | KStartService2 s n =>
      ok ← await n;
      if ok then r ← start s; ret (Cell (KStartService3 s r) Pending)
      else ret (settle k false)
  | KStartService3 s r =>
      ok ← match r with Some q => await q | None => ret true end;
      (if ok then emit (End (OpStartService s)) else ret tt);;
      ret (settle k ok)
  | KStoppedAll cs =>
      ok ← await_all cs;
      (if ok then emit (Log LoggerInfo StoppedComposite) else ret tt);;
      ret (settle k ok)
  | KExit q =>
      ok ← await q;
      (if ok then emit (Exit 1);; modify (set_exited true) else ret tt);;
      ret (settle k ok)
  | KStopService1 s cs =>
      ok ← await_all cs;
      if ok then r ← stop s; ret (Cell (KStopService2 s r) Pending)
      else ret (settle k false)
  | KStopService2 s r =>
      ok ← await r;
      (if ok then emit (End (OpStopService s)) else ret tt);;
      ret (settle k ok)
  | KReadyCatch s u =>
      ok ← await u;
      if ok then ret (settle k true)
      else n ← service_die s FromReady; ret (Cell (KFollow n) Pending)
  | KStartProcess s st =>
      ok ← await st;
      if ok then ret (settle k true)
      else n ← service_die s StartingProcess; ret (Cell (KFollow n) Pending)
  | KThenReady s q =>
      ok ← await q;
      if ok then
        σ ← get;
        match ready (svc σ s) with
        | Some r => ret (Cell (KFollow r) Pending)
        | None => ret (settle k true)
        end
      else ret (settle k false)
  | KThenStarted s q =>
      ok ← await q;
      (if ok then emit (Log ConsoleLog (StartedService s));; emit (End (OpStart s))
       else ret tt);;
      ret (settle k ok)
  | KCrash1 s proc crash b delay =>
      σ ← get;
      c ← lift (config s);
      let ctx := {| isServiceReady := b; crash := crash;
                    crashes_ctx := crashes (svc σ s) |} in
      h ← match onCrash c ctx with
          | HookReturns => alloc KResolved Fulfilled
          | HookThrows => alloc KResolved Rejected
          | HookLater => alloc KExternal Pending
          end;
      ret (Cell (KCrash2 s proc h false delay) Pending)
  | KCrash2 s proc h caught delay =>
      ok ← await h;
      if ok then
        σ ← get;
        match stopResult (svc σ s) with
        | Some _ => ret (settle k true)
        | None => ret (Cell (KCrash3 s proc delay) Pending)
        end
      else if caught then ret (settle k false)
      else n ← service_die s FromOnCrash;
           ret (Cell (KCrash2 s proc n true delay) Pending)
  | KCrash3 s proc delay =>
      ok ← await delay;
      if ok then
        σ ← get;
        match stopResult (svc σ s) with
        | Some _ => ret (settle k true)
        | None =>
            emit (Log ConsoleLog (RestartingService s));;
            q ← startProcess s (ViaRestart proc);
            ret (Cell (KCrash4 s proc q) Pending)
        end
      else ret (settle k false)
  | KCrash4 s proc q => ok ← await q; ret (settle k ok)
  | KThenStopped s e =>
      ok ← await e;
      (if ok then emit (Log ConsoleLog (StoppedService s));; emit (End (OpStop s))
       else ret tt);;
      ret (settle k ok)
  end.

Definition mark_ended (tail : option (list string)) (pr : ServiceProcess) : ServiceProcess :=
  {| owner := owner pr; started := started pr; isEnded := true; ending := ending pr;
     logTail := default (logTail pr) tail |}.

Definition step (a : action) : M unit :=
  σ ← get;
  if exited σ then fail else
  match a with
  | Run p =>
      c ← lift (heap σ !! p);
      match cell_status c with
      | Pending => c' ← resume (cell_cont c); set_cell p c'
      | _ => fail
      end
  | Settle p ok =>
      c ← lift (heap σ !! p);
      match c with
      | Cell KExternal Pending => set_cell p (settle KExternal ok)
      | Cell (KProcEnd proc) Pending =>
          pr ← lift (procs σ !! proc);
          (if ok then modify (set_procs (<[proc := mark_ended None pr]>)) else ret tt);;
          set_cell p (settle (KProcEnd proc) ok)
      | _ => fail
      end
  | Fire p =>
      c ← lift (heap σ !! p);
      match c with
      | Cell (KTimer deadline) Pending =>
          if decide (deadline ≤ now σ) then set_cell p (Cell (KTimer deadline) Fulfilled)
          else fail
      | _ => fail
      end
  | Tick dt => modify (set_now (λ t, t + dt))
  | Crash proc tail =>
      pr ← lift (procs σ !! proc);
      match isEnded pr, ending pr with
      | false, None =>
          modify (set_procs (<[proc := mark_ended (Some tail) pr]>));;
          emit (CrashNotified (owner pr) proc (now σ));;
          _ ← handleCrash (owner pr) proc;
          ret tt
      | _, _ => fail
      end
  | Signal sig =>
      _ ← die (ShutdownSignal sig);
      ret tt
  end.

Fixpoint run (acts : list action) : M unit :=
  match acts with
  | [] => ret tt
  | a :: acts => step a;; run acts
  end.

(** The state after [acts], from [σ]. *)
Definition exec (acts : list action) (σ : state) : option state :=
  snd <$> run acts σ.

(** The state in which the constructor leaves the program. *)
Definition boot (valid : bool) : option state :=
  snd <$> CompositeService valid initial.

(** ** Invariants of the event loop: definitions *)

(** What a promise is the outcome of; a promise keeps its kind for life. *)
Inductive kind :=
| KdStartService (s : string)   (* the result of a call startService(s) *)
| KdStopService (s : string)    (* the result of a call stopService(s) *)
| KdStart (s : string)          (* the startResult of s *)
| KdStop (s : string)           (* the stopResult of s *)
| KdNever
| KdTimer (deadline : nat)
| KdOther.

Definition kind_of (k : cont) : kind :=
  match k with
  | KStartService0 s | KStartService1 s _ | KStartService2 s _
  | KStartService3 s _ => KdStartService s
  | KStopService1 s _ | KStopService2 s _ => KdStopService s
  | KThenStarted s _ => KdStart s
  | KStopResolved s | KThenStopped s _ => KdStop s
  | KNever => KdNever
  | KTimer d => KdTimer d
  | _ => KdOther
  end.

Definition has_kind (σ : state) (p : pid) (κ : kind) : Prop :=
  ∃ c, heap σ !! p = Some c ∧ kind_of (cell_cont c) = κ.

Definition is_never (σ : state) (p : pid) : Prop :=
  heap σ !! p = Some (Cell KNever Pending).

(** A settled promise and a [never] promise do not change; a pending one
    keeps its kind. *)
Definition cell_le (c c' : cell) : Prop :=
  kind_of (cell_cont c') = kind_of (cell_cont c) ∧
  ((cell_status c ≠ Pending ∨ cell_cont c = KNever) → c' = c).

(** How a state can have changed, whatever ran in between. *)
Record evolves (σ σ' : state) : Prop := {
  ev_heap : ∀ p c, heap σ !! p = Some c → ∃ c', heap σ' !! p = Some c' ∧ cell_le c c';
  ev_trace : ∃ new, trace σ' = new ++ trace σ;
  ev_stopping : stopping σ = true → stopping σ' = true;
  ev_now : now σ ≤ now σ';
  ev_start : ∀ s r, startResult (svc σ s) = Some r → startResult (svc σ' s) = Some r;
  ev_stop : ∀ s r, stopResult (svc σ s) = Some r → stopResult (svc σ' s) = Some r;
  ev_procs : length (procs σ) ≤ length (procs σ');
  ev_ready : ∀ s, is_Some (startResult (svc σ s)) → ready (svc σ' s) = ready (svc σ s);
  ev_ended : ∀ i, isEnded <$> procs σ !! i = Some true →
             isEnded <$> procs σ' !! i = Some true;
}.

(** The services that list [s] as a dependency, as [stopService] computes
    them. *)
Definition dependents (s : string) : list (string * ServiceConfig) :=
  filter (λ t : string * ServiceConfig, s ∈ dependencies t.2) services.

(** The delay a crash handler waits for was armed at the crash, for what
    [setTimeout] makes of [minimumRestartDelay]. *)
Definition armed (σ : state) (s : string) (proc : procid) (delay : pid) : Prop :=
  ∃ d t0 c, has_kind σ delay (KdTimer d) ∧ config s = Some c ∧
            CrashNotified s proc t0 ∈ trace σ ∧
            t0 + setTimeout_delay (minimumRestartDelay c) ≤ d.

Definition cont_ok (σ : state) (k : cont) : Prop :=
  match k with
  | KStartService1 s cs =>
      ∃ c, config s = Some c ∧
           Forall2 (λ d q, has_kind σ q (KdStartService d)) (dependencies c) cs
  | KStartService2 s n => is_never σ n
  | KStartService3 s r => ∃ q, r = Some q ∧ has_kind σ q (KdStart s)
  | KStopService1 s cs =>
      stopping σ = true ∧
      Forall2 (λ t q, has_kind σ q (KdStopService t.1)) (dependents s) cs
  | KStopService2 s r => has_kind σ r (KdStop s)
  | KCrash1 s proc _ _ delay | KCrash2 s proc _ _ delay | KCrash3 s proc delay =>
      armed σ s proc delay
  | KThenStopped s _ => Begin (OpStop s) ∈ trace σ
  | _ => True
  end.

Definition done_ok (σ : state) (κ : kind) : Prop :=
  match κ with
  | KdStartService s => End (OpStartService s) ∈ trace σ ∧ End (OpStart s) ∈ trace σ
  | KdStopService s => End (OpStopService s) ∈ trace σ ∧ End (OpStop s) ∈ trace σ
  | KdStart s => End (OpStart s) ∈ trace σ
  | KdStop s => End (OpStop s) ∈ trace σ
  | KdTimer d => d ≤ now σ
  | KdNever => False
  | KdOther => True
  end.

Definition cell_ok (σ : state) (c : cell) : Prop :=
  cont_ok σ (cell_cont c) ∧
  (cell_status c = Fulfilled → done_ok σ (kind_of (cell_cont c))) ∧
  (cell_cont c = KNever → cell_status c = Pending).

Definition is_start_spawn (s : string) (e : event) : bool :=
  match e with
  | Spawn s' _ ViaStart _ => bool_decide (s' = s)
  | _ => false
  end.

Definition is_end_request (s : string) (e : event) : bool :=
  match e with
  | EndRequested s' _ => bool_decide (s' = s)
  | _ => false
  end.

Definition count (f : event → bool) (l : list event) : nat :=
  length (filter (λ e, f e = true) l).

Definition shutdown_begun : event := Log LoggerInfo StoppingComposite.

Record svc_ok (σ : state) (s : string) : Prop := {
  so_stop : ∀ r, stopResult (svc σ s) = Some r →
            stopping σ = true ∧ has_kind σ r (KdStop s);
  so_start : ∀ q, startResult (svc σ s) = Some q → has_kind σ q (KdStart s);
  so_stop_begun : Begin (OpStop s) ∈ trace σ → is_Some (stopResult (svc σ s));
  so_start_begun : Begin (OpStart s) ∈ trace σ → is_Some (startResult (svc σ s));
  so_start_ret : ∀ r, Return (OpStart s) r ∈ trace σ →
                 r = startResult (svc σ s) ∧ is_Some r;
  so_stop_ret : ∀ r, Return (OpStop s) r ∈ trace σ →
                r = stopResult (svc σ s) ∧ is_Some r;
  so_spawns : count (is_start_spawn s) (trace σ) =
              if startResult (svc σ s) is Some _ then 1 else 0;
  so_ends : count (is_end_request s) (trace σ) ≤
            if stopResult (svc σ s) is Some _ then 1 else 0;
}.

(** What must have happened before an event. *)
Definition ok_after (e : event) (l : list event) : Prop :=
  match e with
  | Begin (OpStart s) =>
      (shutdown_begun ∉ l) ∧
      (∀ c d, config s = Some c → d ∈ dependencies c →
              End (OpStartService d) ∈ l ∧ End (OpStart d) ∈ l)
  | Spawn s p ViaStart t =>
      (shutdown_begun ∉ l) ∧ (∀ s' v t', Spawn s' p v t' ∉ l)
  | Spawn s p (ViaRestart crashed) t =>
      (Begin (OpStop s) ∉ l) ∧ (∀ s' v t', Spawn s' p v t' ∉ l) ∧
      ∃ t0 c, config s = Some c ∧ CrashNotified s crashed t0 ∈ l ∧
              t0 + setTimeout_delay (minimumRestartDelay c) ≤ t
  | Begin (OpStop s) =>
      ∀ t, t ∈ dependents s → End (OpStopService t.1) ∈ l ∧ End (OpStop t.1) ∈ l
  | End (OpStop s) => Begin (OpStop s) ∈ l
  | CrashNotified s p t => ∀ s' t', CrashNotified s' p t' ∉ l
  | Exit c => c = 1
  | _ => True
  end.

Fixpoint hist_ok (l : list event) : Prop :=
  match l with
  | [] => True
  | e :: l => ok_after e l ∧ hist_ok l
  end.

Record inv (σ : state) : Prop := {
  inv_heap : ∀ p c, heap σ !! p = Some c → cell_ok σ c;
  inv_svc : ∀ s, svc_ok σ s;
  inv_hist : hist_ok (trace σ);
  inv_flag : stopping σ = false → shutdown_begun ∉ trace σ;
  inv_begun : stopping σ = true → shutdown_begun ∈ trace σ;
  inv_once : count (λ e, bool_decide (e = shutdown_begun)) (trace σ) ≤ 1;
  inv_procs : ∀ s p v t, Spawn s p v t ∈ trace σ → p < length (procs σ);
  inv_crashed : ∀ s p t, CrashNotified s p t ∈ trace σ →
                isEnded <$> procs σ !! p = Some true;
}.

(** ** Auxiliary notions of the proofs *)

Definition allocs (new : list cell) (σ : state) : state :=
  set_heap (λ h, h ++ new) σ.

(** What a call leaves alone: it only adds promises, and time stands
    still. *)
Record extends (σ σ' : state) : Prop := {
  ex_evolves : evolves σ σ';
  ex_heap : ∃ new, heap σ' = heap σ ++ new;
  ex_now : now σ' = now σ;
}.

Definition put_cell (p : pid) (c : cell) (σ : state) : state := set_heap (<[p := c]>) σ.

(** Events that concern neither the bookkeeping of [start] and [stop]
    nor the start of the shutdown. *)
Definition plain (e : event) : Prop :=
  match e with
  | Log l m => Log l m ≠ shutdown_begun
  | Exit _ | End _ => True
  | _ => False
  end.

Definition emits (e : event) (σ : state) : state := set_trace (cons e) σ.

(** The service whose bookkeeping an event enters. *)
Definition about (e : event) : option string :=
  match e with
  | Begin (OpStart s) | Begin (OpStop s) | Return (OpStart s) _ | Return (OpStop s) _
  | Spawn s _ ViaStart _ | EndRequested s _ => Some s
  | _ => None
  end.

Definition deps_done (σ : state) (s : string) : Prop :=
  ∀ c d, config s = Some c → d ∈ dependencies c →
         End (OpStartService d) ∈ trace σ ∧ End (OpStart d) ∈ trace σ.

Definition dependents_done (σ : state) (s : string) : Prop :=
  ∀ t, t ∈ dependents s → End (OpStopService t.1) ∈ trace σ ∧ End (OpStop t.1) ∈ trace σ.

Definition end_requested (e : pid) (pr : ServiceProcess) : ServiceProcess :=
  {| owner := owner pr; started := started pr; isEnded := isEnded pr; ending := Some e;
     logTail := logTail pr |}.

(** [t] lists [s] among its dependencies. *)
Definition lists (t s : string) : Prop :=
  ∃ c, (t, c) ∈ services ∧ s ∈ dependencies c.

(** The promise an action works on, if any. *)
Definition target (a : action) : option pid :=
  match a with
  | Run p | Settle p _ | Fire p => Some p
  | _ => None
  end.

(** The dependency graph is acyclic, and the stack is deep enough:
    [rank] numbers the services so that a dependency has a smaller number
    than the service that lists it, and all numbers are below [depth]. *)
Definition acyclic (rank : string → nat) : bool :=
  forallb (λ t : string * ServiceConfig,
             (rank t.1 <? depth) && forallb (λ d, rank d <? rank t.1) (dependencies t.2))
          services.


(** *** Fatal conditions *)

(** The fatal conditions of a run, each with the message that [die] is
    called with: the promise of the ready function is rejected, the
    promise [started] of a process is, or the promise of the [onCrash]
    hook is.  [fatal σ a m]: in [σ], the reaction [a] is about to meet
    one. *)
Inductive fatal (σ : state) : action → message → Prop :=
| fatal_ready p s u :
    heap σ !! p = Some (Cell (KReadyCatch s u) Pending) →
    status_of σ u = Some Rejected →
    fatal σ (Run p) (ErrorIn s FromReady)
| fatal_start p s st :
    heap σ !! p = Some (Cell (KStartProcess s st) Pending) →
    status_of σ st = Some Rejected →
    fatal σ (Run p) (ErrorIn s StartingProcess)
| fatal_onCrash p s proc h delay :
    heap σ !! p = Some (Cell (KCrash2 s proc h false delay) Pending) →
    status_of σ h = Some Rejected →
    fatal σ (Run p) (ErrorIn s FromOnCrash).

(** What makes the program shut down: a signal, or a fatal condition. *)
Inductive shutdown_cause (σ : state) : action → message → Prop :=
| cause_signal sig : shutdown_cause σ (Signal sig) (ShutdownSignal sig)
| cause_fatal a m : fatal σ a m → shutdown_cause σ a m.

Definition stopped_composite : event := Log LoggerInfo StoppedComposite.

(** The exit that [die] arms: [x] is the promise of [Promise.all] over
    [cs], the calls of [stopService] for all services, and while it is
    pending the promise after it, the one that exits, is pending too. *)
Definition exit_armed (σ : state) (x : pid) (cs : list pid) : Prop :=
  (∃ st, heap σ !! x = Some (Cell (KStoppedAll cs) st)) ∧
  (heap σ !! x = Some (Cell (KStoppedAll cs) Pending) →
   heap σ !! S x = Some (Cell (KExit x) Pending)) ∧
  Forall2 (λ (t : string * ServiceConfig) q, has_kind σ q (KdStopService t.1)) services cs.

(** *** Crash handlers and restarts *)

(** The crash a cell is handling: the cell is the pending outcome of a
    call [handleCrash(proc)] that has not yet come to the restart. *)
Definition handler_of (c : cell) : option procid :=
  match c with
  | Cell (KCrash1 _ proc _ _ _) Pending | Cell (KCrash2 _ proc _ _ _) Pending
  | Cell (KCrash3 _ proc _) Pending => Some proc
  | _ => None
  end.

(** The spawns that restart after the crash of [crashed]. *)
Definition is_restart (crashed : procid) (e : event) : bool :=
  match e with
  | Spawn _ _ (ViaRestart c) _ => bool_decide (c = crashed)
  | _ => false
  end.

Definition handlers (proc : procid) (h : list cell) : nat :=
  length (filter (λ c, handler_of c = Some proc) h).

(** The restarts of [proc] made, and those that may still be made. *)
Definition tokens (σ : state) (proc : procid) : nat :=
  handlers proc (heap σ) + count (is_restart proc) (trace σ).

(** A change that leaves crash handling alone: it adds promises that
    handle no crash, and events that are no restart. *)
Definition calm (σ σ' : state) : Prop :=
  (∃ new, heap σ' = heap σ ++ new ∧ Forall (λ c, handler_of c = None) new) ∧
  (∃ new, trace σ' = new ++ trace σ ∧ Forall (λ e, ∀ proc, is_restart proc e = false) new).

(** A computation that is [calm], and whose result satisfies [P]. *)
Definition quiet_to {A} (P : A → Prop) (m : M A) : Prop :=
  ∀ σ a σ', m σ = Some (a, σ') → calm σ σ' ∧ P a.

Abbreviation quiet := (quiet_to (λ _, True)).

(** *** What a call adds to the state *)

(** From [σ] to [σ'], promises were added that satisfy [C] and events
    that satisfy [E]; no promise and no event was changed. *)
Definition adds (C : cell → Prop) (E : event → Prop) (σ σ' : state) : Prop :=
  (∃ new, heap σ' = heap σ ++ new ∧ Forall C new) ∧
  (∃ new, trace σ' = new ++ trace σ ∧ Forall E new).

(** A computation that only [adds], and returns a result that satisfies
    [P]. *)
Definition adding {A} (C : cell → Prop) (E : event → Prop) (P : A → Prop) (m : M A) : Prop :=
  ∀ σ a σ', m σ = Some (a, σ') → adds C E σ σ' ∧ P a.

(** The steps of the event loop, one case for each thing that can
    happen. *)
Inductive step_case (σ σ' : state) : action → Prop :=
| step_run p k c' σ1 :
    heap σ !! p = Some (Cell k Pending) → resume k σ = Some (c', σ1) →
    σ' = put_cell p c' σ1 → step_case σ σ' (Run p)
| step_settle p ok :
    heap σ !! p = Some (Cell KExternal Pending) →
    σ' = put_cell p (settle KExternal ok) σ → step_case σ σ' (Settle p ok)
| step_ended p proc pr :
    heap σ !! p = Some (Cell (KProcEnd proc) Pending) → procs σ !! proc = Some pr →
    σ' = put_cell p (Cell (KProcEnd proc) Fulfilled)
           (set_procs (<[proc := mark_ended None pr]>) σ) →
    step_case σ σ' (Settle p true)
| step_end_failed p proc pr :
    heap σ !! p = Some (Cell (KProcEnd proc) Pending) → procs σ !! proc = Some pr →
    σ' = put_cell p (Cell (KProcEnd proc) Rejected) σ → step_case σ σ' (Settle p false)
| step_fire p deadline :
    heap σ !! p = Some (Cell (KTimer deadline) Pending) → deadline ≤ now σ →
    σ' = put_cell p (Cell (KTimer deadline) Fulfilled) σ → step_case σ σ' (Fire p)
| step_tick dt :
    σ' = set_now (λ t, t + dt) σ → step_case σ σ' (Tick dt)
| step_crash proc tail pr q :
    procs σ !! proc = Some pr → isEnded pr = false → ending pr = None →
    handleCrash (owner pr) proc
      (emits (CrashNotified (owner pr) proc (now σ))
         (set_procs (<[proc := mark_ended (Some tail) pr]>) σ)) = Some (q, σ') →
    step_case σ σ' (Crash proc tail)
| step_signal sig n :
    die (ShutdownSignal sig) σ = Some (n, σ') → step_case σ σ' (Signal sig).

(** *** What each call adds: the promises it makes and the events it emits *)

Definition die_cells (c : cell) : Prop :=
  match c with
  | Cell (KStopService1 _ _) Pending | Cell (KStoppedAll _) Pending
  | Cell (KExit _) Pending | Cell KNever Pending => True
  | _ => False
  end.

Definition die_events (m : message) (e : event) : Prop :=
  e = Log LoggerError m ∨ e = Log LoggerInfo StoppingComposite.

Definition start_cells (s : string) (c : cell) : Prop :=
  match c with
  | Cell KExternal Pending => True
  | Cell (KReadyCatch s' _) Pending | Cell (KStartProcess s' _) Pending
  | Cell (KThenReady s' _) Pending | Cell (KThenStarted s' _) Pending => s' = s
  | _ => False
  end.

Definition start_events (s : string) (e : event) : Prop :=
  match e with
  | Begin (OpStart s') | Return (OpStart s') _ | Log ConsoleLog (StartingService s')
  | Spawn s' _ ViaStart _ => s' = s
  | Log ConsoleError CannotStartAfterStopping => True
  | _ => False
  end.

Definition stop_cells (s : string) (c : cell) : Prop :=
  match c with
  | Cell (KStopResolved s') Fulfilled | Cell (KThenStopped s' _) Pending => s' = s
  | Cell (KProcEnd _) Pending => True
  | _ => False
  end.

Definition stop_events (s : string) (e : event) : Prop :=
  match e with
  | Begin (OpStop s') | End (OpStop s') | Return (OpStop s') (Some _)
  | Log ConsoleLog (StoppingService s') | EndRequested s' _ => s' = s
  | _ => False
  end.

Definition handleCrash_cells (s : string) (proc : procid) (c : cell) : Prop :=
  match c with
  | Cell KResolved Fulfilled | Cell KResolved Rejected | Cell (KTimer _) Pending => True
  | Cell (KCrash1 s' proc' _ _ _) Pending => s' = s ∧ proc' = proc
  | _ => False
  end.

Definition handleCrash_events (s : string) (e : event) : Prop :=
  e = Log ConsoleError NotExpectingHandleCrash ∨ e = Log ConsoleLog (ServiceCrashed s).

Definition restart_cells (s : string) (c : cell) : Prop :=
  match c with
  | Cell KExternal Pending => True
  | Cell (KStartProcess s' _) Pending => s' = s
  | _ => False
  end.

Definition startService_cells (c : cell) : Prop :=
  match c with
  | Cell (KStartService0 _) Rejected | Cell (KStartService1 _ _) Pending => True
  | _ => False
  end.

Definition no_cell (c : cell) : Prop := False.
Definition no_event (e : event) : Prop := False.

(** What resuming the continuation [k] adds. *)
Definition resume_cells (k : cont) (c : cell) : Prop :=
  match k with
  | KStartService1 s _ => start_cells s c ∨ c = Cell KNever Pending
  | KStartService2 s _ => start_cells s c
  | KStopService1 s _ => stop_cells s c
  | KReadyCatch _ _ | KStartProcess _ _ | KCrash2 _ _ _ _ _ => die_cells c
  | KCrash1 _ _ _ _ _ =>
      c = Cell KResolved Fulfilled ∨ c = Cell KResolved Rejected ∨ c = Cell KExternal Pending
  | KCrash3 s _ _ => restart_cells s c
  | _ => False
  end.

Definition resume_events (k : cont) (e : event) : Prop :=
  match k with
  | KStartedAll _ => e = Log LoggerInfo StartedComposite
  | KStartService1 s _ | KStartService2 s _ => start_events s e
  | KStartService3 s _ => e = End (OpStartService s)
  | KStoppedAll _ => e = Log LoggerInfo StoppedComposite
  | KExit _ => e = Exit 1
  | KStopService1 s _ => stop_events s e
  | KStopService2 s _ => e = End (OpStopService s)
  | KReadyCatch s _ => die_events (ErrorIn s FromReady) e
  | KStartProcess s _ => die_events (ErrorIn s StartingProcess) e
  | KThenStarted s _ => e = Log ConsoleLog (StartedService s) ∨ e = End (OpStart s)
  | KCrash2 s _ _ _ _ => die_events (ErrorIn s FromOnCrash) e
  | KCrash3 s proc _ =>
      e = Log ConsoleLog (RestartingService s) ∨ ∃ p t, e = Spawn s p (ViaRestart proc) t
  | KThenStopped s _ => e = Log ConsoleLog (StoppedService s) ∨ e = End (OpStop s)
  | _ => False
  end.

(** What the promise of [k] becomes when [k] is resumed: it is settled,
    or it goes on to the next [await] of its function. *)
Definition resume_next (k : cont) (c' : cell) : Prop :=
  (∃ ok, c' = settle k ok) ∨
  match k, c' with
  | KStartService1 s _, Cell (KStartService2 s' _) Pending
  | KStartService1 s _, Cell (KStartService3 s' _) Pending
  | KStartService2 s _, Cell (KStartService3 s' _) Pending
  | KStopService1 s _, Cell (KStopService2 s' _) Pending => s' = s
  | KReadyCatch _ _, Cell (KFollow _) Pending
  | KStartProcess _ _, Cell (KFollow _) Pending
  | KThenReady _ _, Cell (KFollow _) Pending => True
  | KCrash1 s proc _ _ d, Cell (KCrash2 s' proc' _ false d') Pending
  | KCrash2 s proc _ false d, Cell (KCrash2 s' proc' _ true d') Pending
  | KCrash2 s proc _ _ d, Cell (KCrash3 s' proc' d') Pending =>
      s' = s ∧ proc' = proc ∧ d' = d
  | KCrash3 s proc _, Cell (KCrash4 s' proc' _) Pending => s' = s ∧ proc' = proc
  | _, _ => False
  end.

(** *** The composite as a whole *)

Definition started_composite : event := Log LoggerInfo StartedComposite.

(** The messages that [die] is called with. *)
Definition shutdown_message (m : message) : Prop :=
  match m with ShutdownSignal _ | ErrorIn _ _ => True | _ => False end.

(** What the trace [l] holds when the composite logs its progress or
    exits. *)
Definition composite_after (l : list event) (e : event) : Prop :=
  match e with
  | Log LoggerInfo StartedComposite =>
      ∀ t, t ∈ services → End (OpStartService t.1) ∈ l ∧ End (OpStart t.1) ∈ l
  | Log LoggerInfo StoppingComposite =>
      ∃ m, shutdown_message m ∧ Log LoggerError m ∈ l
  | Log LoggerInfo StoppedComposite =>
      shutdown_begun ∈ l ∧
      ∀ t, t ∈ services → End (OpStopService t.1) ∈ l ∧ End (OpStop t.1) ∈ l
  | Exit _ => stopped_composite ∈ l
  | _ => True
  end.

(** The promises of the constructor and of [die] are over the calls for
    all services, and their messages and the exit follow them. *)
Record composite_ok (σ : state) : Prop := {
  co_started_all : ∀ p cs st, heap σ !! p = Some (Cell (KStartedAll cs) st) →
    Forall2 (λ t q, has_kind σ q (KdStartService t.1)) services cs;
  co_stopped_all : ∀ p cs st, heap σ !! p = Some (Cell (KStoppedAll cs) st) →
    Forall2 (λ t q, has_kind σ q (KdStopService t.1)) services cs ∧
    shutdown_begun ∈ trace σ ∧
    (st = Fulfilled → stopped_composite ∈ trace σ);
  co_exit : ∀ p q st, heap σ !! p = Some (Cell (KExit q) st) →
    ∃ cs st', heap σ !! q = Some (Cell (KStoppedAll cs) st');
  co_trace : ∀ e, e ∈ trace σ → composite_after (trace σ) e;
}.

Definition is_composite (k : cont) : bool :=
  match k with KStartedAll _ | KStoppedAll _ | KExit _ => true | _ => false end.

Definition composite_event (e : event) : bool :=
  match e with
  | Log LoggerInfo StartedComposite | Log LoggerInfo StoppingComposite
  | Log LoggerInfo StoppedComposite | Exit _ => true
  | _ => false
  end.

(** A new promise of [die]: over the calls [stopService] for all
    services, and the exit after it. *)
Definition new_composite (σ : state) (c : cell) : Prop :=
  match c with
  | Cell (KStartedAll _) _ => False
  | Cell (KStoppedAll cs) st =>
      st = Pending ∧ shutdown_begun ∈ trace σ ∧
      Forall2 (λ t q, has_kind σ q (KdStopService t.1)) services cs
  | Cell (KExit q) _ => ∃ cs st', heap σ !! q = Some (Cell (KStoppedAll cs) st')
  | _ => True
  end.

(** ** The specification's words, where the program differs *)

(** A restart with a fresh readiness gate: the readiness promise of [s]
    in [σ'] was made after [σ], the state in which the crash happened,
    by a second call of [defineReady]. *)
Definition fresh_gate (σ σ' : state) (s : string) : Prop :=
  ∃ r, ready (svc σ' s) = Some r ∧ length (heap σ) ≤ r.

(** A restart with a fresh process handle. *)
Definition fresh_handle (σ σ' : state) (s : string) : Prop :=
  ∃ p, process (svc σ' s) = Some p ∧ length (procs σ) ≤ p.

(** A failure that was routed through [die]: the shutdown has begun,
    since [die] sets the stopping flag unless it finds it set. *)
Definition escalated (σ : state) : Prop := stopping σ = true.

(** A shutdown that was fully graceful and voluntary: a signal began
    it, no fatal condition occurred, and every service has completed its
    [stop()]. *)
Definition is_signal_log (e : event) : bool :=
  match e with Log LoggerError (ShutdownSignal _) => true | _ => false end.

Definition is_fatal_log (e : event) : bool :=
  match e with
  | Log LoggerError (ErrorIn _ _) | Log LoggerError ConfigValidationError => true
  | _ => false
  end.

Definition graceful (σ : state) : bool :=
  existsb is_signal_log (trace σ) && negb (existsb is_fatal_log (trace σ)) &&
  forallb (λ t : string * ServiceConfig, bool_decide (End (OpStop t.1) ∈ trace σ)) services.

(** The exit status that the specification gives: 0 after a fully
    graceful and voluntary shutdown, 1 otherwise. *)
Definition specified_status (σ : state) : nat := if graceful σ then 0 else 1.

(** ** Reasoning about the monad *)

Lemma bind_Some {A B} (m : M A) (f : A → M B) σ b σ2 :
  bind m f σ = Some (b, σ2) ↔ ∃ a σ1, m σ = Some (a, σ1) ∧ f a σ1 = Some (b, σ2).
Proof.
  unfold bind. destruct (m σ) as [[a σ1]|].
  - split; [eauto|]. by intros (? & ? & [= <- <-] & ?).
  - split; [done|]. by intros (? & ? & ? & ?).
Qed.

Lemma Some_pair_inj {A B} (a a' : A) (b b' : B) :
  Some (a, b) = Some (a', b') → a = a' ∧ b = b'.
Proof. by intros [= -> ->]. Qed.

Lemma mapM_nil {A B} (f : A → M B) σ : mapM f [] σ = Some ([], σ).
Proof. done. Qed.

Lemma mapM_cons {A B} (f : A → M B) a l σ bs σ2 :
  mapM f (a :: l) σ = Some (bs, σ2) ↔
  ∃ b σ1 bs', f a σ = Some (b, σ1) ∧ mapM f l σ1 = Some (bs', σ2) ∧ bs = b :: bs'.
Proof.
  simpl. rewrite bind_Some. split.
  - intros (b & σ1 & ? & H). apply bind_Some in H as (bs' & σ' & ? & [= <- <-]). eauto 8.
  - intros (b & σ1 & bs' & ? & ? & ->). exists b, σ1. split; [done|].
    apply bind_Some. eauto.
Qed.

(** ** The order on states *)

Lemma cell_le_refl c : cell_le c c.
Proof. by split. Qed.

Lemma cell_le_trans c1 c2 c3 : cell_le c1 c2 → cell_le c2 c3 → cell_le c1 c3.
Proof.
  intros [K1 F1] [K2 F2]. split; [congruence|].
  intros H. specialize (F1 H). subst c2. auto.
Qed.

Lemma evolves_refl σ : evolves σ σ.
Proof.
  split; eauto using cell_le_refl. by exists [].
Qed.

Lemma evolves_trans σ1 σ2 σ3 : evolves σ1 σ2 → evolves σ2 σ3 → evolves σ1 σ3.
Proof.
  intros [H1 [n1 T1] S1 N1 A1 B1 P1 R1 D1] [H2 [n2 T2] S2 N2 A2 B2 P2 R2 D2]. split; eauto.
  - intros p c Hc. destruct (H1 _ _ Hc) as (c' & Hc' & ?).
    destruct (H2 _ _ Hc') as (c'' & ? & ?). eauto using cell_le_trans.
  - exists (n2 ++ n1). by rewrite T2, T1, (assoc_L (++)).
  - lia.
  - lia.
  - intros s [r Hr]. rewrite R2, R1; eauto.
Qed.

Lemma evolves_in σ σ' e : evolves σ σ' → e ∈ trace σ → e ∈ trace σ'.
Proof. intros [_ [new ->] _ _ _ _ _ _ _] ?. apply elem_of_app. by right. Qed.

Lemma evolves_has_kind σ σ' p κ : evolves σ σ' → has_kind σ p κ → has_kind σ' p κ.
Proof.
  intros Hev (c & Hc & <-). destruct (ev_heap _ _ Hev _ _ Hc) as (c' & ? & [? _]).
  by exists c'.
Qed.

Lemma evolves_is_never σ σ' p : evolves σ σ' → is_never σ p → is_never σ' p.
Proof.
  intros Hev Hc. destruct (ev_heap _ _ Hev _ _ Hc) as (c' & ? & [_ F]).
  unfold is_never. rewrite F in *; auto.
Qed.

Lemma evolves_fulfilled σ σ' p :
  evolves σ σ' → status_of σ p = Some Fulfilled → status_of σ' p = Some Fulfilled.
Proof.
  unfold status_of. intros Hev Hc.
  destruct (heap σ !! p) as [c|] eqn:E; [|done]. injection Hc as Hc.
  destruct (ev_heap _ _ Hev _ _ E) as (c' & E' & [_ F]). rewrite E'. simpl.
  rewrite F; [by rewrite Hc|]. left. by rewrite Hc.
Qed.

Lemma evolves_armed σ σ' s proc delay :
  evolves σ σ' → armed σ s proc delay → armed σ' s proc delay.
Proof.
  intros Hev (d & t0 & c & ? & ? & ? & ?).
  exists d, t0, c. split_and!; eauto using evolves_has_kind, evolves_in.
Qed.

Lemma evolves_cont_ok σ σ' k : evolves σ σ' → cont_ok σ k → cont_ok σ' k.
Proof.
  intros Hev. destruct k; simpl; eauto using evolves_armed, evolves_has_kind, evolves_is_never.
  - intros (c & ? & F). exists c. split; [done|].
    eapply Forall2_impl; [exact F|]. eauto using evolves_has_kind.
  - intros (q & ? & ?). eauto using evolves_has_kind.
  - intros [? F]. split; [by eapply ev_stopping|].
    eapply Forall2_impl; [exact F|]. eauto using evolves_has_kind.
  - eauto using evolves_in.
Qed.

Lemma evolves_done_ok σ σ' κ : evolves σ σ' → done_ok σ κ → done_ok σ' κ.
Proof.
  intros Hev. destruct κ; simpl; try naive_solver eauto using evolves_in.
  pose proof (ev_now _ _ Hev). lia.
Qed.

Lemma evolves_cell_ok σ σ' c : evolves σ σ' → cell_ok σ c → cell_ok σ' c.
Proof.
  intros Hev (? & ? & ?). split_and!; eauto using evolves_cont_ok, evolves_done_ok.
Qed.

(** ** Preservation of the invariant by the primitive changes *)

Lemma extends_refl σ : extends σ σ.
Proof. split; auto using evolves_refl. exists []. by rewrite app_nil_r. Qed.

Lemma extends_trans σ1 σ2 σ3 : extends σ1 σ2 → extends σ2 σ3 → extends σ1 σ3.
Proof.
  intros [E1 [n1 H1] N1] [E2 [n2 H2] N2]. split; [by eapply evolves_trans| |congruence].
  exists (n1 ++ n2). by rewrite H2, H1, (assoc_L (++)).
Qed.

Lemma extends_lookup σ σ' p c : extends σ σ' → heap σ !! p = Some c → heap σ' !! p = Some c.
Proof. intros [_ [new ->] _] ?. by apply lookup_app_l_Some. Qed.

Lemma allocs_app σ n1 n2 : allocs n2 (allocs n1 σ) = allocs (n1 ++ n2) σ.
Proof. unfold allocs, set_heap. simpl. by rewrite (assoc_L (++)). Qed.

Lemma allocs_nil σ : extends σ (allocs [] σ).
Proof.
  split; [split|..]; simpl; auto.
  - intros p c ?. exists c. rewrite app_nil_r. auto using cell_le_refl.
  - by exists [].
  - by exists [].
Qed.

Lemma allocs_extends σ new : extends σ (allocs new σ).
Proof.
  split; [split|..]; simpl; eauto.
  - intros p c ?. exists c. split; [by apply lookup_app_l_Some|apply cell_le_refl].
  - by exists [].
Qed.

Lemma allocs_evolves σ new : evolves σ (allocs new σ).
Proof. apply ex_evolves, allocs_extends. Qed.

Lemma lookup_snoc_Some (h : list cell) (c c' : cell) p :
  (h ++ [c]) !! p = Some c' → h !! p = Some c' ∨ (p = length h ∧ c' = c).
Proof.
  intros H. apply lookup_app_Some in H as [?|[? H]]; [by left|right].
  apply list_lookup_singleton_Some in H as [? ->]. split; [lia|done].
Qed.

Lemma lookup_allocs σ new p c :
  heap (allocs new σ) !! p = Some c → heap σ !! p = Some c ∨ c ∈ new.
Proof.
  simpl. intros H. apply lookup_app_Some in H as [?|[? H]]; [by left|right].
  by eapply list_elem_of_lookup_2.
Qed.

Lemma has_kind_alloc σ k st new :
  has_kind (allocs (new ++ [Cell k st]) σ) (length (heap σ) + length new) (kind_of k).
Proof.
  exists (Cell k st). split; [|done]. simpl.
  rewrite (assoc_L (++)), <- length_app. by apply list_lookup_middle.
Qed.

Lemma has_kind_alloc1 σ k st :
  has_kind (allocs [Cell k st] σ) (length (heap σ)) (kind_of k).
Proof.
  exists (Cell k st). split; [|done]. simpl. by apply list_lookup_middle.
Qed.

Lemma ended_app (ps new : list ServiceProcess) i :
  isEnded <$> ps !! i = Some true → isEnded <$> (ps ++ new) !! i = Some true.
Proof.
  intros H. destruct (ps !! i) eqn:E; [|done]. by rewrite (lookup_app_l_Some _ _ _ _ E).
Qed.

Lemma ended_insert (ps : list ServiceProcess) i j pr pr' :
  ps !! j = Some pr → (isEnded pr = true → isEnded pr' = true) →
  isEnded <$> ps !! i = Some true → isEnded <$> <[j := pr']> ps !! i = Some true.
Proof.
  intros Hj Hpr H. destruct (decide (i = j)) as [->|].
  - rewrite list_lookup_insert_eq by by eapply lookup_lt_Some.
    rewrite Hj in H. simpl in *. injection H as H. by rewrite Hpr.
  - by rewrite list_lookup_insert_ne.
Qed.

Lemma hist_ok_app l1 e l2 : hist_ok (l1 ++ e :: l2) → ok_after e l2.
Proof. induction l1 as [|e' l1 IH]; simpl; naive_solver. Qed.

Lemma count_cons f e l : count f (e :: l) = (if f e then 1 else 0) + count f l.
Proof.
  unfold count. rewrite filter_cons. destruct (f e); simpl; by repeat case_decide.
Qed.

Lemma count_nil f : count f [] = 0.
Proof. done. Qed.

(** To re-establish the invariant after a change, look at what changed. *)
Lemma inv_intro σ σ' :
  inv σ → evolves σ σ' →
  (∀ p c, heap σ' !! p = Some c → heap σ !! p = Some c ∨ cell_ok σ' c) →
  (∀ s, svc_ok σ s → svc_ok σ' s) →
  (hist_ok (trace σ) → hist_ok (trace σ')) →
  (stopping σ' = false → shutdown_begun ∉ trace σ') →
  (stopping σ = false → stopping σ' = true → shutdown_begun ∈ trace σ') →
  count (λ e, bool_decide (e = shutdown_begun)) (trace σ') ≤ 1 →
  (∀ s p v t, Spawn s p v t ∈ trace σ' → p < length (procs σ')) →
  (∀ s p t, CrashNotified s p t ∈ trace σ' →
     CrashNotified s p t ∈ trace σ ∨ isEnded <$> procs σ' !! p = Some true) →
  inv σ'.
Proof.
  intros [] Hev Hheap Hsvc Hhist ? Hb ? ? Hcr. split; auto.
  - intros p c Hc. destruct (Hheap _ _ Hc); eauto using evolves_cell_ok.
  - intros Hs. destruct (stopping σ) eqn:Hs0; [|by apply Hb].
    eapply evolves_in; eauto.
  - intros s p t Hin. destruct (Hcr _ _ _ Hin); [|done].
    eapply ev_ended; eauto.
Qed.

(** Services are not concerned by changes to the heap, the clock, the
    processes. *)
Lemma svc_ok_frame σ σ' s :
  svc_ok σ s → evolves σ σ' → trace σ' = trace σ → svc σ' s = svc σ s → svc_ok σ' s.
Proof.
  intros [] Hev Ht Hs. split; rewrite ?Ht, ?Hs; auto.
  - intros r Hr. destruct (so_stop0 r Hr). eauto using ev_stopping, evolves_has_kind.
  - eauto using evolves_has_kind.
Qed.

Lemma inv_frame σ σ' :
  inv σ → evolves σ σ' →
  (∀ p c, heap σ' !! p = Some c → heap σ !! p = Some c ∨ cell_ok σ' c) →
  trace σ' = trace σ → svc σ' = svc σ → stopping σ' = stopping σ →
  inv σ'.
Proof.
  intros Hinv Hev Hheap Ht Hs Hst. apply (inv_intro σ); auto.
  - intros s ?. eapply svc_ok_frame; eauto. by rewrite Hs.
  - by rewrite Ht.
  - rewrite Ht, Hst. apply Hinv.
  - congruence.
  - rewrite Ht. apply Hinv.
  - rewrite Ht. intros s p v t Hin. pose proof (inv_procs _ Hinv _ _ _ _ Hin).
    pose proof (ev_procs _ _ Hev). lia.
  - rewrite Ht. auto.
Qed.

Lemma inv_allocs σ new :
  inv σ → Forall (cell_ok (allocs new σ)) new → inv (allocs new σ).
Proof.
  intros Hinv Hnew. apply (inv_frame σ); auto using allocs_evolves.
  intros p c Hc. apply lookup_allocs in Hc as [?|Hc]; [by left|right].
  rewrite Forall_forall in Hnew. auto.
Qed.

Lemma put_cell_evolves σ p c c' :
  heap σ !! p = Some c → cell_status c = Pending → cell_cont c ≠ KNever →
  kind_of (cell_cont c') = kind_of (cell_cont c) →
  evolves σ (put_cell p c' σ).
Proof.
  intros Hc Hp Hn Hk. split; simpl; auto.
  - intros q d Hd. destruct (decide (q = p)) as [->|].
    + exists c'. rewrite list_lookup_insert_eq by by eapply lookup_lt_Some.
      split; [done|]. simplify_eq. split; [done|]. intros [|]; congruence.
    + exists d. rewrite list_lookup_insert_ne by done. auto using cell_le_refl.
  - by exists [].
Qed.

Lemma inv_put_cell σ p c c' :
  inv σ → heap σ !! p = Some c → cell_status c = Pending → cell_cont c ≠ KNever →
  kind_of (cell_cont c') = kind_of (cell_cont c) →
  cell_ok (put_cell p c' σ) c' →
  inv (put_cell p c' σ).
Proof.
  intros Hinv Hc Hp Hn Hk Hok.
  apply (inv_frame σ); eauto using put_cell_evolves.
  intros q d Hd. simpl in Hd. destruct (decide (q = p)) as [->|].
  - rewrite list_lookup_insert_eq in Hd by by eapply lookup_lt_Some. simplify_eq. by right.
  - rewrite list_lookup_insert_ne in Hd by done. by left.
Qed.

Lemma emits_extends σ e : extends σ (emits e σ).
Proof.
  split; [split|..]; simpl; eauto using cell_le_refl.
  - by exists [e].
  - exists []. by rewrite app_nil_r.
Qed.

Lemma emits_evolves σ e : evolves σ (emits e σ).
Proof. apply ex_evolves, emits_extends. Qed.

Lemma svc_ok_emits σ e s : svc_ok σ s → plain e → svc_ok (emits e σ) s.
Proof.
  intros [] He. split; simpl.
  - intros r Hr. destruct (so_stop0 r Hr) as [? (c & ? & ?)]. split; [done|]. by exists c.
  - intros q Hq. destruct (so_start0 q Hq) as (c & ? & ?). by exists c.
  - intros [<-|?]%elem_of_cons; [done|auto].
  - intros [<-|?]%elem_of_cons; [done|auto].
  - intros r [<-|?]%elem_of_cons; [done|auto].
  - intros r [<-|?]%elem_of_cons; [done|auto].
  - rewrite count_cons. by destruct e as [|? ? [|?] ?| | | | | |].
  - rewrite count_cons. by destruct e.
Qed.

Lemma inv_emits σ e : inv σ → plain e → ok_after e (trace σ) → inv (emits e σ).
Proof.
  intros Hinv He Hok. apply (inv_intro σ); [done|apply emits_evolves|..].
  - intros p c Hc. by left.
  - eauto using svc_ok_emits.
  - simpl. auto.
  - simpl. intros Hs [<-|?]%elem_of_cons; [by destruct He|]. by eapply inv_flag.
  - simpl. congruence.
  - simpl. rewrite count_cons. case_bool_decide as E; [subst; by destruct He|].
    apply Hinv.
  - simpl. intros s p v t [<-|?]%elem_of_cons; [done|]. by eapply inv_procs.
  - simpl. intros s p t [<-|?]%elem_of_cons; [done|]. by left.
Qed.

(** ** The calls: [never], [stopService], [die] *)

Ltac munfold H :=
  cbv [bind ret get put modify emit alloc lift fail update set_cell never] in H;
  simpl in H.

Ltac mcase_at m H :=
  lazymatch m with
  | match ?m' with Some _ => _ | None => _ end => mcase_at m' H
  | _ => let E := fresh "E" in destruct m as [[? ?]|] eqn:E; [simpl in H|discriminate H]
  end.

Ltac mcase H :=
  lazymatch type of H with
  | match ?m with Some _ => _ | None => _ end = Some _ => mcase_at m H
  end.

Lemma alloc_spec k st σ p σ' :
  alloc k st σ = Some (p, σ') → p = length (heap σ) ∧ σ' = allocs [Cell k st] σ.
Proof. by intros [= <- <-]. Qed.

Lemma never_spec σ n σ' :
  never σ = Some (n, σ') → n = length (heap σ) ∧ σ' = allocs [Cell KNever Pending] σ.
Proof. by intros [= <- <-]. Qed.

Lemma cell_ok_never σ : cell_ok σ (Cell KNever Pending).
Proof. by split_and!. Qed.

Lemma never_inv σ n σ' :
  never σ = Some (n, σ') → inv σ → inv σ' ∧ extends σ σ' ∧ is_never σ' n.
Proof.
  intros [-> ->]%never_spec Hinv. split_and!.
  - apply inv_allocs; [done|]. constructor; [apply cell_ok_never|constructor].
  - apply allocs_extends.
  - unfold is_never. simpl. by apply list_lookup_middle.
Qed.

(** A loop of calls that only make promises. *)
Lemma mapM_allocs {A} (G : bool → Prop) (f : A → M pid) (κ : A → kind) l :
  (∀ a σ q σ', a ∈ l → f a σ = Some (q, σ') →
     ∃ new, σ' = allocs new σ ∧ has_kind σ' q (κ a) ∧
            (G (stopping σ) → Forall (cell_ok σ') new)) →
  ∀ σ cs σ', mapM f l σ = Some (cs, σ') →
     ∃ new, σ' = allocs new σ ∧ Forall2 (λ a q, has_kind σ' q (κ a)) l cs ∧
            (G (stopping σ) → Forall (cell_ok σ') new).
Proof.
  induction l as [|a l IH]; intros Hf σ cs σ' H.
  - injection H as <- <-. exists []. split_and!; [|constructor|constructor].
    unfold allocs, set_heap. destruct σ; simpl. by rewrite app_nil_r.
  - apply mapM_cons in H as (q & σ1 & cs' & Hq & Hl & ->).
    apply Hf in Hq as (n1 & -> & Hk & Hok); [|by left].
    apply IH in Hl as (n2 & -> & Hks & Hoks); [|intros; apply Hf; [by right|done]].
    exists (n1 ++ n2). rewrite allocs_app in *. split_and!; [done| |].
    + constructor; [|done]. rewrite <- allocs_app.
      eapply evolves_has_kind; [apply allocs_evolves|done].
    + intros HG. apply Forall_app. split; [|by apply Hoks].
      eapply Forall_impl; [by apply Hok|]. intros c. rewrite <- allocs_app.
      apply evolves_cell_ok, allocs_evolves.
Qed.

Lemma stopService_spec fuel s σ q σ' :
  stopService fuel s σ = Some (q, σ') →
  ∃ new, σ' = allocs new σ ∧ has_kind σ' q (KdStopService s) ∧
         (stopping σ = true → Forall (cell_ok σ') new).
Proof.
  revert s σ q σ'. induction fuel as [|fuel IH]; intros s σ q σ' H; [done|].
  simpl in H. apply bind_Some in H as (cs & σ1 & Hcs & H).
  eapply (mapM_allocs (λ b, b = true) _ (λ t, KdStopService t.1)) in Hcs
    as (new & -> & Hks & Hoks); [|intros; by eapply IH].
  apply alloc_spec in H as [-> ->]. exists (new ++ [Cell (KStopService1 s cs) Pending]).
  split_and!; [by rewrite allocs_app|apply (has_kind_alloc1 _ (KStopService1 s cs))|].
  intros Hs. apply Forall_app. split.
  - eapply Forall_impl; [by apply Hoks|]. intros c.
    apply evolves_cell_ok, allocs_evolves.
  - repeat constructor; simpl; [done| |done..].
    eapply Forall2_impl; [exact Hks|]. intros t p.
    apply evolves_has_kind, allocs_evolves.
Qed.

Lemma count_0 f l : (∀ e, e ∈ l → f e = false) → count f l = 0.
Proof.
  induction l as [|e l IH]; intros H; [done|]. rewrite count_cons, H by by left.
  apply IH. intros. apply H. by right.
Qed.

Lemma set_stopping_evolves σ : evolves σ (set_stopping true σ).
Proof.
  split; simpl; eauto using cell_le_refl. by exists [].
Qed.

Lemma count_app f l1 l2 : count f (l1 ++ l2) = count f l1 + count f l2.
Proof. unfold count. by rewrite filter_app, length_app. Qed.

Lemma svc_ok_other σ σ' t new :
  svc_ok σ t → evolves σ σ' → trace σ' = new ++ trace σ →
  startResult (svc σ' t) = startResult (svc σ t) →
  stopResult (svc σ' t) = stopResult (svc σ t) →
  Forall (λ e, about e ≠ Some t) new →
  svc_ok σ' t.
Proof.
  intros [] Hev Ht Hs1 Hs2 Hnew. rewrite Forall_forall in Hnew.
  split; rewrite ?Ht, ?Hs1, ?Hs2.
  - intros r Hr. destruct (so_stop0 r Hr). eauto using ev_stopping, evolves_has_kind.
  - eauto using evolves_has_kind.
  - intros [H|?]%elem_of_app; [|auto]. by apply Hnew in H.
  - intros [H|?]%elem_of_app; [|auto]. by apply Hnew in H.
  - intros r [H|?]%elem_of_app; [|auto]. by apply Hnew in H.
  - intros r [H|?]%elem_of_app; [|auto]. by apply Hnew in H.
  - rewrite count_app, count_0; [done|]. intros e He. apply Hnew in He.
    destruct e as [|? ? [|?] ?| | | | | |]; simpl in *; try done. case_bool_decide; congruence.
  - rewrite count_app, count_0; [done|]. intros e He. apply Hnew in He.
    destruct e; simpl in *; try done. case_bool_decide; congruence.
Qed.

Ltac in_cases H :=
  repeat (apply elem_of_cons in H as [H|H]; [try discriminate H|]).

Lemma inv_begin_shutdown σ m :
  inv σ → stopping σ = false →
  inv (emits shutdown_begun (emits (Log LoggerError m) (set_stopping true σ))).
Proof.
  intros Hinv Hs. pose proof (inv_flag _ Hinv Hs) as Hn.
  assert (evolves σ (emits shutdown_begun (emits (Log LoggerError m) (set_stopping true σ)))).
  { eapply evolves_trans; [|apply emits_evolves].
    eapply evolves_trans; [|apply emits_evolves]. apply set_stopping_evolves. }
  apply (inv_intro σ); [done|done|..]; simpl.
  - by left.
  - intros s ?. eapply (svc_ok_other _ _ _ [_; _]); [done|done|done|done|done|].
    by repeat constructor.
  - done.
  - done.
  - intros _ _. apply list_elem_of_here.
  - rewrite !count_cons, count_0; [by case_bool_decide|].
    intros e He. case_bool_decide; [by subst|done].
  - intros s p v t Hin. in_cases Hin. by eapply inv_procs.
  - intros s p t Hin. in_cases Hin. by left.
Qed.

(** What [die] does: nothing but a [never] once the shutdown has begun,
    and otherwise the flag, the two log lines, and one [stopService] per
    service. *)
Lemma die_spec m σ n σ' :
  die m σ = Some (n, σ') →
  if stopping σ then
    n = length (heap σ) ∧ σ' = allocs [Cell KNever Pending] σ
  else
    ∃ new cs,
      σ' = allocs (new ++ [Cell (KStoppedAll cs) Pending;
                           Cell (KExit (length (heap σ) + length new)) Pending;
                           Cell KNever Pending])
             (emits shutdown_begun (emits (Log LoggerError m) (set_stopping true σ))) ∧
      n = length (heap σ) + length new + 2 ∧
      Forall2 (λ (t : string * ServiceConfig) q, has_kind σ' q (KdStopService t.1))
        services cs ∧
      Forall (cell_ok σ') new.
Proof.
  unfold die. intros H. munfold H. destruct (stopping σ) eqn:Hs.
  - by injection H as <- <-.
  - mcase H. injection H as <- <-.
    eapply (mapM_allocs (λ b, b = true) _ (λ t, KdStopService t.1)) in E
      as (new & -> & Hks & Hoks); [|intros; by eapply stopService_spec].
    exists new, l. simpl. rewrite !length_app. simpl.
    split_and!.
    + unfold allocs, set_heap, emits, set_trace, set_stopping. simpl.
      f_equal. by rewrite <- !(assoc_L (++)).
    + lia.
    + eapply Forall2_impl; [exact Hks|]. intros t p [c [Hc ?]]. exists c. split; [|done].
      simpl in *. rewrite <- !(assoc_L (++)). rewrite (assoc_L (++)).
      by apply lookup_app_l_Some.
    + eapply Forall_impl; [by apply Hoks|]. intros c.
      apply evolves_cell_ok. split; simpl; eauto.
      * intros p d Hd. exists d. split; [|apply cell_le_refl].
        rewrite <- !(assoc_L (++)). rewrite (assoc_L (++)). by apply lookup_app_l_Some.
      * by exists [].
Qed.

(** Whoever calls [die] finds the shutdown begun afterwards. *)
Lemma die_escalates m σ n σ' : die m σ = Some (n, σ') → escalated σ'.
Proof.
  intros H%die_spec. unfold escalated. revert H.
  destruct (stopping σ) eqn:E; [by intros [_ ->]|].
  by intros (new & cs & -> & _).
Qed.

(** ** The calls return: when the graph is acyclic, the stack suffices *)

Lemma bind_is_Some {A B} (m : M A) (f : A → M B) σ :
  is_Some (m σ) → (∀ a σ1, is_Some (f a σ1)) → is_Some (bind m f σ).
Proof. intros [[a σ1] Hm] Hf. unfold bind. rewrite Hm. apply Hf. Qed.

Lemma mapM_is_Some {A B} (f : A → M B) l σ :
  (∀ a σ1, a ∈ l → is_Some (f a σ1)) → is_Some (mapM f l σ).
Proof.
  revert σ. induction l as [|a l IH]; intros σ Hf; [by eexists|].
  simpl. apply bind_is_Some; [apply Hf, list_elem_of_here|].
  intros b σ1. apply bind_is_Some; [|by eexists].
  apply IH. intros. by apply Hf, list_elem_of_further.
Qed.

Lemma acyclic_spec rank :
  acyclic rank = true →
  ∀ t c, (t, c) ∈ services →
         rank t < depth ∧ ∀ d, d ∈ dependencies c → rank d < rank t.
Proof.
  unfold acyclic. rewrite forallb_forall. intros H t c Ht.
  apply list_elem_of_In, H, andb_prop in Ht as [H1 H2]. simpl in *.
  split; [by apply Nat.ltb_lt|].
  intros d Hd. rewrite forallb_forall in H2. by apply Nat.ltb_lt, H2, list_elem_of_In.
Qed.

Lemma assoc_Some l s c : assoc l s = Some c → (s, c) ∈ l.
Proof.
  induction l as [|[t c'] l IH]; simpl; [done|].
  destruct (decide (t = s)) as [->|]; [intros [= ->]; apply list_elem_of_here|].
  intros. by apply list_elem_of_further, IH.
Qed.

(** [startService] returns its promise. *)
Lemma startService_total rank fuel s σ :
  acyclic rank = true → rank s < fuel → is_Some (startService fuel s σ).
Proof.
  intros Hr. revert s σ. induction fuel as [|fuel IH]; intros s σ Hs; [lia|].
  simpl. destruct (config s) as [c|] eqn:Hc; [|by eexists].
  apply bind_is_Some; [|by eexists].
  apply mapM_is_Some. intros d σ1 Hd. apply IH.
  apply assoc_Some in Hc. destruct (acyclic_spec _ Hr _ _ Hc) as [_ H].
  specialize (H _ Hd). lia.
Qed.

(** So does [stopService]. *)
Lemma stopService_total rank fuel s σ :
  acyclic rank = true → rank s < depth → depth - rank s ≤ fuel →
  is_Some (stopService fuel s σ).
Proof.
  intros Hr. revert s σ. induction fuel as [|fuel IH]; intros s σ Hs Hf; [lia|].
  simpl. apply bind_is_Some; [|by eexists].
  apply mapM_is_Some. intros [t c] σ1 [Hd Ht]%list_elem_of_filter. simpl in *.
  destruct (acyclic_spec _ Hr _ _ Ht) as [H1 H2]. specialize (H2 _ Hd).
  apply IH; lia.
Qed.

(** The constructor returns. *)
Lemma boot_total rank valid : acyclic rank = true → is_Some (boot valid).
Proof.
  intros Hr. unfold boot, CompositeService. rewrite fmap_is_Some.
  destruct valid; [|by eexists].
  do 2 (apply bind_is_Some; [by eexists|]; intros _ ?).
  apply bind_is_Some; [|intros; by eexists].
  apply mapM_is_Some. intros [t c] ? Ht. simpl.
  apply (startService_total rank); [done|]. by destruct (acyclic_spec _ Hr _ _ Ht).
Qed.

(** And [die] returns. *)
Lemma die_total rank m σ : acyclic rank = true → is_Some (die m σ).
Proof.
  intros Hr. unfold die. apply bind_is_Some; [by eexists|]. intros σ1 ?.
  apply bind_is_Some; [|intros; by eexists].
  destruct (stopping σ1); [by eexists|].
  do 3 (apply bind_is_Some; [by eexists|]; intros _ ?).
  apply bind_is_Some; [|intros; by eexists].
  apply mapM_is_Some. intros [t c] ? Ht. simpl.
  destruct (acyclic_spec _ Hr _ _ Ht) as [H1 _].
  apply (stopService_total rank); [done|done|lia].
Qed.


Lemma die_inv m σ n σ' :
  die m σ = Some (n, σ') → inv σ → inv σ' ∧ extends σ σ' ∧ is_never σ' n.
Proof.
  intros H Hinv. apply die_spec in H. destruct (stopping σ) eqn:Hs.
  - destruct H as [-> ->]. by apply (never_inv σ).
  - destruct H as (new & cs & -> & -> & Hcs & Hnew).
    set (σm := emits shutdown_begun (emits (Log LoggerError m) (set_stopping true σ))) in *.
    assert (inv σm) as Hm by by apply inv_begin_shutdown.
    split_and!.
    + apply inv_allocs; [done|]. apply Forall_app. split; [done|].
      repeat constructor; simpl; done.
    + eapply extends_trans; [|apply allocs_extends].
      eapply extends_trans; [|apply emits_extends].
      eapply extends_trans; [|apply emits_extends].
      split; simpl; auto using set_stopping_evolves. exists []. by rewrite app_nil_r.
    + unfold is_never. simpl.
      change [Cell (KStoppedAll cs) Pending;
              Cell (KExit (length (heap σ) + length new)) Pending; Cell KNever Pending]
        with ([Cell (KStoppedAll cs) Pending;
               Cell (KExit (length (heap σ) + length new)) Pending] ++ [Cell KNever Pending]).
      rewrite !(assoc_L (++)). apply list_lookup_middle.
      rewrite !length_app. simpl. lia.
Qed.

(** ** The calls: [start] *)

(** [start], case by case. *)
Lemma start_spec s σ r σ' :
  start s σ = Some (r, σ') →
  match stopResult (svc σ s), startResult (svc σ s) with
  | Some _, _ =>
      r = startResult (svc σ s) ∧
      σ' = emits (Return (OpStart s) r)
             (emits (Log ConsoleError CannotStartAfterStopping) (emits (Begin (OpStart s)) σ))
  | None, Some q =>
      r = Some q ∧ σ' = emits (Return (OpStart s) r) (emits (Begin (OpStart s)) σ)
  | None, None =>
      let h := length (heap σ) in
      let proc := length (procs σ) in
      r = Some (h + 5) ∧
      heap σ' = heap σ ++ [Cell KExternal Pending; Cell (KReadyCatch s h) Pending;
                           Cell KExternal Pending; Cell (KStartProcess s (h + 2)) Pending;
                           Cell (KThenReady s (h + 3)) Pending;
                           Cell (KThenStarted s (h + 4)) Pending] ∧
      procs σ' = procs σ ++ [{| owner := s; started := h + 2; isEnded := false;
                                ending := None; logTail := [] |}] ∧
      trace σ' = [Return (OpStart s) r; Spawn s proc ViaStart (now σ);
                  Log ConsoleLog (StartingService s); Begin (OpStart s)] ++ trace σ ∧
      svc σ' s = {| ready := Some (h + 1); process := Some proc;
                    startResult := Some (h + 5); stopResult := None;
                    crashes := crashes (svc σ s) |} ∧
      (∀ t, t ≠ s → svc σ' t = svc σ t) ∧
      stopping σ' = stopping σ ∧ now σ' = now σ ∧ exited σ' = exited σ
  end.
Proof.
  unfold start, defineReady, startProcess. intros H. munfold H.
  destruct (stopResult (svc σ s)) eqn:Hstop.
  { injection H as <- <-. done. }
  destruct (startResult (svc σ s)) eqn:Hstart.
  { injection H as <- <-. done. }
  munfold H. injection H as <- <-. simpl.
  rewrite !length_app. simpl.
  replace (length (heap σ) + 1 + 1) with (length (heap σ) + 2) by lia.
  replace (length (heap σ) + 2 + 1) with (length (heap σ) + 3) by lia.
  replace (length (heap σ) + 3 + 1) with (length (heap σ) + 4) by lia.
  replace (length (heap σ) + 4 + 1) with (length (heap σ) + 5) by lia.
  split_and!; try done.
  - by rewrite <- !(assoc_L (++)).
  - rewrite !fn_lookup_insert. unfold set_startResult, set_process, set_ready. simpl.
    by rewrite Hstop.
  - intros t Ht. by rewrite !fn_lookup_insert_ne.
Qed.

Lemma start_inv s σ r σ' :
  start s σ = Some (r, σ') → inv σ → stopping σ = false → deps_done σ s →
  inv σ' ∧ extends σ σ' ∧ ∃ q, r = Some q ∧ has_kind σ' q (KdStart s).
Proof.
  intros H Hinv Hs Hdeps. apply start_spec in H.
  pose proof (inv_svc _ Hinv s) as Hsvc.
  destruct (stopResult (svc σ s)) as [x|] eqn:Hstop.
  { destruct (so_stop _ _ Hsvc x Hstop). congruence. }
  assert (shutdown_begun ∉ trace σ) as Hsb by by apply inv_flag.
  destruct (startResult (svc σ s)) as [q|] eqn:Hstart.
  - (* memoized *)
    destruct H as [-> ->].
    assert (evolves σ (emits (Return (OpStart s) (Some q)) (emits (Begin (OpStart s)) σ))) as Hev.
    { eapply evolves_trans; apply emits_evolves. }
    split_and!.
    + apply (inv_intro σ); [done|done|..]; simpl.
      * by left.
      * intros t Ht. destruct (decide (t = s)) as [->|].
        -- destruct Ht. split; simpl; rewrite ?Hstart, ?Hstop in *; auto.
           ++ intros Hin. in_cases Hin. auto.
           ++ intros r Hin. in_cases Hin; [by simplify_eq|auto].
           ++ intros r Hin. in_cases Hin. auto.
        -- eapply (svc_ok_other _ _ _ [_; _]); [done|done|done|done|done|].
           repeat constructor; simpl; congruence.
      * intros ?. split_and!; done.
      * intros _ Hin. in_cases Hin. done.
      * congruence.
      * rewrite !count_cons. simpl. apply Hinv.
      * intros ???? Hin. in_cases Hin. by eapply inv_procs.
      * intros ??? Hin. in_cases Hin. by left.
    + eapply extends_trans; apply emits_extends.
    + exists q. split; [done|]. by apply (so_start _ _ Hsvc).
  - (* the first call *)
    destruct H as (-> & Hheap & Hprocs & Htrace & Hsvcs & Hother & Hst & Hnow & Hex).
    assert (evolves σ σ') as Hev.
    { split; rewrite ?Hheap, ?Hprocs, ?Hst, ?Hnow; auto.
      - intros p c Hc. exists c. split; [by apply lookup_app_l_Some|apply cell_le_refl].
      - eauto.
      - intros t r. destruct (decide (t = s)) as [->|]; [congruence|by rewrite Hother].
      - intros t r. destruct (decide (t = s)) as [->|]; [congruence|by rewrite Hother].
      - rewrite length_app. lia.
      - intros t [x Hx]. destruct (decide (t = s)) as [->|]; [congruence|by rewrite Hother].
      - apply ended_app. }
    assert (has_kind σ' (length (heap σ) + 5) (KdStart s)) as Hk.
    { exists (Cell (KThenStarted s (length (heap σ) + 4)) Pending). split; [|done].
      rewrite Hheap. rewrite lookup_app_r by lia.
      by replace (length (heap σ) + 5 - length (heap σ)) with 5 by lia. }
    split_and!.
    + apply (inv_intro σ); [done|done|..].
      * rewrite Hheap. intros p c Hc. apply lookup_app_Some in Hc as [?|[_ Hc]]; [by left|right].
        apply list_elem_of_lookup_2 in Hc. in_cases Hc; [..|by apply elem_of_nil in Hc];
          subst c; by split_and!.
      * intros t Ht. destruct (decide (t = s)) as [->|].
        -- destruct Ht. split; rewrite ?Htrace, ?Hsvcs; simpl; rewrite ?Hstart, ?Hstop in *.
           ++ done.
           ++ by intros ? [= <-].
           ++ intros Hin. in_cases Hin. auto.
           ++ by eexists.
           ++ intros r Hin. in_cases Hin; [by simplify_eq|]. by destruct (so_start_ret0 r Hin) as [-> []].
           ++ intros r Hin. in_cases Hin. auto.
           ++ rewrite !count_cons. simpl. rewrite so_spawns0. by case_bool_decide.
           ++ rewrite !count_cons. simpl. lia.
        -- eapply (svc_ok_other _ _ _ [_; _; _; _]); [done|done|done|by rewrite Hother..|].
           repeat constructor; simpl; congruence.
      * rewrite Htrace. intros ?. simpl. split_and!; try done.
        -- intros Hin. in_cases Hin. done.
        -- intros s' v t' Hin. in_cases Hin. apply inv_procs in Hin; [lia|done].
    * rewrite Htrace. intros _ Hin. simpl in Hin. in_cases Hin. done.
    * congruence.
    * rewrite Htrace. simpl. rewrite !count_cons. simpl. apply Hinv.
    * rewrite Htrace, Hprocs, length_app. simpl. intros ???? Hin. in_cases Hin.
      -- simplify_eq. lia.
      -- apply inv_procs in Hin; [lia|done].
    * rewrite Htrace. intros ??? Hin. simpl in Hin. in_cases Hin. by left.
    + split; [done|rewrite Hheap; eauto|done..].
    + eauto.
Qed.

(** ** The calls: [stop] *)

Lemma has_kind_heap σ h p c :
  heap σ = h → h !! p = Some c → has_kind σ p (kind_of (cell_cont c)).
Proof. intros <- ?. by exists c. Qed.

Ltac forall_list := repeat (apply Forall_cons_2; [eauto 8|]); apply Forall_nil_2.

(** [stop], case by case. *)
Lemma stop_spec s σ r σ' :
  stop s σ = Some (r, σ') →
  let h := length (heap σ) in
  svc σ' s = (if stopResult (svc σ s) is Some _ then svc σ s
              else set_stopResult (Some r) (svc σ s)) ∧
  (∀ t, t ≠ s → svc σ' t = svc σ t) ∧
  stopping σ' = stopping σ ∧ now σ' = now σ ∧ exited σ' = exited σ ∧
  length (procs σ') = length (procs σ) ∧
  (∀ i, isEnded <$> procs σ !! i = Some true → isEnded <$> procs σ' !! i = Some true) ∧
  match stopResult (svc σ s) with
  | Some r0 =>
      r = r0 ∧ heap σ' = heap σ ∧
      trace σ' = [Return (OpStop s) (Some r); Begin (OpStop s)] ++ trace σ
  | None =>
      match live_process σ s with
      | None =>
          r = h ∧ heap σ' = heap σ ++ [Cell (KStopResolved s) Fulfilled] ∧
          trace σ' = [Return (OpStop s) (Some r); End (OpStop s); Begin (OpStop s)] ++ trace σ
      | Some proc =>
          ∃ pr, procs σ !! proc = Some pr ∧
          match ending pr with
          | Some e =>
              r = h ∧ heap σ' = heap σ ++ [Cell (KThenStopped s e) Pending] ∧
              trace σ' = [Return (OpStop s) (Some r); Log ConsoleLog (StoppingService s);
                          Begin (OpStop s)] ++ trace σ
          | None =>
              r = h + 1 ∧
              heap σ' = heap σ ++ [Cell (KProcEnd proc) Pending;
                                   Cell (KThenStopped s h) Pending] ∧
              trace σ' = [Return (OpStop s) (Some r); EndRequested s proc;
                          Log ConsoleLog (StoppingService s); Begin (OpStop s)] ++ trace σ
          end
      end
  end.
Proof.
  unfold stop, proc_end. intros H. munfold H.
  destruct (stopResult (svc σ s)) eqn:Hstop.
  { injection H as <- <-. done. }
  change (live_process (set_trace (cons (Begin (OpStop s))) σ) s)
    with (live_process σ s) in H.
  destruct (live_process σ s) as [proc|] eqn:Hlive; munfold H.
  - destruct (procs σ !! proc) as [pr|] eqn:Hpr; simpl in H; [|done].
    destruct (ending pr) eqn:Hend; munfold H; injection H as <- <-; simpl.
    + rewrite fn_lookup_insert. split_and!; try done.
      * intros t Ht. by rewrite fn_lookup_insert_ne.
      * exists pr. by rewrite Hend.
    + rewrite fn_lookup_insert, length_insert. split_and!; try done.
      * intros t Ht. by rewrite fn_lookup_insert_ne.
      * intros i. by apply (ended_insert _ _ _ pr).
      * exists pr. rewrite Hend, length_app. simpl. split_and!; try done.
        by rewrite <- (assoc_L (++)).
  - injection H as <- <-; simpl. rewrite fn_lookup_insert. split_and!; try done.
    intros t Ht. by rewrite fn_lookup_insert_ne.
Qed.

Lemma stop_inv s σ r σ' :
  stop s σ = Some (r, σ') → inv σ → stopping σ = true → dependents_done σ s →
  inv σ' ∧ extends σ σ' ∧ has_kind σ' r (KdStop s).
Proof.
  intros H Hinv Hs Hdeps. apply stop_spec in H.
  destruct H as (Hsvcs & Hother & Hst & Hnow & Hex & Hprocs & Hended & H).
  pose proof (inv_svc _ Hinv s) as Hsvc.
  assert (∃ new, heap σ' = heap σ ++ new) as Hext.
  { destruct (stopResult (svc σ s)); [exists []; rewrite app_nil_r; apply H|].
    destruct (live_process σ s); [|naive_solver].
    destruct H as (pr & _ & H). destruct (ending pr); naive_solver. }
  assert (∃ new, trace σ' = new ++ trace σ ∧
            Forall (λ e, e = Return (OpStop s) (Some r) ∨ e = Begin (OpStop s) ∨
                         e = End (OpStop s) ∨ e = Log ConsoleLog (StoppingService s) ∨
                         ∃ proc, e = EndRequested s proc) new) as (new & Htrace & Hnew).
  { destruct (stopResult (svc σ s)); [eexists; split; [apply H|]; forall_list|].
    destruct (live_process σ s); [|eexists; split; [apply H|]; forall_list].
    destruct H as (pr & _ & H).
    destruct (ending pr); eexists; (split; [apply H|]); forall_list. }
  assert (evolves σ σ') as Hev.
  { split; rewrite ?Hst, ?Hnow, ?Hprocs; eauto.
    - destruct Hext as [ext ->]. intros p c Hc. exists c.
      split; [by apply lookup_app_l_Some|apply cell_le_refl].
    - intros t q. destruct (decide (t = s)) as [->|]; [|by rewrite Hother].
      rewrite Hsvcs. by destruct (stopResult (svc σ s)).
    - intros t q. destruct (decide (t = s)) as [->|]; [|by rewrite Hother].
      rewrite Hsvcs. destruct (stopResult (svc σ s)) eqn:E; simpl; congruence.
    - intros t _. destruct (decide (t = s)) as [->|]; [|by rewrite Hother].
      rewrite Hsvcs. by destruct (stopResult (svc σ s)). }
  assert (has_kind σ' r (KdStop s)) as Hk.
  { destruct (stopResult (svc σ s)) as [r0|] eqn:Hstop.
    - destruct H as (-> & _). eapply evolves_has_kind; [done|]. by apply (so_stop _ _ Hsvc).
    - destruct (live_process σ s).
      + destruct H as (pr & _ & H). destruct (ending pr); destruct H as (-> & Hh & _).
        * eapply (has_kind_heap _ _ _ (Cell (KThenStopped _ _) _)); [done|].
          by apply list_lookup_middle.
        * eapply (has_kind_heap _ _ _ (Cell (KThenStopped _ _) _)); [done|].
          rewrite lookup_app_r by lia.
          by replace (length (heap σ) + 1 - length (heap σ)) with 1 by lia.
      + destruct H as (-> & Hh & _).
        eapply (has_kind_heap _ _ _ (Cell (KStopResolved _) _)); [done|].
        by apply list_lookup_middle. }
  assert (Begin (OpStop s) ∈ trace σ') as Hbegun.
  { destruct (stopResult (svc σ s)); [rewrite (proj2 (proj2 H)); in_list|].
    destruct (live_process σ s); [|rewrite (proj2 (proj2 H)); in_list].
    destruct H as (pr & _ & H). destruct (ending pr); rewrite (proj2 (proj2 H)); in_list. }
  split_and!; [|split; done|done].
  apply (inv_intro σ); [done|done|..].
  - destruct (stopResult (svc σ s)); [destruct H as (_ & -> & _); by left|].
    destruct (live_process σ s).
    + destruct H as (pr & _ & H). destruct (ending pr); destruct H as (_ & -> & _);
        intros p c Hc; (apply lookup_app_Some in Hc as [?|[_ Hc]]; [by left|right]);
        apply list_elem_of_lookup_2 in Hc; in_cases Hc; try (by apply elem_of_nil in Hc);
        subst c; by split_and!.
    + destruct H as (_ & -> & Ht). intros p c Hc.
      apply lookup_app_Some in Hc as [?|[_ Hc]]; [by left|right].
      apply list_elem_of_lookup_2 in Hc; in_cases Hc; try (by apply elem_of_nil in Hc).
      subst c. split_and!; try done. intros _. simpl. rewrite Ht. in_list.
  - intros t Ht. destruct (decide (t = s)) as [->|].
    + clear Hsvc. destruct Ht.
      assert (stopResult (svc σ' s) = Some r) as Hr.
      { rewrite Hsvcs. destruct (stopResult (svc σ s)) eqn:Hstop; [|done].
        destruct H as (-> & _). done. }
      assert (startResult (svc σ' s) = startResult (svc σ s)) as Hr'.
      { rewrite Hsvcs. by destruct (stopResult (svc σ s)). }
      rewrite Forall_forall in Hnew.
      split; rewrite ?Hr, ?Hr', ?Htrace.
      * intros ? [= <-]. by rewrite Hst.
      * eauto using evolves_has_kind.
      * by eexists.
      * intros [Hin|?]%elem_of_app; [|auto]. apply Hnew in Hin. naive_solver.
      * intros q [Hin|?]%elem_of_app; [|auto]. apply Hnew in Hin. naive_solver.
      * intros q [Hin|Hin]%elem_of_app.
        -- apply Hnew in Hin. naive_solver.
        -- apply so_stop_ret0 in Hin as [-> Hsome]. split; [|done].
           destruct (stopResult (svc σ s)) eqn:Hstop; [by destruct H as (-> & _)|].
           by destruct Hsome.
      * rewrite count_app, count_0; [done|]. intros e He. apply Hnew in He.
        destruct He as [->|[->|[->|[->|[? ->]]]]]; done.
      * destruct (stopResult (svc σ s)) eqn:Hstop.
        { destruct H as (_ & _ & Ht).
          rewrite Htrace in Ht; apply app_inv_tail in Ht; subst new.
          rewrite count_app, !count_cons. simpl. lia. }
        destruct (live_process σ s).
        -- destruct H as (pr & _ & H). destruct (ending pr); destruct H as (_ & _ & Ht);
             rewrite Htrace in Ht; apply app_inv_tail in Ht; subst new;
             rewrite count_app, !count_cons; simpl; try case_bool_decide; simpl; lia.
        -- destruct H as (_ & _ & Ht).
           rewrite Htrace in Ht; apply app_inv_tail in Ht; subst new.
           rewrite count_app, !count_cons; simpl; lia.
    + eapply (svc_ok_other _ _ _ new); [done|done|done|by rewrite Hother..|].
      eapply Forall_impl; [exact Hnew|]. simpl.
      intros e [->|[->|[->|[->|[? ->]]]]]; simpl; congruence.
  - rewrite Htrace. intros Hh.
    assert (∀ l, Forall (λ e, e = Return (OpStop s) (Some r) ∨ e = Begin (OpStop s) ∨
                         e = End (OpStop s) ∨ e = Log ConsoleLog (StoppingService s) ∨
                         ∃ proc, e = EndRequested s proc) l →
                 (∀ l1 l2, l = l1 ++ End (OpStop s) :: l2 → Begin (OpStop s) ∈ l2) →
                 hist_ok (l ++ trace σ)) as Hgen.
    { induction l as [|e l IH]; intros Hl Hord; [done|].
      apply Forall_cons in Hl as [He Hl]. simpl. split.
      - destruct He as [->|[->|[->|[->|[? ->]]]]]; simpl; try done.
        + intros t Ht. destruct (Hdeps t Ht). split; apply elem_of_app; by right.
        + apply elem_of_app. left. by apply (Hord []).
      - apply IH; [done|]. intros l1 l2 ->. by apply (Hord (e :: l1)). }
    apply Hgen; [done|].
    destruct (stopResult (svc σ s)) eqn:Hstop.
    { destruct H as (_ & _ & Ht). rewrite Htrace in Ht; apply app_inv_tail in Ht; subst new.
      intros [|? [|? [|]]] l2 [=]. }
    destruct (live_process σ s).
    + destruct H as (pr & _ & H). destruct (ending pr); destruct H as (_ & _ & Ht);
        rewrite Htrace in Ht; apply app_inv_tail in Ht; subst new.
      * intros [|? [|? [|? [|]]]] l2 [=].
      * intros [|? [|? [|? [|? [|]]]]] l2 [=].
    + destruct H as (_ & _ & Ht). rewrite Htrace in Ht; apply app_inv_tail in Ht; subst new.
      intros [|? [|? [|? [|]]]] l2 [=]; subst. in_list.
  - rewrite Hst. congruence.
  - congruence.
  - rewrite Htrace, count_app, count_0; [apply Hinv|].
    intros e He. rewrite Forall_forall in Hnew. apply Hnew in He.
    destruct He as [->|[->|[->|[->|[? ->]]]]]; done.
  - rewrite Htrace, Hprocs. intros ???? [Hin|?]%elem_of_app; [|by eapply inv_procs].
    rewrite Forall_forall in Hnew. apply Hnew in Hin. naive_solver.
  - rewrite Htrace. intros ??? [Hin|?]%elem_of_app; [|by left].
    rewrite Forall_forall in Hnew. apply Hnew in Hin. naive_solver.
Qed.

(** ** The calls: [startProcess] on a restart, [handleCrash], [startService] *)

(** Changes to the fields of a service other than the two memoized
    outcomes. *)
Lemma inv_update σ σ' :
  inv σ → evolves σ σ' →
  heap σ' = heap σ → trace σ' = trace σ → stopping σ' = stopping σ →
  (∀ t, startResult (svc σ' t) = startResult (svc σ t) ∧
        stopResult (svc σ' t) = stopResult (svc σ t)) →
  inv σ'.
Proof.
  intros Hinv Hev Hh Ht Hs Hsvc. apply (inv_intro σ); [done|done|..].
  - rewrite Hh. by left.
  - intros t ?. destruct (Hsvc t). eapply (svc_ok_other _ _ _ []); by eauto.
  - by rewrite Ht.
  - rewrite Ht, Hs. apply Hinv.
  - congruence.
  - rewrite Ht. apply Hinv.
  - rewrite Ht. intros s p v t Hin. pose proof (inv_procs _ Hinv _ _ _ _ Hin).
    pose proof (ev_procs _ _ Hev). lia.
  - rewrite Ht. auto.
Qed.

Lemma startProcess_spec s v σ q σ' :
  startProcess s v σ = Some (q, σ') →
  let h := length (heap σ) in
  let proc := length (procs σ) in
  q = h + 1 ∧
  heap σ' = heap σ ++ [Cell KExternal Pending; Cell (KStartProcess s h) Pending] ∧
  procs σ' = procs σ ++ [{| owner := s; started := h; isEnded := false;
                            ending := None; logTail := [] |}] ∧
  trace σ' = Spawn s proc v (now σ) :: trace σ ∧
  svc σ' = <[s := set_process (Some proc) (svc σ s)]> (svc σ) ∧
  stopping σ' = stopping σ ∧ now σ' = now σ ∧ exited σ' = exited σ.
Proof.
  unfold startProcess. intros H. munfold H. injection H as <- <-. simpl.
  rewrite length_app. simpl. split_and!; try done. by rewrite <- (assoc_L (++)).
Qed.

Lemma startProcess_restart s crashed σ q σ' :
  startProcess s (ViaRestart crashed) σ = Some (q, σ') → inv σ →
  stopResult (svc σ s) = None →
  (∃ t0 c, config s = Some c ∧ CrashNotified s crashed t0 ∈ trace σ ∧
           t0 + setTimeout_delay (minimumRestartDelay c) ≤ now σ) →
  inv σ' ∧ extends σ σ'.
Proof.
  intros H Hinv Hstop Harmed. apply startProcess_spec in H.
  destruct H as (-> & Hheap & Hprocs & Htrace & Hsvc & Hst & Hnow & Hex).
  assert (∀ t, startResult (svc σ' t) = startResult (svc σ t) ∧
               stopResult (svc σ' t) = stopResult (svc σ t)) as Hres.
  { intros t. rewrite Hsvc. destruct (decide (t = s)) as [->|].
    - by rewrite fn_lookup_insert.
    - by rewrite fn_lookup_insert_ne. }
  assert (evolves σ σ') as Hev.
  { split; rewrite ?Hheap, ?Hprocs, ?Hst, ?Hnow, ?Htrace; auto.
    - intros p c Hc. exists c. split; [by apply lookup_app_l_Some|apply cell_le_refl].
    - by exists [Spawn s (length (procs σ)) (ViaRestart crashed) (now σ)].
    - intros t r. by rewrite (proj1 (Hres t)).
    - intros t r. by rewrite (proj2 (Hres t)).
    - rewrite length_app. lia.
    - intros t _. rewrite Hsvc. destruct (decide (t = s)) as [->|].
      + by rewrite fn_lookup_insert.
      + by rewrite fn_lookup_insert_ne.
    - apply ended_app. }
  split; [|split; [done|rewrite Hheap; eauto|done..]].
  apply (inv_intro σ); [done|done|..].
  - rewrite Hheap. intros p c Hc. apply lookup_app_Some in Hc as [?|[_ Hc]]; [by left|right].
    apply list_elem_of_lookup_2 in Hc. in_cases Hc; [..|by apply elem_of_nil in Hc];
      subst c; by split_and!.
  - intros t ?. destruct (Hres t).
    eapply (svc_ok_other _ _ _ [_]); [done|done|by rewrite Htrace|done|done|].
    by repeat constructor.
  - rewrite Htrace. intros ?. simpl. split_and!; try done.
    + intros Hin. apply (so_stop_begun _ _ (inv_svc _ Hinv s)) in Hin.
      rewrite Hstop in Hin. by destruct Hin.
    + intros s' v t' Hin. apply inv_procs in Hin; [lia|done].
  - rewrite Htrace, Hst. intros Hs Hin. in_cases Hin. by eapply inv_flag.
  - congruence.
  - rewrite Htrace, count_cons. simpl. apply Hinv.
  - rewrite Htrace, Hprocs, length_app. simpl. intros ???? Hin. in_cases Hin.
    + simplify_eq. lia.
    + apply inv_procs in Hin; [lia|done].
  - rewrite Htrace. intros ??? Hin. in_cases Hin. by left.
Qed.

Lemma handleCrash_inv s proc σ q σ' :
  handleCrash s proc σ = Some (q, σ') → inv σ →
  CrashNotified s proc (now σ) ∈ trace σ →
  inv σ' ∧ extends σ σ'.
Proof.
  unfold handleCrash, isResolved. intros H Hinv Hcrash. munfold H.
  destruct (stopResult (svc σ s)) eqn:Hstop.
  { injection H as <- <-.
    pose proof (inv_emits σ (Log ConsoleError NotExpectingHandleCrash) Hinv) as H1.
    split.
    - apply (inv_allocs _ [_]); [by apply H1|]. by repeat constructor.
    - eapply extends_trans; [apply emits_extends|apply (allocs_extends _ [_])]. }
  destruct (config s) as [c|] eqn:Hc; simpl in H; [|done].
  destruct (procs σ !! proc) as [pr|] eqn:Hpr; simpl in H; [|done].
  set (σ1 := emits (Log ConsoleLog (ServiceCrashed s)) σ) in *.
  set (σ2 := allocs [Cell (KTimer (now σ + setTimeout_delay (minimumRestartDelay c))) Pending] σ1) in *.
  set (crash := {| date := now σ; crash_logTail := logTail pr |}) in *.
  set (σ3 := set_svc (λ m, <[s := push_crash crash (m s)]> m) σ2) in *.
  assert (inv σ2 ∧ extends σ σ2) as [Hinv2 Hext2].
  { split.
    - apply inv_allocs; [by apply inv_emits|]. by repeat constructor.
    - eapply extends_trans; [apply emits_extends|apply allocs_extends]. }
  assert (inv σ3 ∧ extends σ2 σ3) as [Hinv3 Hext3].
  { assert (∀ t, startResult (svc σ3 t) = startResult (svc σ2 t) ∧
               stopResult (svc σ3 t) = stopResult (svc σ2 t)) as Hres.
    { intros t. simpl. destruct (decide (t = s)) as [->|].
      - by rewrite fn_lookup_insert.
      - by rewrite fn_lookup_insert_ne. }
    assert (evolves σ2 σ3) as Hev.
    { split.
      - intros p c' Hc'. exists c'. split; [done|apply cell_le_refl].
      - by exists [].
      - done.
      - done.
      - intros t r Hr. by rewrite (proj1 (Hres t)).
      - intros t r Hr. by rewrite (proj2 (Hres t)).
      - done.
      - intros t _. simpl. destruct (decide (t = s)) as [->|].
        + by rewrite fn_lookup_insert.
        + by rewrite fn_lookup_insert_ne.
      - done. }
    split; [by apply (inv_update σ2)|].
    split; [done|exists []; by rewrite app_nil_r|done..]. }
  assert (armed σ3 s proc (length (heap σ))) as Harmed.
  { exists (now σ + setTimeout_delay (minimumRestartDelay c)), (now σ), c. split_and!; [|done| |done].
    - eapply (has_kind_heap _ _ _ (Cell (KTimer _) _)); [done|]. by apply list_lookup_middle.
    - simpl. by apply list_elem_of_further. }
  assert (∀ k st, cell_ok (allocs [Cell k st] σ3) (Cell k st) →
            inv (allocs [Cell k st] σ3) ∧ extends σ (allocs [Cell k st] σ3)) as Hfin.
  { intros k st Hok. split; [apply inv_allocs; [done|by apply Forall_singleton]|].
    eapply extends_trans; [done|]. eapply extends_trans; [done|]. apply allocs_extends. }
  destruct (ready (svc σ s)) as [r|]; injection H as <- <-.
  - apply Hfin. split_and!; try done. simpl.
    eapply evolves_armed; [apply allocs_evolves|done].
  - apply Hfin. by split_and!.
Qed.

Lemma startService_spec fuel s σ q σ' :
  startService fuel s σ = Some (q, σ') →
  ∃ new, σ' = allocs new σ ∧ has_kind σ' q (KdStartService s) ∧ Forall (cell_ok σ') new.
Proof.
  revert s σ q σ'. induction fuel as [|fuel IH]; intros s σ q σ' H; [done|].
  simpl in H. destruct (config s) as [c|] eqn:Hc.
  - apply bind_Some in H as (cs & σ1 & Hcs & H).
    eapply (mapM_allocs (λ _, True) _ KdStartService) in Hcs as (new & -> & Hks & Hoks).
    2:{ intros a σ0 q0 σ0' _ Ha. apply IH in Ha as (n & ? & ? & ?). eauto. }
    apply alloc_spec in H as [-> ->]. exists (new ++ [Cell (KStartService1 s cs) Pending]).
    split_and!; [by rewrite allocs_app|apply (has_kind_alloc1 _ (KStartService1 s cs))|].
    apply Forall_app. split.
    + eapply Forall_impl; [by apply Hoks|]. intros c'.
      apply evolves_cell_ok, allocs_evolves.
    + repeat constructor; simpl; [|done..]. exists c. split; [done|].
      eapply Forall2_impl; [exact Hks|]. intros t p.
      apply evolves_has_kind, allocs_evolves.
  - apply alloc_spec in H as [-> ->]. exists [Cell (KStartService0 s) Rejected].
    split_and!; [done|apply (has_kind_alloc1 _ (KStartService0 s))|]. by repeat constructor.
Qed.

(** ** The event loop preserves the invariant *)

Opaque die start stop startProcess handleCrash.

Lemma await_Some q σ ok σ1 :
  await q σ = Some (ok, σ1) →
  σ1 = σ ∧ status_of σ q = Some (if ok then Fulfilled else Rejected).
Proof.
  unfold await. intros H. munfold H.
  destruct (status_of σ q) as [[]|]; by simplify_eq.
Qed.

Lemma await_all_Some cs σ ok σ1 :
  await_all cs σ = Some (ok, σ1) →
  σ1 = σ ∧ if ok then Forall (λ c, status_of σ c = Some Fulfilled) cs
           else Exists (λ c, status_of σ c = Some Rejected) cs.
Proof.
  unfold await_all. intros H. munfold H. repeat case_decide; by simplify_eq.
Qed.

Lemma fulfilled_done σ q κ :
  inv σ → has_kind σ q κ → status_of σ q = Some Fulfilled → done_ok σ κ.
Proof.
  intros Hinv (c & Hc & <-) Hq. unfold status_of in Hq. rewrite Hc in Hq.
  injection Hq as Hq. by apply (inv_heap _ Hinv _ _ Hc).
Qed.

Lemma cell_ok_settle σ σ1 k ok :
  cell_ok σ (Cell k Pending) → evolves σ σ1 → k ≠ KNever →
  (ok = true → done_ok σ1 (kind_of k)) →
  cell_ok σ1 (settle k ok).
Proof.
  intros (Hk & _ & _) Hev Hn Hd. split_and!; simpl.
  - by eapply evolves_cont_ok.
  - destruct ok; [auto|done].
  - done.
Qed.

Lemma cell_ok_next σ k : cont_ok σ k → k ≠ KNever → cell_ok σ (Cell k Pending).
Proof. intros. by split_and!. Qed.

Ltac mbind H :=
  let a := fresh "a" in let σ0 := fresh "σ" in let E := fresh "E" in
  apply bind_Some in H as (a & σ0 & E & H).

Lemma resume_inv p k σ c' σ1 :
  inv σ → heap σ !! p = Some (Cell k Pending) → resume k σ = Some (c', σ1) →
  inv σ1 ∧ extends σ σ1 ∧ kind_of (cell_cont c') = kind_of k ∧ cell_ok σ1 c'.
Proof.
  intros Hinv Hp H. pose proof (inv_heap _ Hinv _ _ Hp) as Hok.
  pose proof Hok as (Hcont & _ & _). simpl in Hcont.
  destruct k; simpl in H; try done.
  - (* KFollow *)
    mbind H. apply await_Some in E as [-> Hq]. injection H as <- <-.
    split_and!; [done|apply extends_refl|done|].
    eapply cell_ok_settle; eauto using evolves_refl; done.
  - (* KStartedAll *)
    mbind H. apply await_all_Some in E as [-> Hcs]. destruct a; munfold H; injection H as <- <-.
    + split_and!; [by apply inv_emits|apply emits_extends|done|].
      eapply cell_ok_settle; eauto using emits_evolves; done.
    + split_and!; [done|apply extends_refl|done|].
      eapply cell_ok_settle; eauto using evolves_refl; done.
  - (* KStartService1 *)
    mbind H. apply await_all_Some in E as [-> Hcs]. destruct a.
    2:{ injection H as <- <-. split_and!; [done|apply extends_refl|done|].
        eapply cell_ok_settle; eauto using evolves_refl; done. }
    destruct Hcont as (c & Hc & Hks).
    assert (deps_done σ id) as Hdeps.
    { intros c0 d Hc0 Hd. assert (c0 = c) as -> by congruence.
      apply list_elem_of_lookup in Hd as [i Hi].
      destruct (Forall2_lookup_l _ _ _ _ _ Hks Hi) as (q & Hq & Hk).
      rewrite Forall_lookup in Hcs. apply (fulfilled_done σ q _ Hinv Hk). eauto. }
    munfold H. destruct (stopping σ) eqn:Hs.
    + injection H as <- <-.
      destruct (never_inv σ _ _ eq_refl Hinv) as (? & ? & ?).
      split_and!; [done|done|done|]. by apply cell_ok_next.
    + mcase H. injection H as <- <-.
      destruct (start_inv _ _ _ _ E Hinv Hs Hdeps) as (? & ? & q & -> & ?).
      split_and!; [done|done|done|]. apply cell_ok_next; [|done]. simpl. eauto.
  - (* KStartService2: parked *)
    mbind H. apply await_Some in E as [-> Hq]. unfold is_never in Hcont.
    unfold status_of in Hq. rewrite Hcont in Hq. by destruct a.
  - (* KStartService3 *)
    destruct Hcont as (q & -> & Hk).
    mbind H. apply await_Some in E as [-> Hq]. destruct a; munfold H; injection H as <- <-.
    + pose proof (fulfilled_done σ q _ Hinv Hk Hq) as Hd. simpl in Hd.
      split_and!; [by apply inv_emits|apply emits_extends|done|].
      eapply cell_ok_settle; [exact Hok|apply emits_evolves|done|].
      intros _. simpl. split; [apply list_elem_of_here|by apply list_elem_of_further].
    + split_and!; [done|apply extends_refl|done|].
      eapply cell_ok_settle; eauto using evolves_refl; done.
  - (* KStoppedAll *)
    mbind H. apply await_all_Some in E as [-> Hcs]. destruct a; munfold H; injection H as <- <-.
    + split_and!; [by apply inv_emits|apply emits_extends|done|].
      eapply cell_ok_settle; eauto using emits_evolves; done.
    + split_and!; [done|apply extends_refl|done|].
      eapply cell_ok_settle; eauto using evolves_refl; done.
  - (* KExit *)
    mbind H. apply await_Some in E as [-> Hq]. destruct a; munfold H; injection H as <- <-.
    + assert (extends σ (set_exited true (emits (Exit 1) σ))) as Hext.
      { eapply extends_trans; [apply emits_extends|].
        split; [|exists []; by rewrite app_nil_r|done].
        split; simpl; eauto using cell_le_refl. by exists []. }
      split_and!; [|done|done|].
      * apply (inv_frame (emits (Exit 1) σ)); [by apply inv_emits| |by left|done..].
        split; simpl; eauto using cell_le_refl. by exists [].
      * eapply cell_ok_settle; eauto using ex_evolves; done.
    + split_and!; [done|apply extends_refl|done|].
      eapply cell_ok_settle; eauto using evolves_refl; done.
  - (* KStopService1 *)
    mbind H. apply await_all_Some in E as [-> Hcs]. destruct a.
    2:{ injection H as <- <-. split_and!; [done|apply extends_refl|done|].
        eapply cell_ok_settle; eauto using evolves_refl; done. }
    destruct Hcont as (Hs & Hks).
    assert (dependents_done σ id) as Hdeps.
    { intros t Ht. apply list_elem_of_lookup in Ht as [i Hi].
      destruct (Forall2_lookup_l _ _ _ _ _ Hks Hi) as (q & Hq & Hk).
      rewrite Forall_lookup in Hcs. apply (fulfilled_done σ q _ Hinv Hk). eauto. }
    mbind H. injection H as <- <-.
    destruct (stop_inv _ _ _ _ E Hinv Hs Hdeps) as (? & ? & ?).
    split_and!; [done|done|done|]. by apply cell_ok_next.
  - (* KStopService2 *)
    mbind H. apply await_Some in E as [-> Hq]. destruct a; munfold H; injection H as <- <-.
    + pose proof (fulfilled_done σ r _ Hinv Hcont Hq) as Hd. simpl in Hd.
      split_and!; [by apply inv_emits|apply emits_extends|done|].
      eapply cell_ok_settle; [exact Hok|apply emits_evolves|done|].
      intros _. simpl. split; [apply list_elem_of_here|by apply list_elem_of_further].
    + split_and!; [done|apply extends_refl|done|].
      eapply cell_ok_settle; eauto using evolves_refl; done.
  - (* KReadyCatch *)
    mbind H. apply await_Some in E as [-> Hq]. destruct a.
    + injection H as <- <-. split_and!; [done|apply extends_refl|done|].
      eapply cell_ok_settle; eauto using evolves_refl; done.
    + unfold service_die in H. mbind H. injection H as <- <-.
      destruct (die_inv _ _ _ _ E Hinv) as (? & ? & ?).
      split_and!; [done|done|done|]. by apply cell_ok_next.
  - (* KStartProcess *)
    mbind H. apply await_Some in E as [-> Hq]. destruct a.
    + injection H as <- <-. split_and!; [done|apply extends_refl|done|].
      eapply cell_ok_settle; eauto using evolves_refl; done.
    + unfold service_die in H. mbind H. injection H as <- <-.
      destruct (die_inv _ _ _ _ E Hinv) as (? & ? & ?).
      split_and!; [done|done|done|]. by apply cell_ok_next.
  - (* KThenReady *)
    mbind H. apply await_Some in E as [-> Hq]. destruct a.
    + munfold H. destruct (ready (svc σ id)); injection H as <- <-.
      * split_and!; [done|apply extends_refl|done|]. by apply cell_ok_next.
      * split_and!; [done|apply extends_refl|done|].
        eapply cell_ok_settle; eauto using evolves_refl; done.
    + injection H as <- <-. split_and!; [done|apply extends_refl|done|].
      eapply cell_ok_settle; eauto using evolves_refl; done.
  - (* KThenStarted *)
    mbind H. apply await_Some in E as [-> Hq]. destruct a; munfold H; injection H as <- <-.
    + split_and!; [|eapply extends_trans; apply emits_extends|done|].
      * apply inv_emits; [by apply inv_emits|done|done].
      * eapply cell_ok_settle; [done|eapply evolves_trans; apply emits_evolves|done|].
        intros _. simpl. apply list_elem_of_here.
    + split_and!; [done|apply extends_refl|done|].
      eapply cell_ok_settle; eauto using evolves_refl; done.
  - (* KCrash1 *)
    munfold H. destruct (config id) as [cfg|] eqn:Hcfg; simpl in H; [|done].
    assert (∀ k st, k ≠ KNever → kind_of k = KdOther → st = Fulfilled ∨ st ≠ Fulfilled →
              cont_ok (allocs [Cell k st] σ) k →
              inv (allocs [Cell k st] σ) ∧ extends σ (allocs [Cell k st] σ)) as Hal.
    { intros k st ? Hk ? ?. split; [|apply allocs_extends].
      apply inv_allocs; [done|]. apply Forall_singleton. split_and!; simpl; try done.
      by rewrite Hk. }
    destruct (onCrash cfg _); munfold H; injection H as <- <-.
    + destruct (Hal KResolved Fulfilled) as [? ?]; try done; [by left|].
      split_and!; [done|done|done|]. apply cell_ok_next; [|done]. simpl.
      eapply evolves_armed; [apply allocs_evolves|done].
    + destruct (Hal KResolved Rejected) as [? ?]; try done; [by right|].
      split_and!; [done|done|done|]. apply cell_ok_next; [|done]. simpl.
      eapply evolves_armed; [apply allocs_evolves|done].
    + destruct (Hal KExternal Pending) as [? ?]; try done; [by right|].
      split_and!; [done|done|done|]. apply cell_ok_next; [|done]. simpl.
      eapply evolves_armed; [apply allocs_evolves|done].
  - (* KCrash2 *)
    mbind H. apply await_Some in E as [-> Hq]. destruct a.
    + munfold H. destruct (stopResult (svc σ id)); injection H as <- <-.
      * split_and!; [done|apply extends_refl|done|].
        eapply cell_ok_settle; eauto using evolves_refl; done.
      * split_and!; [done|apply extends_refl|done|]. by apply cell_ok_next.
    + destruct caught.
      * injection H as <- <-. split_and!; [done|apply extends_refl|done|].
        eapply cell_ok_settle; eauto using evolves_refl; done.
      * unfold service_die in H. mbind H. injection H as <- <-.
        destruct (die_inv _ _ _ _ E Hinv) as (? & Hext & ?).
        split_and!; [done|done|done|]. apply cell_ok_next; [|done]. simpl.
        eapply evolves_armed; [apply Hext|done].
  - (* KCrash3 *)
    mbind H. apply await_Some in E as [-> Hq]. destruct a.
    2:{ injection H as <- <-. split_and!; [done|apply extends_refl|done|].
        eapply cell_ok_settle; eauto using evolves_refl; done. }
    munfold H. destruct (stopResult (svc σ id)) eqn:Hstop.
    { injection H as <- <-. split_and!; [done|apply extends_refl|done|].
      eapply cell_ok_settle; eauto using evolves_refl; done. }
    mcase H. injection H as <- <-.
    destruct Hcont as (d & t0 & cfg & Hk & Hcfg & Hcr & Hle).
    pose proof (fulfilled_done σ _ _ Hinv Hk Hq) as Hd. simpl in Hd.
    eapply (startProcess_restart _ _ (emits (Log ConsoleLog (RestartingService id)) σ)) in E
      as [? ?]; [|by apply inv_emits|done|].
    + split_and!; [done|eapply extends_trans; [apply emits_extends|done]|done|].
      by apply cell_ok_next.
    + exists t0, cfg. split_and!; [done|by apply list_elem_of_further|simpl; lia].
  - (* KCrash4 *)
    mbind H. apply await_Some in E as [-> Hq]. injection H as <- <-.
    split_and!; [done|apply extends_refl|done|].
    eapply cell_ok_settle; eauto using evolves_refl; done.
  - (* KThenStopped *)
    mbind H. apply await_Some in E as [-> Hq]. destruct a; munfold H; injection H as <- <-.
    + split_and!; [|eapply extends_trans; apply emits_extends|done|].
      * apply inv_emits; [by apply inv_emits|done|]. simpl. by apply list_elem_of_further.
      * eapply cell_ok_settle; [done|eapply evolves_trans; apply emits_evolves|done|].
        intros _. simpl. apply list_elem_of_here.
    + split_and!; [done|apply extends_refl|done|].
      eapply cell_ok_settle; eauto using evolves_refl; done.
Qed.

Lemma finish σ σ1 p k c' :
  inv σ1 → evolves σ σ1 → heap σ1 !! p = Some (Cell k Pending) → k ≠ KNever →
  kind_of (cell_cont c') = kind_of k → cell_ok σ1 c' →
  inv (put_cell p c' σ1) ∧ evolves σ (put_cell p c' σ1).
Proof.
  intros Hinv Hev Hp Hn Hk Hok.
  assert (evolves σ1 (put_cell p c' σ1)) by by eapply put_cell_evolves.
  split; [|by eapply evolves_trans].
  eapply inv_put_cell; eauto using evolves_cell_ok.
Qed.

Lemma set_proc_evolves σ proc pr pr' :
  procs σ !! proc = Some pr → (isEnded pr = true → isEnded pr' = true) →
  evolves σ (set_procs (<[proc := pr']>) σ).
Proof.
  intros Hpr Hend. split; simpl; eauto using cell_le_refl.
  - by exists [].
  - by rewrite length_insert.
  - intros i. by apply (ended_insert _ _ _ pr).
Qed.

Lemma inv_set_proc σ proc pr pr' :
  inv σ → procs σ !! proc = Some pr → (isEnded pr = true → isEnded pr' = true) →
  inv (set_procs (<[proc := pr']>) σ).
Proof.
  intros Hinv Hpr Hend. apply (inv_frame σ); eauto using set_proc_evolves.
Qed.

(** The crash of a process that had not ended is its first. *)
Lemma inv_notify σ s proc pr tail :
  inv σ → procs σ !! proc = Some pr → isEnded pr = false →
  inv (emits (CrashNotified s proc (now σ))
         (set_procs (<[proc := mark_ended (Some tail) pr]>) σ)).
Proof.
  intros Hinv Hpr Hend.
  assert (∀ s' t', CrashNotified s' proc t' ∉ trace σ) as Hfirst.
  { intros s' t' Hin. apply (inv_crashed _ Hinv) in Hin. rewrite Hpr in Hin.
    simpl in Hin. congruence. }
  set (σ1 := set_procs (<[proc := mark_ended (Some tail) pr]>) σ).
  assert (inv σ1) as Hinv1 by by eapply inv_set_proc.
  apply (inv_intro σ1); [done|apply emits_evolves|..]; simpl.
  - by left.
  - intros t ?. eapply (svc_ok_other _ _ _ [_]); [done|apply emits_evolves|done..|].
    by repeat constructor.
  - done.
  - intros Hs Hin. in_cases Hin. by eapply (inv_flag σ1).
  - congruence.
  - rewrite count_cons. simpl. apply Hinv1.
  - intros ???? Hin. in_cases Hin. by eapply (inv_procs σ1).
  - intros s' p t Hin. in_cases Hin; [|by left]. simplify_eq. right.
    rewrite list_lookup_insert_eq by by eapply lookup_lt_Some. done.
Qed.

Lemma step_inv a σ σ' :
  step a σ = Some (tt, σ') → inv σ → inv σ' ∧ evolves σ σ'.
Proof.
  unfold step. intros H Hinv. munfold H. destruct (exited σ); [done|].
  destruct a as [p|p ok|p|dt|proc tail|sig].
  - (* Run *)
    munfold H. destruct (heap σ !! p) as [[k st]|] eqn:Hp; simpl in H; [|done].
    destruct st; try done. mcase H. injection H as <-.
    destruct (resume_inv _ _ _ _ _ Hinv Hp E) as (Hinv1 & Hext & Hk & Hok).
    apply (finish _ _ _ k); eauto using ex_evolves, extends_lookup.
    intros ->. discriminate E.
  - (* Settle *)
    munfold H. destruct (heap σ !! p) as [[k st]|] eqn:Hp; simpl in H; [|done].
    destruct k; try done; destruct st; try done.
    + injection H as <-.
      apply (finish _ _ _ KExternal); [done|apply evolves_refl|done|done|done|].
      by destruct ok.
    + munfold H. destruct (procs σ !! proc) as [pr|] eqn:Hpr; simpl in H; [|done].
      destruct ok; injection H as <-.
      * apply (finish _ _ _ (KProcEnd proc));
          [by apply (inv_set_proc _ _ pr)|by apply (set_proc_evolves _ _ pr)|done..].
      * apply (finish _ _ _ (KProcEnd proc)); [done|apply evolves_refl|done..].
  - (* Fire *)
    munfold H. destruct (heap σ !! p) as [[k st]|] eqn:Hp; simpl in H; [|done].
    destruct k; try done; destruct st; try done. case_decide; [|done].
    injection H as <-.
    apply (finish _ _ _ (KTimer deadline)); [done|apply evolves_refl|done..].
  - (* Tick *)
    injection H as <-.
    assert (evolves σ (set_now (λ t, t + dt) σ)).
    { split; simpl; eauto using cell_le_refl; [by exists []|lia]. }
    split; [|done]. apply (inv_frame σ); auto.
  - (* Crash *)
    munfold H. destruct (procs σ !! proc) as [pr|] eqn:Hpr; simpl in H; [|done].
    destruct (isEnded pr) eqn:Hend; [done|]. destruct (ending pr); [done|].
    mcase H. injection H as <-.
    apply handleCrash_inv in E as [? Hext].
    + split; [done|]. eapply evolves_trans; [|apply Hext].
      eapply (evolves_trans _ (set_procs (<[proc := mark_ended (Some tail) pr]>) σ));
        [by apply (set_proc_evolves _ _ pr)|apply emits_evolves].
    + by apply inv_notify.
    + apply list_elem_of_here.
  - (* Signal *)
    mcase H. injection H as <-. apply die_inv in E as (? & Hext & _); [|done].
    split; [done|apply Hext].
Qed.

Lemma run_inv acts σ σ' :
  exec acts σ = Some σ' → inv σ → inv σ' ∧ evolves σ σ'.
Proof.
  unfold exec. revert σ. induction acts as [|a acts IH]; intros σ H Hinv.
  - injection H as <-. auto using evolves_refl.
  - simpl in H. destruct (step a σ) as [[[] σ1]|] eqn:Hstep.
    2:{ unfold bind in H. by rewrite Hstep in H. }
    destruct (step_inv _ _ _ Hstep Hinv) as [Hinv1 Hev1].
    destruct (IH σ1) as [? ?]; [|done|].
    + unfold bind in H. by rewrite Hstep in H.
    + eauto using evolves_trans.
Qed.

Lemma inv_initial : inv initial.
Proof.
  split; simpl; try done.
  - intros s. split; simpl; try done; intros;
      match goal with H : _ ∈ [] |- _ => by apply elem_of_nil in H end.
  - by intros _ ?%elem_of_nil.
  - unfold count. simpl. lia.
  - by intros ???? ?%elem_of_nil.
  - by intros ??? ?%elem_of_nil.
Qed.

Lemma boot_inv valid σ : boot valid = Some σ → inv σ.
Proof.
  unfold boot. intros H0.
  destruct (CompositeService valid initial) as [[[] σ1]|] eqn:H; [|done].
  injection H0 as ->. unfold CompositeService in H.
  destruct valid; munfold H.
  - mcase H. injection H as <-.
    eapply (mapM_allocs (λ _, True) _ (λ t, KdStartService t.1)) in E
      as (new & -> & Hks & Hoks).
    2:{ intros a σ0 q0 σ0' _ Ha. apply startService_spec in Ha as (n & ? & ? & ?). eauto. }
    apply (inv_allocs _ [_]); [|by repeat constructor].
    apply inv_allocs; [|by apply Hoks].
    apply inv_emits; [|done..]. apply inv_emits; [|done..]. apply inv_initial.
  - injection H as <-.
    apply (inv_frame (emits (Exit 1) (emits (Log LoggerError ConfigValidationError)
                        (emits (Log LoggerDebug ConfigDump) initial)))); try done.
    + apply inv_emits; [|done..]. apply inv_emits; [|done..].
      apply inv_emits; [|done..]. apply inv_initial.
    + split; simpl; eauto using cell_le_refl. by exists [].
Qed.

(** Every state the program reaches satisfies the invariant. *)
Lemma reachable_inv valid acts σ0 σ :
  boot valid = Some σ0 → exec acts σ0 = Some σ → inv σ.
Proof. intros H0 H. eapply run_inv; [done|]. by eapply boot_inv. Qed.

(** ** The claims *)

Lemma hist_ok_suffix l1 l2 : hist_ok (l1 ++ l2) → hist_ok l2.
Proof. induction l1; simpl; naive_solver. Qed.

(** C1. In every run, whenever [start()] is invoked on a service, for
    each of its dependencies a call [startService] has already completed
    successfully and the dependency's own start operation has already
    completed (its [startResult] is fulfilled, "Started service" was
    logged): both events lie strictly earlier in the trace. *)
Theorem start_after_dependencies valid acts σ0 σ l1 l2 s c d :
  boot valid = Some σ0 → exec acts σ0 = Some σ →
  trace σ = l1 ++ Begin (OpStart s) :: l2 →
  config s = Some c → d ∈ dependencies c →
  End (OpStartService d) ∈ l2 ∧ End (OpStart d) ∈ l2.
Proof.
  intros H0 H Ht Hc Hd. pose proof (inv_hist _ (reachable_inv _ _ _ _ H0 H)) as Hh.
  rewrite Ht in Hh. apply hist_ok_app in Hh as [_ Hh]. eauto.
Qed.

Lemma dependents_lists t c s : (t, c) ∈ services → s ∈ dependencies c → (t, c) ∈ dependents s.
Proof. intros. unfold dependents. by apply list_elem_of_filter. Qed.

Lemma stopped_before l s t :
  hist_ok l → tc lists t s → ∀ l1 l2, l = l1 ++ Begin (OpStop s) :: l2 → End (OpStop t) ∈ l2.
Proof.
  intros Hh Htc. revert l Hh. induction Htc as [t s (c & Hin & Hs)|t u s (c & Hin & Hu) _ IH];
    intros l Hh l1 l2 ->.
  - apply hist_ok_app in Hh. by apply (Hh (t, c)), dependents_lists.
  - pose proof (IH _ Hh _ _ eq_refl) as Hu'.
    apply list_elem_of_split in Hu' as (l3 & l4 & ->).
    apply hist_ok_suffix in Hh. simpl in Hh. destruct Hh as [_ Hh].
    apply hist_ok_suffix in Hh. simpl in Hh. destruct Hh as [Hb Hh].
    apply list_elem_of_split in Hb as (l5 & l6 & ->).
    apply hist_ok_app in Hh.
    apply elem_of_app. right. apply list_elem_of_further. apply elem_of_app. right.
    apply list_elem_of_further. by apply (Hh (t, c)), dependents_lists.
Qed.

(** C3. In every run, whenever [stop()] is invoked on a service, every
    service that lists it as a dependency has had a call [stopService]
    completed, and every direct or transitive dependent has completed
    stopping (its [stopResult] is fulfilled): these events lie strictly
    earlier in the trace. *)
Theorem stop_after_dependents valid acts σ0 σ l1 l2 s :
  boot valid = Some σ0 → exec acts σ0 = Some σ →
  trace σ = l1 ++ Begin (OpStop s) :: l2 →
  (∀ t, lists t s → End (OpStopService t) ∈ l2) ∧
  (∀ t, tc lists t s → End (OpStop t) ∈ l2).
Proof.
  intros H0 H Ht. pose proof (inv_hist _ (reachable_inv _ _ _ _ H0 H)) as Hh.
  split.
  - intros t (c & Hin & Hs). rewrite Ht in Hh. apply hist_ok_app in Hh.
    by apply (Hh (t, c)), dependents_lists.
  - intros t Htc. by eapply stopped_before.
Qed.

(** C8. In every run, a process spawned by crash handling is never
    preceded by an invocation of [stop()] on its service: once [stop()]
    has been invoked, the crash path spawns nothing, wherever the stop
    request found the crash handler. *)
Theorem no_restart_after_stop valid acts σ0 σ l1 l2 s p crashed t :
  boot valid = Some σ0 → exec acts σ0 = Some σ →
  trace σ = l1 ++ Spawn s p (ViaRestart crashed) t :: l2 →
  Begin (OpStop s) ∉ l2.
Proof.
  intros H0 H Ht. pose proof (inv_hist _ (reachable_inv _ _ _ _ H0 H)) as Hh.
  rewrite Ht in Hh. by apply hist_ok_app in Hh as [? _].
Qed.

(** C4. In every run and for every service: once [start()] has been
    invoked, however many times, exactly one process has been spawned by
    the start path, and all invocations returned the same promise; at
    most one termination request has been made, and all invocations of
    [stop()] returned the same promise. *)
Theorem start_stop_idempotent valid acts σ0 σ s :
  boot valid = Some σ0 → exec acts σ0 = Some σ →
  (Begin (OpStart s) ∈ trace σ → count (is_start_spawn s) (trace σ) = 1) ∧
  (∀ r1 r2, Return (OpStart s) r1 ∈ trace σ → Return (OpStart s) r2 ∈ trace σ → r1 = r2) ∧
  count (is_end_request s) (trace σ) ≤ 1 ∧
  (∀ r1 r2, Return (OpStop s) r1 ∈ trace σ → Return (OpStop s) r2 ∈ trace σ → r1 = r2).
Proof.
  intros H0 H. destruct (inv_svc _ (reachable_inv _ _ _ _ H0 H) s). split_and!.
  - intros Hb. rewrite so_spawns0. by destruct (so_start_begun0 Hb) as [? ->].
  - intros r1 r2 [-> _]%so_start_ret0 [-> _]%so_start_ret0. done.
  - destruct (stopResult (svc σ s)); lia.
  - intros r1 r2 [-> _]%so_stop_ret0 [-> _]%so_stop_ret0. done.
Qed.

(** A step changes no promise but the one it works on. *)
Lemma step_frame a σ σ' q c :
  step a σ = Some (tt, σ') → inv σ → heap σ !! q = Some c → target a ≠ Some q →
  heap σ' !! q = Some c.
Proof.
  unfold step. intros H Hinv Hq Ht. munfold H. destruct (exited σ); [done|].
  destruct a as [p|p ok|p|dt|proc tail|sig]; simpl in Ht.
  - munfold H. destruct (heap σ !! p) as [[k st]|] eqn:Hp; simpl in H; [|done].
    destruct st; try done. mcase H. injection H as <-.
    destruct (resume_inv _ _ _ _ _ Hinv Hp E) as (_ & Hext & _).
    simpl. rewrite list_lookup_insert_ne by congruence. by eapply extends_lookup.
  - munfold H. destruct (heap σ !! p) as [[k st]|] eqn:Hp; simpl in H; [|done].
    destruct k; try done; destruct st; try done.
    + injection H as <-. simpl. by rewrite list_lookup_insert_ne by congruence.
    + munfold H. destruct (procs σ !! proc) as [pr|] eqn:Hpr; simpl in H; [|done].
      destruct ok; injection H as <-; simpl; by rewrite list_lookup_insert_ne by congruence.
  - munfold H. destruct (heap σ !! p) as [[k st]|] eqn:Hp; simpl in H; [|done].
    destruct k; try done; destruct st; try done. case_decide; [|done].
    injection H as <-. simpl. by rewrite list_lookup_insert_ne by congruence.
  - by injection H as <-.
  - munfold H. destruct (procs σ !! proc) as [pr|] eqn:Hpr; simpl in H; [|done].
    destruct (isEnded pr) eqn:Hend; [done|]. destruct (ending pr); [done|].
    mcase H. injection H as <-.
    apply handleCrash_inv in E as [_ Hext].
    + by eapply (extends_lookup _ _ _ _ Hext).
    + by apply inv_notify.
    + apply list_elem_of_here.
  - mcase H. injection H as <-. apply die_inv in E as (_ & Hext & _); [|done].
    by eapply extends_lookup.
Qed.


Lemma exec_cons a acts σ σ' :
  exec (a :: acts) σ = Some σ' ↔ ∃ σ1, step a σ = Some (tt, σ1) ∧ exec acts σ1 = Some σ'.
Proof.
  unfold exec. simpl. unfold bind. destruct (step a σ) as [[[] σ1]|]; [|naive_solver].
  naive_solver.
Qed.



Lemma count_pos f l e : e ∈ l → f e = true → 1 ≤ count f l.
Proof.
  intros (l1 & l2 & ->)%list_elem_of_split Hf.
  rewrite count_app, count_cons, Hf. lia.
Qed.

(** C5. Let [die] be invoked in a state the program has reached, the
    dependency graph being acyclic.  The invocation returns.  If the
    stopping flag is not set, it sets it, logs the message and the start
    of the shutdown, and calls [stopService] once for every service.  If
    the flag is set, the invocation changes nothing: it only makes the
    promise it returns.  In both cases that promise is a [never()]
    promise, which stays pending in every later state; the flag stays
    set, and the shutdown was begun exactly once. *)
Theorem die_once valid acts σ0 σ m rank :
  boot valid = Some σ0 → exec acts σ0 = Some σ → acyclic rank = true →
  ∃ n σ', die m σ = Some (n, σ') ∧
  (stopping σ = false →
     stopping σ' = true ∧
     trace σ' = shutdown_begun :: Log LoggerError m :: trace σ ∧
     ∃ new cs,
       heap σ' = heap σ ++ new ++
                 [Cell (KStoppedAll cs) Pending;
                  Cell (KExit (length (heap σ) + length new)) Pending;
                  Cell KNever Pending] ∧
       Forall2 (λ (t : string * ServiceConfig) q, has_kind σ' q (KdStopService t.1))
         services cs) ∧
  (stopping σ = true → σ' = allocs [Cell KNever Pending] σ) ∧
  is_never σ' n ∧
  ∀ acts' σ'', exec acts' σ' = Some σ'' →
    is_never σ'' n ∧ stopping σ'' = true ∧
    count (λ e, bool_decide (e = shutdown_begun)) (trace σ'') = 1.
Proof.
  intros H0 H Hr. pose proof (reachable_inv _ _ _ _ H0 H) as Hinv.
  destruct (die_total rank m σ Hr) as [[n σ'] Hdie]. exists n, σ'.
  destruct (die_inv _ _ _ _ Hdie Hinv) as (Hinv' & Hext & Hn).
  pose proof (die_spec _ _ _ _ Hdie) as Hspec.
  assert (stopping σ' = true) as Hs' by by eapply die_escalates.
  split_and!; [done| | |done|].
  - intros Hs. rewrite Hs in Hspec. destruct Hspec as (new & cs & -> & -> & Hcs & _).
    split_and!; [done|done|]. exists new, cs. split; [|done]. simpl.
    by rewrite ?(assoc_L (++)).
  - intros Hs. rewrite Hs in Hspec. by destruct Hspec as [_ ->].
  - intros acts' σ'' H'. destruct (run_inv _ _ _ H' Hinv') as [Hinv'' Hev].
    assert (stopping σ'' = true) as Hs'' by by eapply ev_stopping.
    split_and!; [by eapply evolves_is_never|done|].
    pose proof (inv_once _ Hinv'').
    pose proof (count_pos (λ e, bool_decide (e = shutdown_begun)) _ _
                  (inv_begun _ Hinv'' Hs'') (bool_decide_eq_true_2 _ eq_refl)).
    lia.
Qed.

Transparent die start stop startProcess handleCrash.

(** What [start] does once [stop] has been requested. *)
Lemma start_stopped s σ x :
  stopResult (svc σ s) = Some x →
  start s σ =
    Some (startResult (svc σ s),
          emits (Return (OpStart s) (startResult (svc σ s)))
            (emits (Log ConsoleError CannotStartAfterStopping)
               (emits (Begin (OpStart s)) σ))).
Proof.
  intros Hx. unfold start. cbv [bind ret get emit modify]. simpl. by rewrite Hx.
Qed.



(** C10. Once [stop()] has been requested on a supervisor, a call of
    [start()] spawns nothing and makes no promise: it logs the
    InternalError and returns the memoized [startResult] as it is; when
    [start()] had not been invoked before, that is no promise at all. *)
Theorem start_after_stop s σ x :
  stopResult (svc σ s) = Some x →
  ∃ σ', start s σ = Some (startResult (svc σ s), σ') ∧
        procs σ' = procs σ ∧ heap σ' = heap σ ∧ svc σ' = svc σ ∧
        trace σ' = [Return (OpStart s) (startResult (svc σ s));
                    Log ConsoleError CannotStartAfterStopping; Begin (OpStart s)] ++ trace σ ∧
        (startResult (svc σ s) = None → start s σ = Some (None, σ')).
Proof.
  intros Hx. eexists. split; [by eapply start_stopped|]. simpl. split_and!; try done.
  intros Hn. rewrite (start_stopped _ _ _ Hx). by rewrite Hn.
Qed.

(** Every invocation of [stop()] leaves [stopResult] set, and it stays
    set. *)
Lemma stop_requested s σ r σ' :
  stop s σ = Some (r, σ') → stopResult (svc σ' s) = Some r.
Proof.
  intros H. apply stop_spec in H as (-> & _ & _ & _ & _ & _ & _ & H).
  destruct (stopResult (svc σ s)) eqn:E; [|done]. by destruct H as (-> & _).
Qed.

Lemma stop_requested_stable valid acts acts' σ0 σ σ' s x :
  boot valid = Some σ0 → exec acts σ0 = Some σ → exec acts' σ = Some σ' →
  stopResult (svc σ s) = Some x → stopResult (svc σ' s) = Some x.
Proof.
  intros H0 H H' Hx. pose proof (reachable_inv _ _ _ _ H0 H) as Hinv.
  destruct (run_inv _ _ _ H' Hinv) as [_ Hev]. by eapply ev_stop.
Qed.

Lemma lookup_app_add {A} (l1 l2 : list A) i : (l1 ++ l2) !! (length l1 + i) = l2 !! i.
Proof. rewrite lookup_app_r by lia. f_equal. lia. Qed.

Lemma insert_app_here {A} (l1 l2 : list A) x y :
  <[length l1 := x]> (l1 ++ y :: l2) = l1 ++ x :: l2.
Proof.
  replace (length l1) with (length l1 + 0) at 1 by lia. by rewrite insert_app_r.
Qed.

Lemma exec_step a acts σ σ1 :
  step a σ = Some (tt, σ1) → exec (a :: acts) σ = exec acts σ1.
Proof. intros H. unfold exec. simpl. unfold bind. by rewrite H. Qed.

Ltac norm_heap :=
  repeat first
    [ rewrite length_app | rewrite <- (assoc_L (++)) | rewrite <- Nat.add_assoc
    | rewrite insert_app_r | rewrite lookup_app_add
    | rewrite list_lookup_middle by reflexivity | rewrite insert_app_here
    | progress simpl ].

Ltac step_eval :=
  unfold step, resume, handleCrash, startProcess, isResolved, await, status_of;
  cbv [bind ret get put modify emit alloc lift fail update set_cell never settle];
  simpl.

(** The crash of a ready service under the default policy, followed to
    the restart: crash, hook, delay, timer, spawn. *)
Lemma crash_then_restart s proc tail σ pr c r dt :
  exited σ = false →
  procs σ !! proc = Some pr → isEnded pr = false → ending pr = None → owner pr = s →
  config s = Some c → (∀ ctx, onCrash c ctx = default_onCrash ctx) →
  ready (svc σ s) = Some r → status_of σ r = Some Fulfilled →
  stopResult (svc σ s) = None →
  setTimeout_delay (minimumRestartDelay c) ≤ dt →
  let h := length (heap σ) in
  ∃ σ', exec [Crash proc tail; Run (h + 1); Run (h + 1); Tick dt; Fire h; Run (h + 1)] σ
          = Some σ' ∧
        trace σ' = [Spawn s (length (procs σ)) (ViaRestart proc) (now σ + dt);
                    Log ConsoleLog (RestartingService s);
                    Log ConsoleLog (ServiceCrashed s);
                    CrashNotified s proc (now σ)] ++ trace σ ∧
        process (svc σ' s) = Some (length (procs σ)) ∧
        ready (svc σ' s) = Some r ∧
        heap σ' !! (h + 1) = Some (Cell (KCrash4 s proc (h + 4)) Pending).
Proof.
  intros Hex Hpr Hend Hending Hown Hc Hhook Hr Hrf Hstop Hdt h. subst h.
  assert (proc < length (procs σ)) as Hlt by by eapply lookup_lt_Some.
  unfold status_of in Hrf.
  destruct (heap σ !! r) as [[kr str]|] eqn:Hhr; [|done]. simpl in Hrf.
  injection Hrf as ->.
  eexists. split.
  { erewrite exec_step.
    2:{ step_eval. rewrite Hex, Hpr. simpl. rewrite Hend, Hending, Hown. simpl.
        rewrite Hstop, Hc. simpl. rewrite list_lookup_insert_eq by done. simpl.
        rewrite Hr. simpl. rewrite lookup_app_l_Some with (x := Cell kr Fulfilled) by done.
        simpl. reflexivity. }
    erewrite exec_step.
    2:{ step_eval. rewrite Hex. norm_heap. rewrite Hc. simpl. rewrite Hhook. simpl.
        norm_heap. reflexivity. }
    erewrite exec_step.
    2:{ step_eval. rewrite Hex. norm_heap. rewrite fn_lookup_insert. simpl.
        rewrite Hstop. norm_heap. reflexivity. }
    erewrite exec_step; [|step_eval; rewrite Hex; reflexivity].
    erewrite exec_step.
    2:{ step_eval. rewrite Hex. norm_heap. case_decide; [|lia]. reflexivity. }
    erewrite exec_step.
    2:{ step_eval. rewrite Hex. norm_heap. rewrite fn_lookup_insert. simpl.
        rewrite Hstop. norm_heap. reflexivity. }
    reflexivity. }
  simpl. rewrite !fn_lookup_insert. simpl. rewrite length_insert.
  split_and!; try done. norm_heap. done.
Qed.

Lemma hist_crash_unique l s p t s' t' :
  hist_ok l → CrashNotified s p t ∈ l → CrashNotified s' p t' ∈ l → s = s' ∧ t = t'.
Proof.
  induction l as [|e l IH]; intros Hh H1 H2; [by apply elem_of_nil in H1|].
  destruct Hh as [He Hh].
  apply elem_of_cons in H1 as [<-|H1]; apply elem_of_cons in H2 as [E|H2]; simpl in He.
  - by injection E as <- <-.
  - by apply He in H2.
  - subst e. by apply He in H1.
  - by apply IH.
Qed.

Lemma crash_notified s proc tail σ pr σ1 :
  procs σ !! proc = Some pr → owner pr = s →
  step (Crash proc tail) σ = Some (tt, σ1) →
  CrashNotified s proc (now σ) ∈ trace σ1.
Proof.
  intros Hpr Hown H. unfold step in H. munfold H. destruct (exited σ); [done|].
  munfold H. rewrite Hpr in H. simpl in H.
  destruct (isEnded pr); [done|]. destruct (ending pr); [done|]. 
  unfold handleCrash, isResolved in H. munfold H. rewrite Hown in H.
  destruct (stopResult (svc σ s)).
  { injection H as <-. simpl. apply list_elem_of_further, list_elem_of_here. }
  destruct (config s); simpl in H; [|done].
  rewrite list_lookup_insert_eq in H by by eapply lookup_lt_Some. simpl in H.
  destruct (ready (svc σ s)); injection H as <-; simpl;
    apply list_elem_of_further, list_elem_of_here.
Qed.

(** ** One restart for a crash *)

Lemma calm_refl σ : calm σ σ.
Proof. split; exists []; by rewrite ?app_nil_r. Qed.

Lemma calm_trans σ1 σ2 σ3 : calm σ1 σ2 → calm σ2 σ3 → calm σ1 σ3.
Proof.
  intros [(h1 & Hh1 & F1) (t1 & Ht1 & G1)] [(h2 & Hh2 & F2) (t2 & Ht2 & G2)]. split.
  - exists (h1 ++ h2). rewrite Hh2, Hh1, (assoc_L (++)). split; [done|]. by apply Forall_app.
  - exists (t2 ++ t1). rewrite Ht2, Ht1, (assoc_L (++)). split; [done|]. by apply Forall_app.
Qed.

Lemma quiet_ret {A} (P : A → Prop) a : P a → quiet_to P (ret a).
Proof. intros ? σ ? ? [= <- <-]. split; [apply calm_refl|done]. Qed.

Lemma quiet_fail {A} (P : A → Prop) : quiet_to P fail.
Proof. by intros σ ? ?. Qed.

Lemma quiet_bind {A B} (P : B → Prop) (m : M A) (f : A → M B) :
  quiet m → (∀ a, quiet_to P (f a)) → quiet_to P (bind m f).
Proof.
  intros Hm Hf σ b σ' (a & σ1 & H1 & H2)%bind_Some.
  destruct (Hm _ _ _ H1) as [? _]. destruct (Hf _ _ _ _ H2). eauto using calm_trans.
Qed.

Lemma quiet_get : quiet get.
Proof. intros σ ? ? [= <- <-]. split; [apply calm_refl|done]. Qed.

Lemma quiet_lift {A} (o : option A) : quiet (lift o).
Proof. intros σ ? ? H. destruct o; [|done]. injection H as <- <-. split; [apply calm_refl|done]. Qed.

Lemma quiet_modify f :
  (∀ σ, heap (f σ) = heap σ) → (∀ σ, trace (f σ) = trace σ) → quiet (modify f).
Proof.
  intros Hh Ht σ [] ? [= <-]. split; [|done].
  split; exists []; rewrite ?app_nil_r, ?Hh, ?Ht; by split.
Qed.

Lemma quiet_update s f : quiet (update s f).
Proof. by apply quiet_modify. Qed.

Lemma quiet_emit e : (∀ proc, is_restart proc e = false) → quiet (emit e).
Proof.
  intros He σ [] ? [= <-]. split; [|done]. split; [exists []; by rewrite app_nil_r|].
  exists [e]. split; [done|]. by apply Forall_singleton.
Qed.

Lemma quiet_alloc k st : handler_of (Cell k st) = None → quiet (alloc k st).
Proof.
  intros Hk σ ? ? [= <- <-]. split; [|done]. split; [|exists []; by rewrite ?app_nil_r].
  exists [Cell k st]. split; [done|]. by apply Forall_singleton.
Qed.

Lemma quiet_mapM {A B} (f : A → M B) l : (∀ a, quiet (f a)) → quiet (mapM f l).
Proof.
  intros Hf. induction l as [|a l IH]; simpl; [by apply quiet_ret|].
  apply quiet_bind; [apply Hf|]. intros b. apply quiet_bind; [apply IH|].
  intros. by apply quiet_ret.
Qed.

Ltac quiet_step :=
  lazymatch goal with
  | |- quiet_to _ (bind _ _) => apply quiet_bind; [|intros ?]
  | |- quiet_to _ (ret _) => apply quiet_ret
  | |- quiet_to _ fail => apply quiet_fail
  | |- quiet_to _ get => apply quiet_get
  | |- quiet_to _ (lift _) => apply quiet_lift
  | |- quiet_to _ (emit _) => apply quiet_emit; done
  | |- quiet_to _ (alloc _ _) => apply quiet_alloc; done
  | |- quiet_to _ (modify _) => apply quiet_modify; done
  | |- quiet_to _ (update _ _) => apply quiet_update
  | |- quiet_to _ (mapM _ _) => apply quiet_mapM; intros ?
  | |- quiet_to _ (match ?x with _ => _ end) => destruct x
  end.

Ltac quiet_auto := repeat first [quiet_step | done | solve [auto with quiet]].

Create HintDb quiet.

Lemma quiet_never : quiet never.
Proof. by apply quiet_alloc. Qed.
#[local] Hint Resolve quiet_never : quiet.

Lemma quiet_stopService fuel s : quiet (stopService fuel s).
Proof.
  revert s. induction fuel as [|fuel IH]; intros s; simpl; [apply quiet_fail|].
  quiet_auto.
Qed.
#[local] Hint Resolve quiet_stopService : quiet.

Lemma quiet_die m : quiet (die m).
Proof. unfold die. quiet_auto. Qed.
#[local] Hint Resolve quiet_die : quiet.

Lemma quiet_service_die s c : quiet (service_die s c).
Proof. apply quiet_die. Qed.
#[local] Hint Resolve quiet_service_die : quiet.

Lemma quiet_defineReady s : quiet (defineReady s).
Proof. unfold defineReady. quiet_auto. Qed.
#[local] Hint Resolve quiet_defineReady : quiet.

Lemma quiet_startProcess s : quiet (startProcess s ViaStart).
Proof. unfold startProcess. quiet_auto. Qed.
#[local] Hint Resolve quiet_startProcess : quiet.

Lemma quiet_start s : quiet (start s).
Proof. unfold start. quiet_auto. Qed.
#[local] Hint Resolve quiet_start : quiet.

Lemma quiet_proc_end s proc : quiet (proc_end s proc).
Proof. unfold proc_end. quiet_auto. Qed.
#[local] Hint Resolve quiet_proc_end : quiet.

Lemma quiet_stop s : quiet (stop s).
Proof. unfold stop. quiet_auto. Qed.
#[local] Hint Resolve quiet_stop : quiet.

Lemma quiet_startService fuel s : quiet (startService fuel s).
Proof.
  revert s. induction fuel as [|fuel IH]; intros s; simpl; [apply quiet_fail|].
  quiet_auto.
Qed.
#[local] Hint Resolve quiet_startService : quiet.

Lemma quiet_CompositeService valid : quiet (CompositeService valid).
Proof. unfold CompositeService. quiet_auto. Qed.

Lemma quiet_await p : quiet (await p).
Proof. unfold await. quiet_auto. Qed.
#[local] Hint Resolve quiet_await : quiet.

Lemma quiet_await_all cs : quiet (await_all cs).
Proof. unfold await_all. quiet_auto. Qed.
#[local] Hint Resolve quiet_await_all : quiet.

(** Resuming a continuation is calm, and does not make a crash handler
    of what was none; the restart itself apart. *)
Lemma resume_calm k :
  (∀ s proc delay, k ≠ KCrash3 s proc delay) →
  quiet_to (λ c', handler_of c' = None ∨ handler_of c' = handler_of (Cell k Pending))
           (resume k).
Proof.
  intros Hk. destruct k; simpl; try (by apply quiet_fail);
    try (by destruct (Hk _ _ _ eq_refl));
    repeat first [quiet_step | solve [auto with quiet]
                 | progress (unfold settle; simpl; auto) ].
Qed.

(** The restart: one spawn, by a handler that handles no more. *)
Lemma resume_restart s proc delay σ c' σ1 :
  resume (KCrash3 s proc delay) σ = Some (c', σ1) →
  handler_of c' = None ∧
  (calm σ σ1 ∨
   ∃ p t new, heap σ1 = heap σ ++ new ∧ Forall (λ c, handler_of c = None) new ∧
              trace σ1 = [Spawn s p (ViaRestart proc) t;
                          Log ConsoleLog (RestartingService s)] ++ trace σ).
Proof.
  simpl. intros H. mbind H. destruct (quiet_await _ _ _ _ E) as [Hc _].
  assert (σ0 = σ) as ->.
  { unfold await in E. munfold E. by repeat case_match; simplify_eq. }
  destruct a; [|injection H as <- <-; split; [done|by left]].
  munfold H. destruct (stopResult (svc σ s)); [injection H as <- <-; split; [done|by left]|].
  injection H as <- <-. split; [done|right].
  eexists _, _, [_; _]. simpl. split_and!; [by rewrite <- (assoc_L (++))| |done].
  by repeat constructor.
Qed.

Lemma handlers_app proc h1 h2 : handlers proc (h1 ++ h2) = handlers proc h1 + handlers proc h2.
Proof. unfold handlers. by rewrite filter_app, length_app. Qed.

Lemma handlers_cons proc c h :
  handlers proc (c :: h) = (if decide (handler_of c = Some proc) then 1 else 0) + handlers proc h.
Proof. unfold handlers. rewrite filter_cons. by case_decide. Qed.

Lemma handlers_0 proc h : Forall (λ c, handler_of c ≠ Some proc) h → handlers proc h = 0.
Proof.
  induction 1 as [|c h Hc _ IH]; [done|]. rewrite handlers_cons, IH. by case_decide.
Qed.

Lemma handlers_none proc h : Forall (λ c, handler_of c = None) h → handlers proc h = 0.
Proof. intros H. apply handlers_0. eapply Forall_impl; [exact H|]. by intros c ->. Qed.

Lemma handlers_insert proc h p c c' :
  h !! p = Some c →
  handlers proc (<[p := c']> h) + (if decide (handler_of c = Some proc) then 1 else 0) =
  handlers proc h + (if decide (handler_of c' = Some proc) then 1 else 0).
Proof.
  intros Hp. rewrite <- (take_drop_middle h p c Hp) at 2.
  rewrite insert_take_drop by by eapply lookup_lt_Some.
  rewrite !handlers_app, !handlers_cons. lia.
Qed.

Lemma handlers_lookup proc h p c :
  h !! p = Some c → handler_of c = Some proc → 1 ≤ handlers proc h.
Proof.
  intros Hp Hc. rewrite <- (take_drop_middle h p c Hp), handlers_app, handlers_cons.
  rewrite decide_True by done. lia.
Qed.

Lemma tokens_calm σ σ' proc : calm σ σ' → tokens σ' proc = tokens σ proc.
Proof.
  intros [(h & Eh & Hh) (t & Et & Ht)]. unfold tokens. rewrite Eh, Et.
  rewrite handlers_app, count_app, (handlers_none _ h Hh), (count_0 _ t); [lia|].
  intros e He. rewrite Forall_forall in Ht. by apply Ht.
Qed.

(** A restart in the trace was preceded by the notification of the crash. *)
Lemma restart_notified l proc :
  hist_ok l → 0 < count (is_restart proc) l → ∃ s t, CrashNotified s proc t ∈ l.
Proof.
  induction l as [|e l IH]; simpl; [rewrite count_nil; lia|].
  intros [He Hl]. rewrite count_cons. destruct (is_restart proc e) eqn:Hr.
  - intros _. destruct e as [| s p [|crashed] t | | | | | |]; try done. simpl in Hr.
    apply bool_decide_eq_true in Hr as ->.
    destruct He as (_ & _ & t0 & c & _ & Hin & _). exists s, t0. by right.
  - intros H. destruct (IH Hl H) as (s & t & ?). exists s, t. by right.
Qed.

(** A crash that has not been notified has no handler and no restart. *)
Lemma tokens_unnotified σ proc :
  inv σ → (∀ s t, CrashNotified s proc t ∉ trace σ) → tokens σ proc = 0.
Proof.
  intros Hinv Hn. unfold tokens.
  destruct (count (is_restart proc) (trace σ)) as [|n] eqn:Hc.
  - rewrite handlers_0; [done|]. apply Forall_lookup. intros p c Hp Hh.
    pose proof (inv_heap _ Hinv _ _ Hp) as [Hk _].
    destruct c as [[] []]; simpl in Hh; try done; injection Hh as ->;
      destruct Hk as (d & t0 & cfg & _ & _ & Hin & _); by eapply Hn.
  - destruct (restart_notified (trace σ) proc (inv_hist _ Hinv)) as (s & t & ?); [lia|].
    by destruct (Hn s t).
Qed.

(** A call [handleCrash(proc)] makes at most one handler, for [proc]. *)
Lemma handleCrash_tokens s proc σ q σ' :
  handleCrash s proc σ = Some (q, σ') →
  ∀ proc', tokens σ' proc' ≤ tokens σ proc' + (if decide (proc' = proc) then 1 else 0).
Proof.
  unfold handleCrash, isResolved. intros H proc'. munfold H.
  destruct (stopResult (svc σ s)).
  { injection H as <- <-. unfold tokens. simpl.
    rewrite handlers_app, count_cons. simpl. unfold handlers. simpl. lia. }
  destruct (config s); simpl in H; [|done].
  destruct (procs σ !! proc); simpl in H; [|done].
  destruct (ready (svc σ s)); injection H as <- <-; unfold tokens; simpl;
    rewrite !handlers_app, count_cons; simpl; rewrite ?handlers_cons; simpl.
  - unfold handlers. simpl. repeat case_decide; simplify_eq; lia.
  - unfold handlers. simpl. lia.
Qed.

Opaque die start stop startProcess handleCrash.

Lemma tokens_put σ1 p c c' proc :
  heap σ1 !! p = Some c →
  handler_of c' = None ∨ handler_of c' = handler_of c →
  tokens (put_cell p c' σ1) proc ≤ tokens σ1 proc.
Proof.
  intros Hp Hc. unfold tokens. simpl.
  pose proof (handlers_insert proc _ _ _ c' Hp).
  destruct Hc as [Hc|Hc]; rewrite Hc in *; repeat case_decide; simplify_eq; lia.
Qed.

(** No crash is ever handled twice, or restarted twice. *)
Lemma tokens_step a σ σ' :
  step a σ = Some (tt, σ') → inv σ → (∀ proc, tokens σ proc ≤ 1) →
  ∀ proc, tokens σ' proc ≤ 1.
Proof.
  unfold step. intros H Hinv Htok proc. munfold H. destruct (exited σ); [done|].
  destruct a as [p|p ok|p|dt|proc0 tail|sig].
  - (* Run *)
    munfold H. destruct (heap σ !! p) as [[k st]|] eqn:Hp; simpl in H; [|done].
    destruct st; try done. mcase H. injection H as <-.
    change (set_heap (<[p:=c]>) s) with (put_cell p c s).
    assert ((∃ s0 proc0 delay, k = KCrash3 s0 proc0 delay) ∨
            (∀ s0 proc0 delay, k ≠ KCrash3 s0 proc0 delay))
      as [(s0 & proc0 & delay & ->)|Hk] by (destruct k; eauto; by right).
    + apply resume_restart in E as [Hc [Hcalm|(q & t & new & Hh & Hnew & Ht)]].
      * etrans; [eapply (tokens_put _ _ (Cell (KCrash3 s0 proc0 delay) Pending)); [|by left]|].
        { destruct Hcalm as [(new & -> & _) _]. by apply lookup_app_l_Some. }
        by rewrite (tokens_calm _ _ _ Hcalm).
      * assert (heap s !! p = Some (Cell (KCrash3 s0 proc0 delay) Pending)) as Hp'
          by (rewrite Hh; by apply lookup_app_l_Some).
        pose proof (handlers_insert proc (heap s) p _ c Hp') as Hi.
        pose proof (Htok proc) as Hle. unfold tokens in *. simpl.
        rewrite Hc in Hi. rewrite Ht, Hh, handlers_app, (handlers_none _ _ Hnew) in *.
        cbn [app]. rewrite !count_cons. simpl in *.
        pose proof (handlers_lookup proc0 _ _ _ Hp eq_refl).
        repeat case_decide; repeat case_bool_decide; simplify_eq; lia.
    + apply resume_calm in E as [Hcalm Hc]; [|done].
      etrans; [eapply (tokens_put _ _ (Cell k Pending)); [|done]|].
      { destruct Hcalm as [(new & -> & _) _]. by apply lookup_app_l_Some. }
      by rewrite (tokens_calm _ _ _ Hcalm).
  - (* Settle *)
    munfold H. destruct (heap σ !! p) as [[k st]|] eqn:Hp; simpl in H; [|done].
    destruct k; try done; destruct st; try done.
    + injection H as <-. etrans; [|apply (Htok proc)].
      apply (tokens_put σ p (Cell KExternal Pending)); [done|left; by destruct ok].
    + munfold H. destruct (procs σ !! _) as [pr|] eqn:Hpr; simpl in H; [|done].
      etrans; [|apply (Htok proc)].
      destruct ok; injection H as <-.
      * apply (tokens_put (set_procs _ σ) p _ _ proc Hp). by left.
      * apply (tokens_put σ p _ _ proc Hp). by left.
  - (* Fire *)
    munfold H. destruct (heap σ !! p) as [[k st]|] eqn:Hp; simpl in H; [|done].
    destruct k; try done; destruct st; try done. case_decide; [|done].
    injection H as <-. etrans; [|apply (Htok proc)].
    apply (tokens_put σ p (Cell (KTimer deadline) Pending)); [done|by left].
  - (* Tick *)
    injection H as <-. apply (Htok proc).
  - (* Crash *)
    munfold H. destruct (procs σ !! proc0) as [pr|] eqn:Hpr; simpl in H; [|done].
    destruct (isEnded pr) eqn:Hend; [done|]. destruct (ending pr); [done|].
    mcase H. injection H as <-.
    pose proof (handleCrash_tokens _ _ _ _ _ E proc) as Hle.
    unfold tokens in Hle at 2. simpl in Hle. rewrite count_cons in Hle. simpl in Hle.
    fold (tokens σ proc) in Hle. case_decide as Hproc; [subst proc0|].
    + rewrite (tokens_unnotified σ proc Hinv) in Hle; [lia|].
      intros s0 t Hin. apply (inv_crashed _ Hinv) in Hin. rewrite Hpr in Hin. simpl in Hin.
      congruence.
    + pose proof (Htok proc). lia.
  - (* Signal *)
    mcase H. injection H as <-. destruct (quiet_die _ _ _ _ E) as [Hcalm _].
    rewrite (tokens_calm _ _ _ Hcalm). apply (Htok proc).
Qed.

Lemma tokens_run acts σ σ' :
  exec acts σ = Some σ' → inv σ → (∀ proc, tokens σ proc ≤ 1) →
  ∀ proc, tokens σ' proc ≤ 1.
Proof.
  revert σ. induction acts as [|a acts IH]; intros σ H Hinv Htok.
  - by injection H as <-.
  - apply exec_cons in H as (σ1 & Hstep & H).
    destruct (step_inv _ _ _ Hstep Hinv) as [Hinv1 _].
    eauto using tokens_step.
Qed.

Lemma tokens_boot valid σ proc : boot valid = Some σ → tokens σ proc = 0.
Proof.
  unfold boot. intros H.
  destruct (CompositeService valid initial) as [[[] σ1]|] eqn:E; [|done].
  injection H as ->. destruct (quiet_CompositeService _ _ _ _ E) as [Hcalm _].
  by rewrite (tokens_calm _ _ _ Hcalm).
Qed.

Lemma tokens_reachable valid acts σ0 σ proc :
  boot valid = Some σ0 → exec acts σ0 = Some σ → tokens σ proc ≤ 1.
Proof.
  intros H0 H. apply (tokens_run _ _ _ H (boot_inv _ _ H0)).
  intros proc'. rewrite (tokens_boot _ _ proc' H0). lia.
Qed.

(** In a run, a crash is followed by one restart at most. *)
Lemma restart_once valid acts σ0 σ proc :
  boot valid = Some σ0 → exec acts σ0 = Some σ →
  count (is_restart proc) (trace σ) ≤ 1.
Proof.
  intros H0 H. pose proof (tokens_reachable _ _ _ _ proc H0 H) as Ht.
  unfold tokens in Ht. lia.
Qed.

Transparent die start stop startProcess handleCrash.

(** C7, as amended.  Let a service that has been started and has reached
    readiness crash, under the default crash-decision policy and with no
    stop requested.  Then crash handling restarts it: after the hook has
    returned and once the delay of the timer has elapsed, the handler
    spawns one process, a new one, and then only waits for it.  In every
    continuation of the run there is at most one restart for this crash;
    it is spawned no sooner than the delay of the timer after the crash
    and is a new ProcessHandle.  The delay of the timer is what
    [setTimeout] makes of the minimum restart delay: no less than the
    minimum restart delay when that is at most 2147483647 ms, and 1 ms
    when it is more.  The restart spawns only: the readiness outcome that
    [start()] made is kept, no new one is made. *)
Theorem restart_after_crash valid acts σ0 σ s proc tail pr c r :
  boot valid = Some σ0 → exec acts σ0 = Some σ →
  exited σ = false →
  procs σ !! proc = Some pr → isEnded pr = false → ending pr = None → owner pr = s →
  config s = Some c → (∀ ctx, onCrash c ctx = default_onCrash ctx) →
  is_Some (startResult (svc σ s)) →
  ready (svc σ s) = Some r → status_of σ r = Some Fulfilled →
  stopResult (svc σ s) = None →
  let h := length (heap σ) in
  let d := minimumRestartDelay c in
  (∀ dt, setTimeout_delay d ≤ dt →
     ∃ σ', exec [Crash proc tail; Run (h + 1); Run (h + 1); Tick dt; Fire h; Run (h + 1)] σ
             = Some σ' ∧
           trace σ' = [Spawn s (length (procs σ)) (ViaRestart proc) (now σ + dt);
                       Log ConsoleLog (RestartingService s);
                       Log ConsoleLog (ServiceCrashed s);
                       CrashNotified s proc (now σ)] ++ trace σ ∧
           count (is_restart proc) (trace σ') = 1 ∧
           process (svc σ' s) = Some (length (procs σ)) ∧
           ready (svc σ' s) = Some r ∧
           heap σ' !! (h + 1) = Some (Cell (KCrash4 s proc (h + 4)) Pending)) ∧
  (∀ acts' σ',
     exec (Crash proc tail :: acts') σ = Some σ' →
     count (is_restart proc) (trace σ') ≤ 1 ∧
     ready (svc σ' s) = Some r ∧
     ∀ l1 l2 p t, trace σ' = l1 ++ Spawn s p (ViaRestart proc) t :: l2 →
       now σ + setTimeout_delay d ≤ t ∧ (∀ s' v t', Spawn s' p v t' ∉ l2)) ∧
  ((N.of_nat d ≤ 2147483647)%N → d ≤ setTimeout_delay d) ∧
  ((2147483647 < N.of_nat d)%N → setTimeout_delay d = 1).
Proof.
  intros H0 H Hex Hpr Hend Hending Hown Hc Hhook Hstarted Hr Hrf Hstop h d.
  pose proof (reachable_inv _ _ _ _ H0 H) as Hinv.
  assert (∀ acts' σ', exec acts' σ = Some σ' → count (is_restart proc) (trace σ') ≤ 1)
    as Honce.
  { intros acts' σ' H'.
    pose proof (tokens_run _ _ _ H' Hinv
                  (λ proc', tokens_reachable _ _ _ _ proc' H0 H) proc) as Ht.
    unfold tokens in Ht. lia. }
  split_and!.
  - intros dt Hdt.
    destruct (crash_then_restart s proc tail σ pr c r dt) as (σ' & H' & Ht & Hrest);
      [done..|].
    exists σ'. split_and!; try done; try apply Hrest.
    apply Nat.le_antisymm; [by eapply Honce|].
    eapply count_pos; [rewrite Ht; apply list_elem_of_here|].
    simpl. by apply bool_decide_eq_true.
  - intros acts' σ' H'.
    destruct (run_inv _ _ _ H' Hinv) as [Hinv' Hev].
    split_and!; [by eapply Honce|by rewrite (ev_ready _ _ Hev s Hstarted)|].
    intros l1 l2 p t Ht.
    pose proof (inv_hist _ Hinv') as Hh.
    pose proof Hh as Hh'. rewrite Ht in Hh'.
    apply hist_ok_app in Hh' as (_ & Hfresh & t0 & c' & Hc' & Hin & Hle).
    assert (c' = c) as -> by congruence.
    apply exec_cons in H' as (σ1 & Hstep & H').
    pose proof (crash_notified _ _ _ _ _ _ Hpr Hown Hstep) as Hn.
    destruct (step_inv _ _ _ Hstep Hinv) as [Hinv1 _].
    destruct (run_inv _ _ _ H' Hinv1) as [_ Hev1].
    assert (t0 = now σ) as ->.
    { eapply (hist_crash_unique (trace σ') s proc t0 s (now σ)); [done| |by eapply evolves_in].
      rewrite Ht. apply elem_of_app. right. by apply list_elem_of_further. }
    done.
  - intros Hd. unfold setTimeout_delay.
    destruct (0 <? d) eqn:H1; simpl; [|apply Nat.ltb_ge in H1; lia].
    by rewrite (proj2 (N.leb_le _ _) Hd).
  - intros Hd. unfold setTimeout_delay.
    rewrite (proj2 (N.leb_gt _ _) Hd). by rewrite andb_false_r.
Qed.

(** ** Shutdown and exit *)

(** The first call of [die]: the last three promises it makes are the
    one of [Promise.all], the one that exits, and [never()]. *)
Lemma die_first m σ n σ' :
  die m σ = Some (n, σ') → stopping σ = false →
  length (heap σ) + 3 ≤ length (heap σ') ∧ stopping σ' = true ∧ exited σ' = exited σ ∧
  trace σ' = [shutdown_begun; Log LoggerError m] ++ trace σ ∧
  ∃ cs, Forall2 (λ (t : string * ServiceConfig) q, has_kind σ' q (KdStopService t.1))
          services cs ∧
        heap σ' !! (length (heap σ') - 3) = Some (Cell (KStoppedAll cs) Pending) ∧
        heap σ' !! (length (heap σ') - 2) =
          Some (Cell (KExit (length (heap σ') - 3)) Pending).
Proof.
  intros H Hs. apply die_spec in H. rewrite Hs in H.
  destruct H as (new & cs & -> & _ & Hcs & _). simpl. rewrite !length_app. simpl.
  split; [lia|]. split; [done|]. split; [done|]. split; [done|]. exists cs. split; [done|].
  replace (length (heap σ) + (length new + 3) - 3) with (length (heap σ ++ new) + 0)
    by (rewrite length_app; lia).
  replace (length (heap σ) + (length new + 3) - 2) with (length (heap σ ++ new) + 1)
    by (rewrite length_app; lia).
  rewrite !(assoc_L (++)), !lookup_app_add. simpl. rewrite length_app.
  by rewrite Nat.add_0_r.
Qed.

(** A cause of shutdown makes its step call [die]. *)
Lemma cause_step rank σ a m :
  acyclic rank = true → exited σ = false → shutdown_cause σ a m →
  ∃ n σd σ1, die m σ = Some (n, σd) ∧ step a σ = Some (tt, σ1) ∧
    (σ1 = σd ∨
     ∃ p k c', heap σ !! p = Some (Cell k Pending) ∧ k ≠ KNever ∧
               kind_of (cell_cont c') = kind_of k ∧ σ1 = put_cell p c' σd).
Proof.
  intros Hr Hex Hc. destruct (die_total rank m σ Hr) as [[n σd] Hd].
  exists n, σd. destruct Hc as [sig|a m [p s u Hp Hst|p s st Hp Hst|p s proc h delay Hp Hst]].
  - exists σd. split; [done|]. split; [|by left].
    unfold step. cbv [bind get]. rewrite Hex. by rewrite Hd.
  - eexists. split; [done|]. split.
    + unfold step. cbv [bind get lift]. rewrite Hex, Hp. cbn [cell_status cell_cont resume].
      unfold await, service_die. cbv [bind get]. rewrite Hst. cbv [ret]. rewrite Hd.
      reflexivity.
    + right. by eexists p, _, (Cell (KFollow n) Pending).
  - eexists. split; [done|]. split.
    + unfold step. cbv [bind get lift]. rewrite Hex, Hp. cbn [cell_status cell_cont resume].
      unfold await, service_die. cbv [bind get]. rewrite Hst. cbv [ret]. rewrite Hd.
      reflexivity.
    + right. by eexists p, _, (Cell (KFollow n) Pending).
  - eexists. split; [done|]. split.
    + unfold step. cbv [bind get lift]. rewrite Hex, Hp. cbn [cell_status cell_cont resume].
      unfold await, service_die. cbv [bind get]. rewrite Hst. cbv [ret]. rewrite Hd.
      reflexivity.
    + right. by eexists p, _, (Cell (KCrash2 s proc n true delay) Pending).
Qed.

Lemma await_all_fulfilled cs σ :
  Forall (λ q, status_of σ q = Some Fulfilled) cs → await_all cs σ = Some (true, σ).
Proof.
  intros Hf. unfold await_all. cbv [bind get]. case_decide as Hr.
  - apply Exists_exists in Hr as (q & Hq & Hr). rewrite Forall_forall in Hf.
    rewrite (Hf _ Hq) in Hr. discriminate Hr.
  - by rewrite decide_True.
Qed.

(** An armed exit stays armed. *)
Lemma exit_armed_step a σ σ' x cs :
  step a σ = Some (tt, σ') → inv σ → exit_armed σ x cs → exit_armed σ' x cs.
Proof.
  intros H Hinv ([st Hx] & Hp & Hcs). destruct (step_inv _ _ _ H Hinv) as [_ Hev].
  assert (Forall2 (λ (t : string * ServiceConfig) q, has_kind σ' q (KdStopService t.1))
            services cs) as Hcs'.
  { eapply Forall2_impl; [exact Hcs|]. eauto using evolves_has_kind. }
  destruct (decide (st = Pending)) as [->|Hne].
  2:{ destruct (ev_heap _ _ Hev _ _ Hx) as (c' & Hc' & _ & Hsame).
      rewrite Hsame in Hc' by by left. split; [eauto|]. split; [|done].
      intros Hx'. rewrite Hx' in Hc'. congruence. }
  specialize (Hp Hx).
  destruct (decide (target a = Some x)) as [Ht|Ht].
  { unfold step in H. munfold H. destruct (exited σ); [done|].
    destruct a as [q|q ok|q|dt|proc tail|sig]; simpl in Ht; simplify_eq;
      munfold H; rewrite Hx in H; simpl in H; [|done..].
    mcase H. injection H as <-. simpl in E.
    apply bind_Some in E as (ok & σ1 & E1 & E). apply await_all_Some in E1 as [-> _].
    assert (c = settle (KStoppedAll cs) ok ∧ heap s = heap σ) as [-> Hh]
      by (destruct ok; munfold E; by injection E as <- <-).
    split; [|split; [|done]]; simpl;
      rewrite Hh, list_lookup_insert_eq by by eapply lookup_lt_Some.
    - eauto.
    - by destruct ok. }
  destruct (decide (target a = Some (S x))) as [Ht'|Ht'].
  { unfold step in H. munfold H. destruct (exited σ); [done|].
    destruct a as [q|q ok|q|dt|proc tail|sig]; simpl in Ht'; simplify_eq;
      munfold H; rewrite Hp in H; simpl in H; [|done..].
    mcase H. simpl in E. apply bind_Some in E as (ok & σ1 & E1 & E).
    apply await_Some in E1 as [-> E1]. unfold status_of in E1. rewrite Hx in E1.
    by destruct ok. }
  split; [|split; [|done]]; rewrite (step_frame _ _ _ _ _ H Hinv Hx Ht); [eauto|].
  intros _. by apply (step_frame _ _ _ _ _ H Hinv Hp Ht').
Qed.

Lemma exit_armed_run acts σ σ' x cs :
  exec acts σ = Some σ' → inv σ → exit_armed σ x cs → exit_armed σ' x cs.
Proof.
  revert σ. induction acts as [|a acts IH]; intros σ H Hinv Hx.
  - by injection H as <-.
  - apply exec_cons in H as (σ1 & Hstep & H).
    destruct (step_inv _ _ _ Hstep Hinv) as [? _]. eauto using exit_armed_step.
Qed.

(** Once the calls of [stopService] are all fulfilled, the two reactions
    that [die] left log the end of the shutdown and exit with status 1. *)
Lemma exit_runs σ x cs :
  exited σ = false → heap σ !! x = Some (Cell (KStoppedAll cs) Pending) →
  heap σ !! S x = Some (Cell (KExit x) Pending) →
  Forall (λ q, status_of σ q = Some Fulfilled) cs →
  ∃ σ', exec [Run x; Run (S x)] σ = Some σ' ∧
        trace σ' = [Exit 1; stopped_composite] ++ trace σ ∧ exited σ' = true.
Proof.
  intros Hex Hx Hp Hf.
  assert (x < length (heap σ)) by by eapply lookup_lt_Some.
  assert (S x < length (heap σ)) by by eapply lookup_lt_Some.
  erewrite exec_step.
  2:{ unfold step. cbv [bind get lift]. rewrite Hex, Hx. cbn [cell_status cell_cont resume].
      cbv [bind]. rewrite (await_all_fulfilled _ _ Hf). reflexivity. }
  erewrite exec_step.
  2:{ unfold step. cbv [bind get lift set_cell modify emit ret]. simpl. rewrite Hex.
      rewrite list_lookup_insert_ne, Hp by lia. cbn [cell_status cell_cont resume].
      unfold await, status_of. cbv [bind get]. simpl.
      rewrite list_lookup_insert_eq by done. reflexivity. }
  eexists. split; [reflexivity|]. done.
Qed.

Lemma fulfilled_ends σ (κ : string → kind) cs :
  inv σ →
  Forall2 (λ (t : string * ServiceConfig) q, has_kind σ q (κ t.1)) services cs →
  Forall (λ c, status_of σ c = Some Fulfilled) cs →
  ∀ t, t ∈ services → done_ok σ (κ t.1).
Proof.
  intros Hinv Hk Hf t Ht.
  apply list_elem_of_lookup in Ht as [i Hi].
  destruct (Forall2_lookup_l _ _ _ _ _ Hk Hi) as (q & Hq & Hkind).
  rewrite Forall_forall in Hf. eapply fulfilled_done; [done|exact Hkind|].
  eapply Hf, list_elem_of_lookup_2, Hq.
Qed.

(** What the first call of [die] leaves, with the promise of the
    reaction that called it. *)
Lemma die_arms m σ n σd σ1 :
  die m σ = Some (n, σd) → inv σ → stopping σ = false →
  (σ1 = σd ∨
   ∃ p k c', heap σ !! p = Some (Cell k Pending) ∧ k ≠ KNever ∧
             kind_of (cell_cont c') = kind_of k ∧ σ1 = put_cell p c' σd) →
  stopping σ1 = true ∧ exited σ1 = exited σ ∧
  trace σ1 = [shutdown_begun; Log LoggerError m] ++ trace σ ∧
  ∃ x cs, length (heap σ1) = x + 3 ∧
          heap σ1 !! x = Some (Cell (KStoppedAll cs) Pending) ∧ exit_armed σ1 x cs.
Proof.
  intros Hd Hinv Hs Hσ1. destruct (die_inv _ _ _ _ Hd Hinv) as (_ & Hext & _).
  assert (stopping σ1 = stopping σd ∧ exited σ1 = exited σd ∧ trace σ1 = trace σd ∧
          length (heap σ1) = length (heap σd) ∧ evolves σd σ1 ∧
          ∀ q c, length (heap σ) ≤ q → heap σd !! q = Some c → heap σ1 !! q = Some c)
    as (Hs1 & Hex1 & Ht1 & Hl1 & Hev1 & Hh1).
  { destruct Hσ1 as [->|(p & k & c' & Hp & Hk & Hkind & ->)];
      [split_and!; auto using evolves_refl|].
    simpl. rewrite length_insert. split_and!; try done.
    - apply (put_cell_evolves _ _ (Cell k Pending)); [by eapply extends_lookup|done..].
    - intros q c Hq Hc'. rewrite list_lookup_insert_ne; [done|].
      apply lookup_lt_Some in Hp. lia. }
  destruct (die_first _ _ _ _ Hd Hs) as (Hlen & Hsd & Hexd & Htd & cs & Hcs & Hx & Hp).
  replace (length (heap σd) - 2) with (S (length (heap σd) - 3)) in Hp by lia.
  rewrite Hs1, Hex1, Ht1, Hl1. split; [done|]. split; [done|]. split; [done|].
  exists (length (heap σd) - 3), cs.
  apply Hh1 in Hx; [|lia]. apply Hh1 in Hp; [|lia].
  split; [lia|]. split; [done|]. split; [eauto|]. split; [done|].
  eapply Forall2_impl; [exact Hcs|]. eauto using evolves_has_kind.
Qed.
(** ** The steps, case by case *)

Lemma step_cases a σ σ' :
  step a σ = Some (tt, σ') → exited σ = false ∧ step_case σ σ' a.
Proof.
  unfold step. intros H. munfold H. destruct (exited σ); [done|]. split; [done|].
  destruct a as [p|p ok|p|dt|proc tail|sig].
  - munfold H. destruct (heap σ !! p) as [[k st]|] eqn:Hp; simpl in H; [|done].
    destruct st; try done. mcase H. injection H as <-. by econstructor.
  - munfold H. destruct (heap σ !! p) as [[k st]|] eqn:Hp; simpl in H; [|done].
    destruct k; try done; destruct st; try done.
    + injection H as <-. by econstructor.
    + munfold H. destruct (procs σ !! _) as [pr|] eqn:Hpr; simpl in H; [|done].
      destruct ok; injection H as <-; by econstructor.
  - munfold H. destruct (heap σ !! p) as [[k st]|] eqn:Hp; simpl in H; [|done].
    destruct k; try done; destruct st; try done. case_decide; [|done].
    injection H as <-. by econstructor.
  - injection H as <-. by econstructor.
  - munfold H. destruct (procs σ !! proc) as [pr|] eqn:Hpr; simpl in H; [|done].
    destruct (isEnded pr) eqn:Hend; [done|]. destruct (ending pr) eqn:Hending; [done|].
    mcase H. injection H as <-. by econstructor.
  - mcase H. injection H as <-. by econstructor.
Qed.

(** ** Calls that only add to the state *)

Section Adding.

Variable C : cell → Prop.
Variable E : event → Prop.

Lemma adds_refl σ : adds C E σ σ.
Proof. split; exists []; by rewrite ?app_nil_r. Qed.

Lemma adds_trans σ1 σ2 σ3 : adds C E σ1 σ2 → adds C E σ2 σ3 → adds C E σ1 σ3.
Proof.
  intros [(h1 & Hh1 & F1) (t1 & Ht1 & G1)] [(h2 & Hh2 & F2) (t2 & Ht2 & G2)]. split.
  - exists (h1 ++ h2). rewrite Hh2, Hh1, (assoc_L (++)). split; [done|]. by apply Forall_app.
  - exists (t2 ++ t1). rewrite Ht2, Ht1, (assoc_L (++)). split; [done|]. by apply Forall_app.
Qed.

Lemma adding_ret {A} (P : A → Prop) a : P a → adding C E P (ret a).
Proof. intros ? σ ? ? [= <- <-]. split; [apply adds_refl|done]. Qed.

Lemma adding_fail {A} (P : A → Prop) : adding C E P fail.
Proof. by intros σ ? ?. Qed.

Lemma adding_bind {A B} (P : B → Prop) (m : M A) (f : A → M B) :
  adding C E (λ _, True) m → (∀ a, adding C E P (f a)) → adding C E P (bind m f).
Proof.
  intros Hm Hf σ b σ' (a & σ1 & H1 & H2)%bind_Some.
  destruct (Hm _ _ _ H1) as [? _]. destruct (Hf _ _ _ _ H2). eauto using adds_trans.
Qed.

Lemma adding_get : adding C E (λ _, True) get.
Proof. intros σ ? ? [= <- <-]. split; [apply adds_refl|done]. Qed.

Lemma adding_lift {A} (o : option A) : adding C E (λ _, True) (lift o).
Proof.
  intros σ ? ? H. destruct o; [|done]. injection H as <- <-. split; [apply adds_refl|done].
Qed.

Lemma adding_modify f :
  (∀ σ, heap (f σ) = heap σ) → (∀ σ, trace (f σ) = trace σ) →
  adding C E (λ _, True) (modify f).
Proof.
  intros Hh Ht σ [] ? [= <-]. split; [|done].
  split; exists []; rewrite ?app_nil_r, ?Hh, ?Ht; by split.
Qed.

Lemma adding_update s f : adding C E (λ _, True) (update s f).
Proof. by apply adding_modify. Qed.

Lemma adding_emit e : E e → adding C E (λ _, True) (emit e).
Proof.
  intros He σ [] ? [= <-]. split; [|done]. split; [exists []; by rewrite app_nil_r|].
  exists [e]. split; [done|]. by apply Forall_singleton.
Qed.

Lemma adding_alloc k st : C (Cell k st) → adding C E (λ _, True) (alloc k st).
Proof.
  intros Hk σ ? ? [= <- <-]. split; [|done]. split; [|exists []; by rewrite ?app_nil_r].
  exists [Cell k st]. split; [done|]. by apply Forall_singleton.
Qed.

Lemma adding_mapM {A B} (f : A → M B) l :
  (∀ a, adding C E (λ _, True) (f a)) → adding C E (λ _, True) (mapM f l).
Proof.
  intros Hf. induction l as [|a l IH]; simpl; [by apply adding_ret|].
  apply adding_bind; [apply Hf|]. intros b. apply adding_bind; [apply IH|].
  intros. by apply adding_ret.
Qed.

Lemma adding_weaken {A} (P : A → Prop) m : adding C E P m → adding C E (λ _, True) m.
Proof. intros H σ a σ' Hm. by destruct (H _ _ _ Hm). Qed.

End Adding.

Ltac adding_step :=
  lazymatch goal with
  | |- adding _ _ _ (bind _ _) => apply adding_bind; [|intros ?]
  | |- adding _ _ _ (ret _) => apply adding_ret
  | |- adding _ _ _ fail => apply adding_fail
  | |- adding _ _ _ get => apply adding_get
  | |- adding _ _ _ (lift _) => apply adding_lift
  | |- adding _ _ _ (emit _) => apply adding_emit; done
  | |- adding _ _ _ (alloc _ _) => apply adding_alloc; done
  | |- adding _ _ _ (modify _) => apply adding_modify; done
  | |- adding _ _ _ (update _ _) => apply adding_update
  | |- adding _ _ _ (mapM _ _) => apply adding_mapM; intros ?
  | |- adding _ _ _ (match ?x with _ => _ end) => destruct x
  end.
(** ** What each call adds *)

Lemma adding_mono {A} (C1 C2 : cell → Prop) (E1 E2 : event → Prop) (P1 P2 : A → Prop) m :
  adding C1 E1 P1 m → (∀ c, C1 c → C2 c) → (∀ e, E1 e → E2 e) → (∀ a, P1 a → P2 a) →
  adding C2 E2 P2 m.
Proof.
  intros H HC HE HP σ a σ' Hm. destruct (H _ _ _ Hm) as [[(h & ? & ?) (t & ? & ?)] ?].
  split; [|auto]. split; eauto using Forall_impl.
Qed.

Ltac adding_auto := repeat first [adding_step | done | solve [simpl; auto]].

Lemma never_adds : adding (λ c, c = Cell KNever Pending) no_event (λ _, True) never.
Proof. unfold never. adding_auto. Qed.

Lemma stopService_adds fuel s :
  adding (λ c, ∃ t cs, c = Cell (KStopService1 t cs) Pending) no_event (λ _, True)
         (stopService fuel s).
Proof.
  revert s. induction fuel as [|fuel IH]; intros s; simpl; [apply adding_fail|].
  adding_auto. apply adding_alloc. eauto.
Qed.

Lemma die_adds m : adding die_cells (die_events m) (λ _, True) (die m).
Proof.
  unfold die. adding_auto; try (apply adding_emit; unfold die_events; auto).
  - eapply adding_mono; [apply stopService_adds| |done..]. by intros ? (? & ? & ->).
  - eapply adding_mono; [apply never_adds| |done..]. by intros ? ->.
Qed.

Lemma await_adds p : adding no_cell no_event (λ _, True) (await p).
Proof. unfold await. adding_auto. Qed.

Lemma await_all_adds cs : adding no_cell no_event (λ _, True) (await_all cs).
Proof. unfold await_all. adding_auto. Qed.

Lemma start_adds s : adding (start_cells s) (start_events s) (λ _, True) (start s).
Proof. unfold start, defineReady, startProcess. adding_auto. Qed.

Lemma stop_adds s : adding (stop_cells s) (stop_events s) (λ _, True) (stop s).
Proof. unfold stop, proc_end. adding_auto. Qed.

Lemma restart_adds s proc :
  adding (restart_cells s) (λ e, ∃ p t, e = Spawn s p (ViaRestart proc) t) (λ _, True)
         (startProcess s (ViaRestart proc)).
Proof. unfold startProcess. adding_auto. apply adding_emit. eauto. Qed.

Lemma handleCrash_adds s proc :
  adding (handleCrash_cells s proc) (handleCrash_events s) (λ _, True) (handleCrash s proc).
Proof.
  unfold handleCrash, isResolved, handleCrash_events. adding_auto;
    apply adding_emit; auto.
Qed.

Lemma startService_adds fuel s :
  adding startService_cells no_event (λ _, True) (startService fuel s).
Proof.
  revert s. induction fuel as [|fuel IH]; intros s; simpl; [apply adding_fail|].
  adding_auto.
Qed.

Ltac adding_call :=
  lazymatch goal with
  | |- adding _ _ _ (await _) => eapply adding_mono; [apply await_adds|done..]
  | |- adding _ _ _ (await_all _) => eapply adding_mono; [apply await_all_adds|done..]
  | |- adding _ _ _ never =>
      eapply adding_mono; [apply never_adds|simpl; auto; try by intros ? []..]
  | |- adding _ _ _ (start _) => eapply adding_mono; [apply start_adds|simpl; auto..]
  | |- adding _ _ _ (stop _) => eapply adding_mono; [apply stop_adds|simpl; auto..]
  | |- adding _ _ _ (service_die _ _) => eapply adding_mono; [apply die_adds|simpl; auto..]
  | |- adding _ _ _ (startProcess _ (ViaRestart _)) =>
      eapply adding_mono; [apply restart_adds|simpl; auto..]
  | |- adding _ _ _ (emit _) => apply adding_emit; simpl; unfold die_events; eauto
  | |- adding _ _ _ (alloc _ _) => apply adding_alloc; simpl; auto
  | |- adding _ _ _ (ret _) =>
      apply adding_ret; unfold resume_next;
      first [by left; eexists | done | by left; exists true | by left; exists false
            | right; by repeat case_match]
  end.

Lemma resume_adds k : adding (resume_cells k) (resume_events k) (resume_next k) (resume k).
Proof.
  destruct k; cbn [resume]; try (by apply adding_fail);
    repeat first [adding_call | adding_step].
Qed.

Lemma lookup_put_app (h new : list cell) p c' q c :
  p < length h →
  <[p := c']> (h ++ new) !! q = Some c →
  (q = p ∧ c = c') ∨ (q ≠ p ∧ h !! q = Some c) ∨ (h !! q = None ∧ c ∈ new).
Proof.
  intros Hp Hq. destruct (decide (q = p)) as [->|Hne].
  - rewrite list_lookup_insert_eq in Hq by (rewrite length_app; lia). left. by simplify_eq.
  - rewrite list_lookup_insert_ne in Hq by done. right.
    apply lookup_app_Some in Hq as [?|[? Hq]]; [by left|right].
    split; [by apply lookup_ge_None|]. by eapply list_elem_of_lookup_2.
Qed.

Lemma lookup_put (h : list cell) p c' q c :
  p < length h → <[p := c']> h !! q = Some c → (q = p ∧ c = c') ∨ (q ≠ p ∧ h !! q = Some c).
Proof.
  intros Hp Hq. rewrite <- (app_nil_r h) in Hq.
  apply lookup_put_app in Hq as [?|[?|[_ Hin]]]; auto.
  by apply elem_of_nil in Hin.
Qed.

(** The promises that [die] makes, when it is the first call. *)
Lemma die_shape m σ n σ' :
  die m σ = Some (n, σ') → stopping σ = false →
  ∃ new cs,
    heap σ' = heap σ ++ new ++
              [Cell (KStoppedAll cs) Pending;
               Cell (KExit (length (heap σ) + length new)) Pending; Cell KNever Pending] ∧
    Forall (λ c, ∃ t cs', c = Cell (KStopService1 t cs') Pending) new ∧
    Forall2 (λ t q, has_kind σ' q (KdStopService t.1)) services cs.
Proof.
  intros H Hs. destruct (die_first _ _ _ _ H Hs) as (_ & _ & _ & _ & cs & Hcs & Hx & _).
  unfold die in H. munfold H. rewrite Hs in H. mcase H. injection H as <- <-.
  destruct (adding_mapM _ _ _ _ (λ t, stopService_adds depth t.1) _ _ _ E)
    as [[(new & Hh & Hnew) _] _].
  simpl in Hh. exists new, l. simpl in *. rewrite Hh in *.
  rewrite <- !(assoc_L (++)) in *. rewrite !length_app in *. simpl in *.
  replace (length (heap σ) + (length new + 3) - 3) with (length (heap σ ++ new) + 0) in Hx
    by (rewrite length_app; lia).
  rewrite (assoc_L (++)), lookup_app_add in Hx. injection Hx as <-.
  split; [by rewrite (assoc_L (++))|]. split; [done|].
  exact Hcs.
Qed.

(** ** The composite as a whole: started, stopped, exit *)

Lemma await_same p σ b σ' : await p σ = Some (b, σ') → σ' = σ.
Proof. unfold await. intros H. munfold H. by repeat case_match; simplify_eq. Qed.

Lemma await_Some_status p σ b σ' :
  await p σ = Some (b, σ') → status_of σ p = Some (if b then Fulfilled else Rejected).
Proof. unfold await. intros H. munfold H. by repeat case_match; simplify_eq. Qed.

Lemma await_all_same cs σ b σ' : await_all cs σ = Some (b, σ') → σ' = σ.
Proof. unfold await_all. intros H. munfold H. by repeat case_decide; simplify_eq. Qed.

Lemma await_all_true cs σ σ' :
  await_all cs σ = Some (true, σ') → Forall (λ c, status_of σ c = Some Fulfilled) cs.
Proof. unfold await_all. intros H. munfold H. by repeat case_decide; simplify_eq. Qed.

(** Which continuations call [die], and with what. *)
Lemma resume_die k σ c' σ1 :
  resume k σ = Some (c', σ1) →
  match k with
  | KReadyCatch _ _ | KStartProcess _ _ | KCrash2 _ _ _ _ _ =>
      σ1 = σ ∨ ∃ m n, shutdown_message m ∧ die m σ = Some (n, σ1)
  | _ => True
  end.
Proof.
  destruct k; try done; simpl; intros H; mbind H; apply await_same in E as ->.
  - destruct a; [injection H as <- <-; by left|].
    mbind H. injection H as <- <-. right. eexists _, _. split; [|done]. done.
  - destruct a; [injection H as <- <-; by left|].
    mbind H. injection H as <- <-. right. eexists _, _. split; [|done]. done.
  - destruct a.
    + munfold H. destruct (stopResult (svc σ id)); injection H as <- <-; by left.
    + destruct caught; [injection H as <- <-; by left|].
      mbind H. injection H as <- <-. right. eexists _, _. split; [|done]. done.
Qed.

Lemma composite_after_mono l l' e :
  (∀ x, x ∈ l → x ∈ l') → composite_after l e → composite_after l' e.
Proof.
  intros Hl. destruct e as [[] []| | | | | | |]; simpl; try done.
  - intros H t Ht. destruct (H t Ht). auto.
  - intros (m & ? & ?). eauto.
  - intros [? H]. split; [auto|]. intros t Ht. destruct (H t Ht). auto.
  - auto.
Qed.

Lemma composite_after_plain l e : composite_event e = false → composite_after l e.
Proof. by destruct e as [[] []| | | | | | |]. Qed.

Lemma composite_intro σ σ1 :
  composite_ok σ → evolves σ σ1 →
  (∀ q c, heap σ1 !! q = Some c → heap σ !! q = Some c ∨ new_composite σ1 c) →
  (∀ e, e ∈ trace σ1 → e ∈ trace σ ∨ composite_after (trace σ1) e) →
  (∀ q c, heap σ !! q = Some c → heap σ1 !! q = Some c) →
  composite_ok σ1.
Proof.
  intros [J1 J2 J3 J4] Hev Hcells Hevents Hkeep. split.
  - intros p cs st Hp. destruct (Hcells _ _ Hp) as [Hold|[]].
    eapply Forall2_impl; [by eapply J1|]. eauto using evolves_has_kind.
  - intros p cs st Hp. destruct (Hcells _ _ Hp) as [Hold|(-> & ? & ?)]; [|done].
    destruct (J2 _ _ _ Hold) as (Hk & Hb & Hs). split_and!.
    + eapply Forall2_impl; [exact Hk|]. eauto using evolves_has_kind.
    + eauto using evolves_in.
    + eauto using evolves_in.
  - intros p q st Hp. destruct (Hcells _ _ Hp) as [Hold|?]; [|done].
    destruct (J3 _ _ _ Hold) as (cs & st' & Hq). eauto.
  - intros e [He|He]%Hevents; [|done].
    eapply composite_after_mono; [|by apply J4]. intros. by eapply evolves_in.
Qed.

(** A call that adds nothing of the composite's keeps it in order. *)
Lemma composite_adds C E σ σ1 :
  composite_ok σ → evolves σ σ1 → adds C E σ σ1 →
  (∀ c, C c → is_composite (cell_cont c) = false) →
  (∀ e, E e → composite_event e = false) →
  composite_ok σ1.
Proof.
  intros J Hev [(h & Hh & Fh) (t & Ht & Ft)] HC HE.
  apply (composite_intro σ); [done|done|..].
  - rewrite Hh. intros q c [?|[_ Hq]]%lookup_app_Some; [by left|right].
    rewrite Forall_forall in Fh.
    pose proof (HC _ (Fh _ (list_elem_of_lookup_2 _ _ _ Hq))).
    by destruct c as [[] ?].
  - rewrite Ht. intros e [He|?]%elem_of_app; [right|by left].
    rewrite Forall_forall in Ft. apply composite_after_plain. auto.
  - rewrite Hh. intros. by apply lookup_app_l_Some.
Qed.

(** The composite does not depend on the rest of the state. *)
Lemma composite_frame σ σ' :
  composite_ok σ → heap σ' = heap σ → trace σ' = trace σ → composite_ok σ'.
Proof.
  intros [J1 J2 J3 J4] Hh Ht. split; unfold has_kind in *; rewrite ?Hh, ?Ht; auto.
Qed.

Lemma composite_emits σ e :
  composite_ok σ → composite_after (e :: trace σ) e → composite_ok (emits e σ).
Proof.
  intros J He. apply (composite_intro σ); [done|apply emits_evolves|by left| |done].
  simpl. intros e' [->|?]%elem_of_cons; auto.
Qed.

Lemma die_composite m σ n σ1 :
  die m σ = Some (n, σ1) → shutdown_message m → inv σ → composite_ok σ → composite_ok σ1.
Proof.
  intros H Hm Hinv J. destruct (die_inv _ _ _ _ H Hinv) as (_ & Hext & _).
  destruct (stopping σ) eqn:Hs.
  - pose proof (die_spec _ _ _ _ H) as Hspec. rewrite Hs in Hspec. destruct Hspec as [_ ->].
    apply (composite_adds (λ c, c = Cell KNever Pending) no_event σ);
      [done|apply allocs_evolves| |by intros ? ->|done].
    split; [exists [Cell KNever Pending]|exists []]; by repeat constructor.
  - destruct (die_shape _ _ _ _ H Hs) as (new & cs & Hh & Hnew & Hkinds).
    destruct (die_first _ _ _ _ H Hs) as (_ & _ & _ & Ht & _).
    apply (composite_intro σ); [done|apply Hext|..].
    + rewrite Hh. intros q c [?|[_ Hq]]%lookup_app_Some; [by left|right].
      apply lookup_app_Some in Hq as [Hq|[Hlen Hq]].
      * rewrite Forall_forall in Hnew.
        by destruct (Hnew _ (list_elem_of_lookup_2 _ _ _ Hq)) as (? & ? & ->).
      * destruct (q - length (heap σ) - length new) as [|[|[|?]]] eqn:Hi;
          simpl in Hq; simplify_eq; simpl; [| |done].
        -- split; [done|]. split; [|done]. rewrite Ht. apply list_elem_of_here.
        -- exists cs, Pending. rewrite Hh, (assoc_L (++)).
           by apply list_lookup_middle; rewrite length_app.
    + rewrite Ht. intros e [->|[->|?]%elem_of_cons]%elem_of_cons; [right|by right|by left].
      exists m. split; [done|]. apply list_elem_of_further, list_elem_of_here.
    + intros. by eapply extends_lookup.
Qed.

(** Resuming keeps the composite in order. *)
Lemma resume_composite p k σ c' σ1 :
  inv σ → composite_ok σ → heap σ !! p = Some (Cell k Pending) →
  resume k σ = Some (c', σ1) →
  composite_ok σ1 ∧
  (∀ cs, k = KStoppedAll cs → cell_status c' = Fulfilled → stopped_composite ∈ trace σ1).
Proof.
  intros Hinv J Hp H.
  destruct (resume_inv _ _ _ _ _ Hinv Hp H) as (_ & Hext & _).
  pose proof (resume_die _ _ _ _ H) as Hdie.
  pose proof (resume_adds _ _ _ _ H) as [Hadds _].
  assert (is_composite k = false →
          match k with KReadyCatch _ _ | KStartProcess _ _ | KCrash2 _ _ _ _ _ => False
                  | _ => True end → composite_ok σ1) as Hother.
  { intros Hk Hnd. eapply composite_adds; [done|apply Hext|exact Hadds|..].
    - intros [k' st'] Hc. destruct k'; try done; exfalso;
        destruct k; simpl in *; naive_solver.
    - intros e He. destruct (composite_event e) eqn:Hce; [exfalso|done].
      destruct e as [[] []| | | | | | |]; try done;
        destruct k; simpl in *; unfold die_events in *; naive_solver. }
  destruct k; try (split; [by apply Hother|done]).
  - (* KStartedAll *)
    simpl in H. mbind H. pose proof (await_all_same _ _ _ _ E) as ->.
    destruct a; munfold H; injection H as <- <-; [|done].
    pose proof (fulfilled_ends σ KdStartService cs Hinv
                  (co_started_all _ J _ _ _ Hp) (await_all_true _ _ _ E)) as Hends.
    split; [|done]. apply (composite_emits σ started_composite); [done|].
    intros t Ht. destruct (Hends t Ht). split; by right.
  - (* KStoppedAll *)
    simpl in H. mbind H. pose proof (await_all_same _ _ _ _ E) as ->.
    destruct (co_stopped_all _ J _ _ _ Hp) as (Hkinds & Hbegun & _).
    destruct a; munfold H; injection H as <- <-; [|done].
    pose proof (fulfilled_ends σ KdStopService cs Hinv Hkinds (await_all_true _ _ _ E))
      as Hends.
    split; [|intros; apply list_elem_of_here].
    apply (composite_emits σ stopped_composite); [done|]. split; [by right|].
    intros t Ht. destruct (Hends t Ht). split; by right.
  - (* KExit *)
    simpl in H. mbind H. pose proof (await_same _ _ _ _ E) as ->.
    apply await_Some_status in E.
    destruct a; munfold H; injection H as <- <-; [|done].
    split; [|done].
    destruct (co_exit _ J _ _ _ Hp) as (cs & st' & Hq).
    unfold status_of in E. rewrite Hq in E. injection E as ->.
    destruct (co_stopped_all _ J _ _ _ Hq) as (_ & _ & Hstopped).
    apply (composite_frame (emits (Exit 1) σ)); [|done..].
    apply composite_emits; [done|]. right. auto.
  - split; [|done].
    destruct Hdie as [->|(m & n & Hm & Hd)]; [done|by eapply die_composite].
  - split; [|done].
    destruct Hdie as [->|(m & n & Hm & Hd)]; [done|by eapply die_composite].
  - split; [|done].
    destruct Hdie as [->|(m & n & Hm & Hd)]; [done|by eapply die_composite].
Qed.

Lemma composite_put σ1 p k c' :
  composite_ok σ1 → heap σ1 !! p = Some (Cell k Pending) →
  kind_of (cell_cont c') = kind_of k → k ≠ KNever →
  resume_next k c' ∨ (∃ ok, c' = settle k ok) →
  (∀ cs, k = KStoppedAll cs → cell_status c' = Fulfilled → stopped_composite ∈ trace σ1) →
  composite_ok (put_cell p c' σ1).
Proof.
  intros J Hp Hkind Hnn Hnext Hstopped.
  assert (evolves σ1 (put_cell p c' σ1)) as Hev by by eapply put_cell_evolves.
  assert (p < length (heap σ1)) as Hlt by by eapply lookup_lt_Some.
  assert (is_composite (cell_cont c') = true → cell_cont c' = k) as Hsame.
  { destruct Hnext as [[[ok ->]|Hn]|[ok ->]]; [done| |done].
    intros Hc. exfalso. destruct c' as [[] []]; try done;
      destruct k; simpl in *; first [done | by repeat case_match]. }
  assert (∀ q c, heap σ1 !! q = Some c → is_composite (cell_cont c) = true →
            ∃ st, heap (put_cell p c' σ1) !! q = Some (Cell (cell_cont c) st)) as Hkeep.
  { intros q c Hq Hc. simpl. destruct (decide (q = p)) as [->|].
    - rewrite list_lookup_insert_eq by done. simplify_eq. simpl in *.
      assert (is_composite (cell_cont c') = true) as Hc'.
      { destruct Hnext as [[[ok ->]|Hn]|[ok ->]]; [done| |done].
        exfalso. destruct k; try done; destruct c' as [[] []]; simpl in *;
          first [done | by repeat case_match]. }
      exists (cell_status c'). rewrite <- (Hsame Hc'). by destruct c'.
    - rewrite list_lookup_insert_ne by done. exists (cell_status c). by destruct c. }
  destruct J as [J1 J2 J3 J4]. split; simpl; auto.
  - intros q cs st Hq. apply lookup_put in Hq as [[-> <-]|[? Hq]]; [| |done].
    + specialize (Hsame eq_refl). simpl in Hsame. subst k.
      eapply Forall2_impl; [by eapply J1|]. eauto using evolves_has_kind.
    + eapply Forall2_impl; [by eapply J1|]. eauto using evolves_has_kind.
  - intros q cs st Hq. apply lookup_put in Hq as [[-> <-]|[? Hq]]; [| |done].
    + pose proof (Hsame eq_refl) as Hk. simpl in Hk. subst k.
      destruct (J2 _ _ _ Hp) as (? & ? & _). split_and!; [|done|by eauto].
      eapply Forall2_impl; [done|]. eauto using evolves_has_kind.
    + destruct (J2 _ _ _ Hq) as (? & ? & ?). split_and!; [|done..].
      eapply Forall2_impl; [done|]. eauto using evolves_has_kind.
  - intros x q st Hx. apply lookup_put in Hx as [[-> <-]|[? Hx]]; [| |done].
    + pose proof (Hsame eq_refl) as Hk. simpl in Hk. subst k.
      destruct (J3 _ _ _ Hp) as (cs & st' & Hq).
      destruct (Hkeep _ _ Hq eq_refl) as [st'' ?]. eauto.
    + destruct (J3 _ _ _ Hx) as (cs & st' & Hq).
      destruct (Hkeep _ _ Hq eq_refl) as [st'' ?]. eauto.
Qed.

Opaque die start stop startProcess handleCrash.

Lemma composite_step a σ σ' :
  step a σ = Some (tt, σ') → inv σ → composite_ok σ → composite_ok σ'.
Proof.
  intros H Hinv J. destruct (step_inv _ _ _ H Hinv) as [_ Hev].
  apply step_cases in H as [_ H]. destruct H.
  - subst σ'. destruct (resume_composite _ _ _ _ _ Hinv J H H0) as [J1 Hst].
    destruct (resume_inv _ _ _ _ _ Hinv H H0) as (_ & Hext & Hk & _).
    destruct (resume_adds _ _ _ _ H0) as [_ Hn].
    apply (composite_put _ _ k); [done|by eapply extends_lookup|done| |by left|done].
    intros ->. discriminate H0.
  - subst σ'. apply (composite_put _ _ KExternal); [done|done|done|done|right; eauto|done].
  - subst σ'. apply (composite_put _ _ (KProcEnd proc)); [|done|done|done| |done].
    + by apply (composite_frame σ).
    + right. by exists true.
  - subst σ'. apply (composite_put _ _ (KProcEnd proc)); [done|done|done|done| |done].
    right. by exists false.
  - subst σ'. apply (composite_put _ _ (KTimer deadline)); [done|done|done|done| |done].
    right. by exists true.
  - subst σ'. by apply (composite_frame σ).
  - destruct (handleCrash_adds _ _ _ _ _ H2) as [Hadds _].
    eapply composite_adds; [| |exact Hadds|..].
    + apply composite_emits; [|done]. by apply (composite_frame σ).
    + pose proof (inv_notify σ (owner pr) proc pr tail Hinv H H0) as Hinv'.
      destruct (handleCrash_inv _ _ _ _ _ H2 Hinv' (list_elem_of_here _ _)) as [_ Hext].
      apply Hext.
    + intros [[] []] Hc; by simpl in *.
    + by intros e [->| ->].
  - by eapply die_composite.
Qed.

Transparent die start stop startProcess handleCrash.

Lemma composite_boot σ : boot true = Some σ → composite_ok σ.
Proof.
  unfold boot. intros H0.
  destruct (CompositeService true initial) as [[[] σ1]|] eqn:H; [|done].
  injection H0 as ->. unfold CompositeService in H. munfold H. mcase H. injection H as <-.
  destruct (adding_mapM _ _ _ _ (λ t, startService_adds depth t.1) _ _ _ E)
    as [[(new & Hh & Hnew) (t & Ht & Ft)] _].
  eapply (mapM_allocs (λ _, True) _ (λ t, KdStartService t.1)) in E
    as (new' & -> & Hks & _).
  2:{ intros a σ0 q0 σ0' _ Ha. apply startService_spec in Ha as (n & ? & ? & ?). eauto. }
  simpl in Hh, Ht. destruct t as [|e t]; [|by apply Forall_cons in Ft as [[] _]].
  assert (∀ p c, (new' ++ [Cell (KStartedAll l) Pending]) !! p = Some c →
            is_composite (cell_cont c) = true → c = Cell (KStartedAll l) Pending) as Hcells.
  { intros p c [Hp|[_ Hp]]%lookup_app_Some Hc.
    - rewrite <- Hh in Hnew. rewrite Forall_forall in Hnew.
      pose proof (Hnew _ (list_elem_of_lookup_2 _ _ _ Hp)). by destruct c as [[] []].
    - apply list_lookup_singleton_Some in Hp as [_ <-]. done. }
  split; simpl.
  - intros p cs st Hp. apply Hcells in Hp as [= -> ->]; [|done].
    eapply Forall2_impl; [exact Hks|]. intros ? ?.
    apply evolves_has_kind, (allocs_evolves _ [_]).
  - intros p cs st Hp. by apply Hcells in Hp.
  - intros p q st Hp. by apply Hcells in Hp.
  - intros e Hin. repeat (apply elem_of_cons in Hin as [->|Hin]; [done|]).
    by apply elem_of_nil in Hin.
Qed.

Lemma composite_run acts σ σ' :
  exec acts σ = Some σ' → inv σ → composite_ok σ → composite_ok σ'.
Proof.
  revert σ. induction acts as [|a acts IH]; intros σ H Hinv J.
  - by injection H as <-.
  - apply exec_cons in H as (σ1 & Hstep & H).
    destruct (step_inv _ _ _ Hstep Hinv) as [? _]. eauto using composite_step.
Qed.

(** In every run of a valid configuration the composite is in order. *)
Lemma composite_reachable acts σ0 σ :
  boot true = Some σ0 → exec acts σ0 = Some σ → composite_ok σ.
Proof.
  intros H0 H. eapply composite_run; eauto using boot_inv, composite_boot.
Qed.

(** The shutdown begins in a call of [die], nowhere else. *)
Lemma begun_step a σ σ' :
  step a σ = Some (tt, σ') → inv σ →
  shutdown_begun ∉ trace σ → shutdown_begun ∈ trace σ' →
  ∃ m n σd, die m σ = Some (n, σd) ∧
    (σ' = σd ∨
     ∃ p k c', heap σ !! p = Some (Cell k Pending) ∧ k ≠ KNever ∧
               kind_of (cell_cont c') = kind_of k ∧ σ' = put_cell p c' σd).
Proof.
  intros H Hinv Hn Hb. apply step_cases in H as [_ H]. destruct H; try by subst σ'.
  - subst σ'. simpl in Hb.
    destruct (resume_inv _ _ _ _ _ Hinv H H0) as (_ & _ & Hk & _).
    destruct (resume_adds _ _ _ _ H0) as [[_ (t & Ht & Ft)] _].
    pose proof (resume_die _ _ _ _ H0) as Hdie.
    assert (k ≠ KNever) as Hnn by by intros ->.
    assert (resume_events k shutdown_begun) as He.
    { rewrite Ht in Hb. apply elem_of_app in Hb as [Hb|?]; [|done].
      rewrite Forall_forall in Ft. auto. }
    destruct k;
      try (exfalso; unfold shutdown_begun in He; simpl in He; naive_solver);
      (destruct Hdie as [->|(m & n & _ & Hd)]; [done|]);
      exists m, n, σ1; (split; [done|]); right; by eexists p, _, c'.
  - destruct (handleCrash_adds _ _ _ _ _ H2) as [[_ (t & Ht & Ft)] _].
    simpl in Ht. rewrite Ht in Hb. apply elem_of_app in Hb as [Hb|Hb].
    + rewrite Forall_forall in Ft. by destruct (Ft _ Hb).
    + by apply elem_of_cons in Hb as [|].
  - eexists _, _, _. split; [done|by left].
Qed.

(** In every run of a valid configuration, once the shutdown has begun
    the exit is armed. *)
Lemma armed_run acts σ σ' :
  exec acts σ = Some σ' → inv σ →
  (shutdown_begun ∈ trace σ → ∃ x cs, exit_armed σ x cs) →
  shutdown_begun ∈ trace σ' → ∃ x cs, exit_armed σ' x cs.
Proof.
  revert σ. induction acts as [|a acts IH]; intros σ H Hinv Ha.
  - by injection H as <-.
  - apply exec_cons in H as (σ1 & Hstep & H).
    destruct (step_inv _ _ _ Hstep Hinv) as [Hinv1 _].
    apply (IH σ1); [done|done|]. intros Hb.
    destruct (decide (shutdown_begun ∈ trace σ)) as [Hold|Hnew].
    + destruct (Ha Hold) as (x & cs & Hx). eauto using exit_armed_step.
    + destruct (begun_step _ _ _ Hstep Hinv Hnew Hb) as (m & n & σd & Hd & Hσ1).
      assert (stopping σ = false) as Hs.
      { destruct (stopping σ) eqn:Hs; [|done]. destruct Hnew. by apply inv_begun. }
      destruct (die_arms _ _ _ _ _ Hd Hinv Hs Hσ1) as (_ & _ & _ & x & cs & _ & _ & Hx).
      eauto.
Qed.

Lemma boot_not_stopping σ : boot true = Some σ → stopping σ = false.
Proof.
  unfold boot. intros H0.
  destruct (CompositeService true initial) as [[[] σ1]|] eqn:H; [|done].
  injection H0 as ->. unfold CompositeService in H. munfold H. mcase H. injection H as <-.
  eapply (mapM_allocs (λ _, True) _ (λ t, KdStartService t.1)) in E
    as (new & -> & _ & _); [done|].
  intros a σ0 q0 σ0' _ Ha. apply startService_spec in Ha as (n & ? & ? & ?). eauto.
Qed.

Lemma armed_reachable acts σ0 σ :
  boot true = Some σ0 → exec acts σ0 = Some σ → stopping σ = true →
  ∃ x cs, exit_armed σ x cs.
Proof.
  intros H0 H Hs. pose proof (boot_inv _ _ H0) as Hinv0.
  eapply armed_run; [done|done| |].
  - intros Hb. by destruct (inv_flag _ Hinv0 (boot_not_stopping _ H0)).
  - apply (inv_begun _ (reachable_inv _ _ _ _ H0 H) Hs).
Qed.

(** After an invalid configuration nothing runs. *)
Lemma boot_invalid acts σ0 σ :
  boot false = Some σ0 → exec acts σ0 = Some σ → exited σ = true.
Proof.
  intros H0 H. injection H0 as <-. destruct acts as [|a acts]; [by injection H as <-|].
  by apply exec_cons in H as (σ1 & Hstep & _).
Qed.
(** C6, as amended.  The program never calls [process.exit] with status
    0: every exit it performs has status 1.  An invalid configuration
    makes the constructor log the error and exit with status 1.  With a
    valid configuration the program exits only at the end of a shutdown:
    a signal or a fatal condition was logged, the end of the shutdown was
    logged, and every service has completed its [stop()].  In a run that
    has not exited, every cause of shutdown, a signal as well as a fatal
    condition, makes its step call [die].  Afterwards the stopping flag
    is set and the exit is armed; the first time, the message and the
    beginning of the shutdown are logged, and the last three promises on
    the heap are the one of [Promise.all] over the calls of
    [stopService] for all services, the one that exits, and [never()].
    Whatever happens next, as long as the program has not exited and the
    promise of [Promise.all] is pending: once the calls of [stopService]
    are all fulfilled, every service has completed its [stop()], and the
    two reactions log the end of the shutdown and exit with status 1.
    So a shutdown that a signal began and that no fatal condition
    disturbed exits with status 1 like any other. *)
Theorem exit_status valid acts σ0 σ rank :
  boot valid = Some σ0 → exec acts σ0 = Some σ → acyclic rank = true →
  (∀ code, Exit code ∈ trace σ → code = 1) ∧
  (∃ σf, boot false = Some σf ∧ exited σf = true ∧
         trace σf = [Exit 1; Log LoggerError ConfigValidationError;
                     Log LoggerDebug ConfigDump]) ∧
  (valid = true → ∀ code, Exit code ∈ trace σ →
     (∃ m, shutdown_message m ∧ Log LoggerError m ∈ trace σ) ∧
     stopped_composite ∈ trace σ ∧
     ∀ t, t ∈ services → End (OpStop t.1) ∈ trace σ) ∧
  (exited σ = false → ∀ a m, shutdown_cause σ a m →
     ∃ σ1 x cs, step a σ = Some (tt, σ1) ∧ stopping σ1 = true ∧ exited σ1 = false ∧
       (stopping σ = true → trace σ1 = trace σ) ∧
       (stopping σ = false →
          trace σ1 = [shutdown_begun; Log LoggerError m] ++ trace σ ∧
          length (heap σ1) = x + 3 ∧
          heap σ1 !! x = Some (Cell (KStoppedAll cs) Pending)) ∧
       exit_armed σ1 x cs ∧
       ∀ acts' σ2, exec acts' σ1 = Some σ2 → exited σ2 = false →
         heap σ2 !! x = Some (Cell (KStoppedAll cs) Pending) →
         Forall (λ q, status_of σ2 q = Some Fulfilled) cs →
         (∀ t, t ∈ services → End (OpStop t.1) ∈ trace σ2) ∧
         ∃ σ3, exec [Run x; Run (S x)] σ2 = Some σ3 ∧
               trace σ3 = [Exit 1; stopped_composite] ++ trace σ2 ∧
               exited σ3 = true).
Proof.
  intros H0 H Hr. pose proof (reachable_inv _ _ _ _ H0 H) as Hinv. split_and!.
  - intros code Hin. pose proof (inv_hist _ Hinv) as Hh.
    apply list_elem_of_split in Hin as (l1 & l2 & Ht). rewrite Ht in Hh.
    by apply hist_ok_app in Hh.
  - by eexists.
  - intros -> code Hin. pose proof (composite_reachable _ _ _ H0 H) as J.
    pose proof (co_trace _ J _ Hin) as Hstopped. simpl in Hstopped.
    destruct (co_trace _ J _ Hstopped) as [Hbegun Hends].
    split; [exact (co_trace _ J _ Hbegun)|]. split; [done|].
    intros t Ht. by destruct (Hends t Ht).
  - intros Hex a m Hc.
    assert (valid = true) as ->.
    { destruct valid; [done|]. by rewrite (boot_invalid _ _ _ H0 H) in Hex. }
    destruct (cause_step rank _ _ _ Hr Hex Hc) as (n & σd & σ1 & Hd & Hstep & Hσ1).
    destruct (step_inv _ _ _ Hstep Hinv) as [Hinv1 _].
    assert (∃ x cs, stopping σ1 = true ∧ exited σ1 = false ∧
              (stopping σ = true → trace σ1 = trace σ) ∧
              (stopping σ = false →
                 trace σ1 = [shutdown_begun; Log LoggerError m] ++ trace σ ∧
                 length (heap σ1) = x + 3 ∧
                 heap σ1 !! x = Some (Cell (KStoppedAll cs) Pending)) ∧
              exit_armed σ1 x cs) as (x & cs & Hs1 & Hex1 & Hold & Hnew & Hx).
    { destruct (stopping σ) eqn:Hs.
      - destruct (armed_reachable _ _ _ H0 H Hs) as (x & cs & Hx). exists x, cs.
        pose proof (die_spec _ _ _ _ Hd) as Hspec. rewrite Hs in Hspec.
        destruct Hspec as [_ ->].
        split_and!; [| | |done|by eapply exit_armed_step];
          destruct Hσ1 as [->|(p & k & c' & _ & _ & _ & ->)]; done.
      - destruct (die_arms _ _ _ _ _ Hd Hinv Hs Hσ1) as (? & ? & ? & x & cs & ? & ? & ?).
        exists x, cs. split_and!; [done|congruence|done|done|done]. }
    exists σ1, x, cs. split_and!; try done.
    intros acts' σ2 Hrun Hex2 Hx2 Hf.
    destruct (run_inv _ _ _ Hrun Hinv1) as [Hinv2 Hev2].
    destruct (exit_armed_run _ _ _ _ _ Hrun Hinv1 Hx) as (_ & Hp2 & Hcs2). split.
    + intros t Ht. by eapply (fulfilled_ends σ2 KdStopService cs).
    + apply (exit_runs _ _ cs); auto.
Qed.

(** The constructor reports the start of the composite when every
    service has started, and only then: once the calls of [startService]
    for all services are fulfilled, the reaction of the constructor logs
    it; and whenever it is logged, [startService] and [start()] have
    completed for every service. *)
Theorem started_composite_logged acts σ0 σ :
  boot true = Some σ0 → exec acts σ0 = Some σ →
  (started_composite ∈ trace σ →
   ∀ t, t ∈ services → End (OpStartService t.1) ∈ trace σ ∧ End (OpStart t.1) ∈ trace σ) ∧
  (∀ p cs, heap σ !! p = Some (Cell (KStartedAll cs) Pending) →
     Forall2 (λ (t : string * ServiceConfig) q, has_kind σ q (KdStartService t.1))
       services cs ∧
     (exited σ = false → Forall (λ q, status_of σ q = Some Fulfilled) cs →
      ∃ σ', exec [Run p] σ = Some σ' ∧ trace σ' = started_composite :: trace σ ∧
            heap σ' !! p = Some (Cell (KStartedAll cs) Fulfilled))).
Proof.
  intros H0 H. pose proof (composite_reachable _ _ _ H0 H) as J. split.
  - intros Hin. exact (co_trace _ J _ Hin).
  - intros p cs Hp. split; [by eapply co_started_all|]. intros Hex Hf.
    erewrite exec_step.
    2:{ unfold step. cbv [bind get lift]. rewrite Hex, Hp.
        cbn [cell_status cell_cont resume]. cbv [bind].
        rewrite (await_all_fulfilled _ _ Hf). reflexivity. }
    eexists. split; [reflexivity|]. split; [done|]. simpl.
    apply list_lookup_insert_eq. by eapply lookup_lt_Some.
Qed.

(** ** A crash before readiness *)






(** ** Process handles *)

(** Every process that is spawned, by [start()] or by a restart, is a
    new [ServiceProcess]: no other spawn of the run has its handle, and
    the handle is one of the processes of the state. *)
Theorem spawn_fresh valid acts σ0 σ l1 l2 s p v t :
  boot valid = Some σ0 → exec acts σ0 = Some σ →
  trace σ = l1 ++ Spawn s p v t :: l2 →
  (∀ s' v' t', Spawn s' p v' t' ∉ l1 ++ l2) ∧ p < length (procs σ).
Proof.
  intros H0 H Ht. pose proof (reachable_inv _ _ _ _ H0 H) as Hinv.
  pose proof (inv_hist _ Hinv) as Hh.
  assert (∀ l1 l2 s p v t, trace σ = l1 ++ Spawn s p v t :: l2 →
            ∀ s' v' t', Spawn s' p v' t' ∉ l2) as Hlater.
  { intros k1 k2 s1 p1 v1 t1 Hk. rewrite Hk in Hh. apply hist_ok_app in Hh.
    destruct v1; simpl in Hh; [by destruct Hh as [_ ?]|by destruct Hh as (_ & ? & _)]. }
  split.
  - intros s' v' t' [Hin|Hin]%elem_of_app; [|by eapply Hlater].
    apply list_elem_of_split in Hin as (k1 & k2 & ->).
    rewrite <- (assoc_L (++)) in Ht. simpl in Ht.
    eapply (Hlater _ _ _ _ _ _ Ht s v t). apply elem_of_app. right. apply list_elem_of_here.
  - apply (inv_procs _ Hinv s p v t). rewrite Ht. apply elem_of_app. right.
    apply list_elem_of_here.
Qed.

End Program.

(** * The labels of the output lines *)







(** * The theorems at work on [api_web] *)

(** The states of the runs above; the call stack may be five calls deep. *)
Abbreviation booted := (default initial (boot api_web 5 true)).
Abbreviation after acts := (default initial (exec api_web 5 acts booted)).

Lemma boot_api_web : boot api_web 5 true = Some booted.
Proof. vm_compute. reflexivity. Qed.

Lemma start_after_dependencies_witness :
  trace (after startup) =
    take 7 (trace (after startup)) ++ Begin (OpStart "web") :: drop 8 (trace (after startup)) ∧
  End (OpStartService "api") ∈ drop 8 (trace (after startup)) ∧
  End (OpStart "api") ∈ drop 8 (trace (after startup)).
Proof.
  assert (trace (after startup) =
    take 7 (trace (after startup)) ++ Begin (OpStart "web") :: drop 8 (trace (after startup)))
    as Ht by (vm_compute; reflexivity).
  split; [exact Ht|].
  apply (start_after_dependencies api_web 5 true startup booted (after startup)
           (take 7 (trace (after startup))) (drop 8 (trace (after startup))) "web"
           {| dependencies := ["api"%string]; minimumRestartDelay := 1000;
              onCrash := default_onCrash |} "api").
  - vm_compute. reflexivity.
  - vm_compute. reflexivity.
  - exact Ht.
  - reflexivity.
  - simpl. apply list_elem_of_here.
Defined.

Lemma stop_after_dependents_witness :
  trace (after (startup ++ shutdown)) =
    take 8 (trace (after (startup ++ shutdown))) ++
    Begin (OpStop "api") :: drop 9 (trace (after (startup ++ shutdown))) ∧
  lists api_web "web" "api" ∧
  End (OpStopService "web") ∈ drop 9 (trace (after (startup ++ shutdown))) ∧
  End (OpStop "web") ∈ drop 9 (trace (after (startup ++ shutdown))).
Proof.
  assert (trace (after (startup ++ shutdown)) =
    take 8 (trace (after (startup ++ shutdown))) ++
    Begin (OpStop "api") :: drop 9 (trace (after (startup ++ shutdown))))
    as Ht by (vm_compute; reflexivity).
  assert (lists api_web "web" "api") as Hl.
  { eexists. split; [apply list_elem_of_further, list_elem_of_here|].
    simpl. apply list_elem_of_here. }
  destruct (stop_after_dependents api_web 5 true (startup ++ shutdown) booted
              (after (startup ++ shutdown))
              (take 8 (trace (after (startup ++ shutdown))))
              (drop 9 (trace (after (startup ++ shutdown)))) "api") as [H1 H2].
  - vm_compute. reflexivity.
  - vm_compute. reflexivity.
  - exact Ht.
  - split; [exact Ht|]. split; [exact Hl|]. split.
    + exact (H1 "web"%string Hl).
    + exact (H2 "web"%string (tc_once _ _ _ Hl)).
Defined.

Lemma no_restart_after_stop_witness :
  trace (after (startup ++ crash_and_restart)) =
    [] ++ Spawn "api" 2 (ViaRestart 0) 3000 ::
          drop 1 (trace (after (startup ++ crash_and_restart))) ∧
  Begin (OpStop "api") ∉ drop 1 (trace (after (startup ++ crash_and_restart))).
Proof.
  assert (trace (after (startup ++ crash_and_restart)) =
    [] ++ Spawn "api" 2 (ViaRestart 0) 3000 ::
          drop 1 (trace (after (startup ++ crash_and_restart))))
    as Ht by (vm_compute; reflexivity).
  split; [exact Ht|].
  apply (no_restart_after_stop api_web 5 true (startup ++ crash_and_restart) booted
           (after (startup ++ crash_and_restart)) [] _ "api" 2 0 3000).
  - vm_compute. reflexivity.
  - vm_compute. reflexivity.
  - exact Ht.
Defined.

Lemma exit_status_witness :
  acyclic api_web 5 (λ s, if decide (s = "api"%string) then 0 else 1) = true ∧
  stopping (after ready_fails) = false ∧
  fatal (after ready_fails) (Run 5) (ErrorIn "api" FromReady) ∧
  step api_web 5 (Run 5) (after ready_fails) = Some (tt, after (ready_fails ++ [Run 5])) ∧
  stopping (after (ready_fails ++ [Run 5])) = true ∧
  trace (after (ready_fails ++ [Run 5])) =
    [shutdown_begun; Log LoggerError (ErrorIn "api" FromReady)] ++ trace (after ready_fails) ∧
  heap (after (ready_fails ++ [Run 5])) !! 13 = Some (Cell (KStoppedAll [11; 12]) Pending) ∧
  exit_armed api_web (after (ready_fails ++ [Run 5])) 13 [11; 12] ∧
  End (OpStop "api") ∈ trace (after (ready_fails ++ [Run 5] ++ stops_after_failure)) ∧
  (Exit 1 ∈ trace (after (startup ++ shutdown)) ∧
   stopped_composite ∈ trace (after (startup ++ shutdown)) ∧
   End (OpStop "web") ∈ trace (after (startup ++ shutdown))) ∧
  ∃ σ3, exec api_web 5 [Run 13; Run 14]
          (after (ready_fails ++ [Run 5] ++ stops_after_failure)) = Some σ3 ∧
        trace σ3 = [Exit 1; stopped_composite] ++
                   trace (after (ready_fails ++ [Run 5] ++ stops_after_failure)) ∧
        exited σ3 = true.
Proof.
  assert (acyclic api_web 5 (λ s, if decide (s = "api"%string) then 0 else 1) = true) as Hr
    by reflexivity.
  assert (stopping (after ready_fails) = false) as Hs by (vm_compute; reflexivity).
  assert (fatal (after ready_fails) (Run 5) (ErrorIn "api" FromReady)) as Hf
    by (apply (fatal_ready _ 5 "api" 4); vm_compute; reflexivity).
  assert (step api_web 5 (Run 5) (after ready_fails) =
          Some (tt, after (ready_fails ++ [Run 5]))) as Hstep by (vm_compute; reflexivity).
  assert (length (heap (after (ready_fails ++ [Run 5]))) = 16) as Hl
    by (vm_compute; reflexivity).
  assert (heap (after (ready_fails ++ [Run 5])) !! 13 =
          Some (Cell (KStoppedAll [11; 12]) Pending)) as Hx by (vm_compute; reflexivity).
  split; [exact Hr|]. split; [exact Hs|]. split; [exact Hf|]. split; [exact Hstep|].
  destruct (exit_status api_web 5 true ready_fails booted (after ready_fails)
              (λ s, if decide (s = "api"%string) then 0 else 1)) as (_ & _ & _ & H).
  - vm_compute. reflexivity.
  - vm_compute. reflexivity.
  - exact Hr.
  - destruct (H eq_refl (Run 5) (ErrorIn "api" FromReady) (cause_fatal _ _ _ Hf))
      as (σ1 & x & cs & Hstep' & Hs1 & _ & _ & H1 & Hp & H2).
    destruct (Some_pair_inj _ _ _ _ (eq_trans (eq_sym Hstep') Hstep)) as [_ Hσ]. subst σ1.
    destruct (H1 Hs) as (Ht & Hlen & Hx').
    assert (x = 13) as -> by (pose proof (eq_trans (eq_sym Hl) Hlen); lia).
    assert (cs = [11; 12]) as ->
      by (pose proof (eq_trans (eq_sym Hx') Hx) as Hcs; by injection Hcs).
    destruct (H2 stops_after_failure (after (ready_fails ++ [Run 5] ++ stops_after_failure)))
      as (Hends & H3).
    + vm_compute. reflexivity.
    + vm_compute. reflexivity.
    + vm_compute. reflexivity.
    + repeat constructor; vm_compute; reflexivity.
    + split; [exact Hs1|]. split; [exact Ht|]. split; [exact Hx|]. split; [exact Hp|].
      split.
      { apply (Hends ("api"%string, {| dependencies := []; minimumRestartDelay := 1000;
                                       onCrash := default_onCrash |})).
        unfold api_web. in_list. }
      split; [|exact H3].
      assert (Exit 1 ∈ trace (after (startup ++ shutdown))) as He by (vm_compute; in_list).
      destruct (exit_status api_web 5 true (startup ++ shutdown) booted
                  (after (startup ++ shutdown))
                  (λ s, if decide (s = "api"%string) then 0 else 1)) as (_ & _ & H5 & _).
      * vm_compute. reflexivity.
      * vm_compute. reflexivity.
      * exact Hr.
      * destruct (H5 eq_refl 1 He) as (_ & Hst & Hw).
        split; [exact He|]. split; [exact Hst|].
        apply (Hw ("web"%string, {| dependencies := ["api"%string];
                                    minimumRestartDelay := 1000;
                                    onCrash := default_onCrash |})).
        unfold api_web. in_list.
Defined.

Lemma graceful_shutdown_exits_1 :
  exec api_web 5 (startup ++ shutdown) booted = Some (after (startup ++ shutdown)) ∧
  Log LoggerError (ShutdownSignal SIGINT) ∈ trace (after (startup ++ shutdown)) ∧
  graceful api_web (after (startup ++ shutdown)) = true ∧
  specified_status api_web (after (startup ++ shutdown)) = 0 ∧
  head (trace (after (startup ++ shutdown))) = Some (Exit 1) ∧
  Exit 0 ∉ trace (after (startup ++ shutdown)).
Proof.
  split; [vm_compute; reflexivity|]. split; [vm_compute; in_list|].
  split; [vm_compute; reflexivity|]. split; [vm_compute; reflexivity|].
  split; [vm_compute; reflexivity|].
  intros Hin. vm_compute in Hin. repeat (apply elem_of_cons in Hin as [[=]|Hin]).
  by apply elem_of_nil in Hin.
Qed.

Lemma start_stop_idempotent_witness :
  count (λ e, bool_decide (e = Begin (OpStart "api"))) (trace (after (startup ++ shutdown))) = 2 ∧
  count (is_start_spawn "api") (trace (after (startup ++ shutdown))) = 1 ∧
  count (λ e, bool_decide (e = Begin (OpStop "web"))) (trace (after (startup ++ shutdown))) = 2 ∧
  count (is_end_request "web") (trace (after (startup ++ shutdown))) ≤ 1.
Proof.
  assert (boot api_web 5 true = Some booted) as H0 by (vm_compute; reflexivity).
  assert (exec api_web 5 (startup ++ shutdown) booted = Some (after (startup ++ shutdown)))
    as H by (vm_compute; reflexivity).
  split; [vm_compute; reflexivity|]. split; [|split; [vm_compute; reflexivity|]].
  - apply (start_stop_idempotent api_web 5 true _ _ _ "api" H0 H).
    vm_compute. in_list.
  - apply (start_stop_idempotent api_web 5 true _ _ _ "web" H0 H).
Defined.


Lemma die_once_witness :
  acyclic api_web 5 (λ s, if decide (s = "api"%string) then 0 else 1) = true ∧
  stopping (after startup) = false ∧
  die api_web 5 (ShutdownSignal SIGINT) (after startup) =
    Some (21, after (startup ++ [Signal SIGINT])) ∧
  stopping (after (startup ++ [Signal SIGINT])) = true ∧
  is_never (after (startup ++ [Signal SIGINT])) 21 ∧
  is_never (after (startup ++ shutdown)) 21 ∧
  count (λ e, bool_decide (e = shutdown_begun)) (trace (after (startup ++ shutdown))) = 1.
Proof.
  assert (acyclic api_web 5 (λ s, if decide (s = "api"%string) then 0 else 1) = true) as Hr
    by reflexivity.
  assert (stopping (after startup) = false) as Hs by (vm_compute; reflexivity).
  assert (die api_web 5 (ShutdownSignal SIGINT) (after startup) =
          Some (21, after (startup ++ [Signal SIGINT]))) as Hd by (vm_compute; reflexivity).
  split; [exact Hr|]. split; [exact Hs|]. split; [exact Hd|].
  destruct (die_once api_web 5 true startup booted (after startup) (ShutdownSignal SIGINT)
              (λ s, if decide (s = "api"%string) then 0 else 1))
    as (n & σ' & Hd' & H1 & _ & H3 & H4).
  - vm_compute. reflexivity.
  - vm_compute. reflexivity.
  - exact Hr.
  - destruct (Some_pair_inj _ _ _ _ (eq_trans (eq_sym Hd') Hd)) as [Hn Hσ].
    subst n σ'. destruct (H1 Hs) as (H1' & _).
    destruct (H4 (tail shutdown) (after (startup ++ shutdown))) as (H5 & _ & H6).
    + vm_compute. reflexivity.
    + auto.
Defined.

Lemma restart_after_crash_witness :
  ready (svc (after (startup ++ [Tick 2000])) "api") = Some 5 ∧
  status_of (after (startup ++ [Tick 2000])) 5 = Some Fulfilled ∧
  ∃ σ', exec api_web 5 [Crash 0 []; Run 17; Run 17; Tick 1000; Fire 16; Run 17]
          (after (startup ++ [Tick 2000])) = Some σ' ∧
        trace σ' = [Spawn "api" 2 (ViaRestart 0) 3000;
                    Log ConsoleLog (RestartingService "api");
                    Log ConsoleLog (ServiceCrashed "api");
                    CrashNotified "api" 0 2000] ++ trace (after (startup ++ [Tick 2000])) ∧
        count (is_restart 0) (trace σ') = 1 ∧
        process (svc σ' "api") = Some 2 ∧
        ready (svc σ' "api") = Some 5.
Proof.
  assert (ready (svc (after (startup ++ [Tick 2000])) "api") = Some 5) as Hr
    by (vm_compute; reflexivity).
  assert (status_of (after (startup ++ [Tick 2000])) 5 = Some Fulfilled) as Hf
    by (vm_compute; reflexivity).
  split; [exact Hr|]. split; [exact Hf|].
  destruct (restart_after_crash api_web 5 true (startup ++ [Tick 2000]) booted
              (after (startup ++ [Tick 2000])) "api" 0 []
              {| owner := "api"; started := 6; isEnded := false; ending := None;
                 logTail := [] |}
              {| dependencies := []; minimumRestartDelay := 1000;
                 onCrash := default_onCrash |} 5) as [H _].
  - vm_compute. reflexivity.
  - vm_compute. reflexivity.
  - vm_compute. reflexivity.
  - vm_compute. reflexivity.
  - reflexivity.
  - reflexivity.
  - reflexivity.
  - reflexivity.
  - intros ctx. reflexivity.
  - vm_compute. eexists. reflexivity.
  - exact Hr.
  - exact Hf.
  - vm_compute. reflexivity.
  - destruct (H 1000) as (σ' & H1 & H2 & H3 & H4 & H5 & _); [vm_compute; lia|].
    exists σ'. split; [exact H1|]. split; [exact H2|]. split; [exact H3|].
    split; [exact H4 | exact H5].
Defined.

Lemma restart_keeps_gate :
  exec api_web 5 crash_and_restart (after startup) = Some (after (startup ++ crash_and_restart)) ∧
  trace (after (startup ++ crash_and_restart)) =
    [Spawn "api" 2 (ViaRestart 0) 3000; Log ConsoleLog (RestartingService "api");
     Log ConsoleLog (ServiceCrashed "api"); CrashNotified "api" 0 2000] ++
    trace (after startup) ∧
  fresh_handle (after startup) (after (startup ++ crash_and_restart)) "api" ∧
  ready (svc (after startup) "api") = Some 5 ∧
  ready (svc (after (startup ++ crash_and_restart)) "api") = Some 5 ∧
  ¬ fresh_gate (after startup) (after (startup ++ crash_and_restart)) "api".
Proof.
  split; [vm_compute; reflexivity|]. split; [vm_compute; reflexivity|].
  split; [exists 2; split; [vm_compute; reflexivity | vm_compute; lia]|].
  split; [vm_compute; reflexivity|]. split; [vm_compute; reflexivity|].
  intros (r & Hr & Hle). vm_compute in Hr. injection Hr as <-.
  vm_compute in Hle. lia.
Qed.


(** A supervisor on which [stop()] was called before anything else. *)
Abbreviation stopped_first := (default initial (snd <$> stop "api" initial)).


Lemma start_after_stop_witness :
  stopResult (svc (after [Signal SIGINT; Run 4]) "web") = Some 10 ∧
  startResult (svc (after [Signal SIGINT; Run 4]) "web") = None ∧
  ∃ σ', start "web" (after [Signal SIGINT; Run 4]) = Some (None, σ') ∧
        procs σ' = procs (after [Signal SIGINT; Run 4]) ∧
        heap σ' = heap (after [Signal SIGINT; Run 4]).
Proof.
  assert (stopResult (svc (after [Signal SIGINT; Run 4]) "web") = Some 10) as Hx
    by (vm_compute; reflexivity).
  assert (startResult (svc (after [Signal SIGINT; Run 4]) "web") = None) as Hn
    by (vm_compute; reflexivity).
  split; [exact Hx|]. split; [exact Hn|].
  destruct (start_after_stop "web" _ 10 Hx) as (σ' & _ & Hp & Hh & _ & _ & H).
  exists σ'. split; [exact (H Hn)|]. split; [exact Hp | exact Hh].
Defined.

Lemma started_composite_logged_witness :
  started_composite ∈ trace (after startup) ∧
  End (OpStart "web") ∈ trace (after startup) ∧
  heap (after (removelast startup)) !! 3 = Some (Cell (KStartedAll [0; 2]) Pending) ∧
  ∃ σ', exec api_web 5 [Run 3] (after (removelast startup)) = Some σ' ∧
        trace σ' = started_composite :: trace (after (removelast startup)).
Proof.
  assert (started_composite ∈ trace (after startup)) as Hin by (vm_compute; in_list).
  assert (heap (after (removelast startup)) !! 3 = Some (Cell (KStartedAll [0; 2]) Pending))
    as Hp by (vm_compute; reflexivity).
  split; [exact Hin|].
  destruct (started_composite_logged api_web 5 startup booted (after startup)) as [H1 _].
  - vm_compute. reflexivity.
  - vm_compute. reflexivity.
  - split.
    { apply (H1 Hin ("web"%string, {| dependencies := ["api"%string];
                                      minimumRestartDelay := 1000;
                                      onCrash := default_onCrash |})).
      unfold api_web. in_list. }
    split; [exact Hp|].
    destruct (started_composite_logged api_web 5 (removelast startup) booted
                (after (removelast startup))) as [_ H2].
    + vm_compute. reflexivity.
    + vm_compute. reflexivity.
    + destruct (H2 3 [0; 2] Hp) as [_ H3].
      destruct H3 as (σ' & Hrun & Ht & _).
      * vm_compute. reflexivity.
      * repeat constructor; vm_compute; reflexivity.
      * exists σ'. split; [exact Hrun | exact Ht].
Defined.


Lemma spawn_fresh_witness :
  trace (after (startup ++ crash_and_restart)) =
    [] ++ Spawn "api" 2 (ViaRestart 0) 3000 :: tail (trace (after (startup ++ crash_and_restart))) ∧
  (∀ s' v' t', Spawn s' 2 v' t' ∉ [] ++ tail (trace (after (startup ++ crash_and_restart)))) ∧
  2 < length (procs (after (startup ++ crash_and_restart))).
Proof.
  assert (trace (after (startup ++ crash_and_restart)) =
          [] ++ Spawn "api" 2 (ViaRestart 0) 3000 ::
            tail (trace (after (startup ++ crash_and_restart)))) as Ht
    by (vm_compute; reflexivity).
  split; [exact Ht|].
  apply (spawn_fresh api_web 5 true (startup ++ crash_and_restart) booted
           (after (startup ++ crash_and_restart)) [] _ "api" 2 (ViaRestart 0) 3000).
  - vm_compute. reflexivity.
  - vm_compute. reflexivity.
  - exact Ht.
Defined.

